(** * In-place remediation of a resolved dependency graph

    A shallow embedding of the dependency-chain enumeration
    ([internal/resolution/dependency_chain.go]) and of the in-place patch
    computation (package [remediation]) of osv-scanner, followed by the
    properties established about them. *)

From Stdlib Require Import ZArith List String Ascii Bool Lia Arith.
From Stdlib Require Import Permutation Sorted.
Import ListNotations.
Local Open Scope string_scope.
Local Open Scope list_scope.
Local Open Scope Z_scope.

Set Implicit Arguments.

(** ** Go run-time model: errors, panics and the [slices]/[cmp] helpers *)

Module Go.

(** Errors produced by collaborators (network clients, the semver
    library) are opaque messages.  The package-private sentinel
    [errInPlaceImpossible] cannot be produced by a collaborator. *)
Definition extError := string.

Inductive error : Type :=
| errInPlaceImpossible
| errExternal (msg : extError).

Inductive panic : Type :=
| IndexOutOfRange
| SliceBoundsOutOfRange.

(** Outcome of a Go call of type [(A, error)]: a normal return with a nil
    error, a return with a non-nil error, or a run-time panic. *)
Inductive result (A : Type) : Type :=
| Ok (a : A)
| Err (e : error)
| Panic (p : panic).
Arguments Ok {A} a.
Arguments Err {A} e.
Arguments Panic {A} p.

Definition bind {A B} (m : result A) (k : A -> result B) : result B :=
  match m with
  | Ok a => k a
  | Err e => Err e
  | Panic p => Panic p
  end.

(** A collaborator call: its error, if any, is an external one. *)
Definition call {A} (r : extError + A) : result A :=
  match r with
  | inl msg => Err (errExternal msg)
  | inr a => Ok a
  end.

(** [s[i]] *)
Definition index {A} (s : list A) (i : nat) : result A :=
  match nth_error s i with
  | Some a => Ok a
  | None => Panic IndexOutOfRange
  end.

(** [slices.IndexFunc]: first index whose element satisfies [f], or -1. *)
Fixpoint indexFrom {A} (f : A -> bool) (i : Z) (s : list A) : Z :=
  match s with
  | [] => -1
  | x :: s' => if f x then i else indexFrom f (i + 1) s'
  end.

Definition IndexFunc {A} (s : list A) (f : A -> bool) : Z := indexFrom f 0 s.

(** [slices.ContainsFunc] is [IndexFunc(s, f) >= 0]. *)
Definition ContainsFunc {A} (s : list A) (f : A -> bool) : bool :=
  0 <=? IndexFunc s f.

(** [slices.Contains] on strings. *)
Definition Contains (s : list string) (v : string) : bool :=
  0 <=? IndexFunc s (String.eqb v).

(** [slices.Delete(s, i, j)]: removes [s[i:j]]; panics when [s[i:j]] is
    not a valid slice expression. *)
Definition Delete {A} (s : list A) (i j : Z) : result (list A) :=
  if (0 <=? i) && (i <=? j) && (j <=? Z.of_nat (List.length s))
  then Ok (firstn (Z.to_nat i) s ++ skipn (Z.to_nat j) s)
  else Panic SliceBoundsOutOfRange.

(** In-place update of [s[i]] (the index is in range at every use). *)
Fixpoint updateAt {A} (i : nat) (f : A -> A) (s : list A) : list A :=
  match s, i with
  | [], _ => []
  | x :: s', O => f x :: s'
  | x :: s', S i' => x :: updateAt i' f s'
  end.

(** [cmp.Compare] on integers and on strings (byte-wise lexical). *)
Definition CompareInt (a b : Z) : Z :=
  if a <? b then -1 else if b <? a then 1 else 0.

Definition CompareString (a b : string) : Z :=
  match String.compare a b with
  | Lt => -1
  | Eq => 0
  | Gt => 1
  end.

(** [slices.SortFunc].  The library sorts slices of at most twelve
    elements by insertion and longer ones by pattern-defeating quicksort,
    which is not stable; the insertion sort is taken as the model, and
    the properties below use only that the outcome is an ordered
    permutation of the input.  The sorted prefix is kept reversed: the
    new element moves left past every element it is strictly less
    than. *)
Fixpoint insertBack {A} (cmp : A -> A -> Z) (x : A) (revPrefix : list A) : list A :=
  match revPrefix with
  | [] => [x]
  | y :: rest =>
      if cmp x y <? 0 then y :: insertBack cmp x rest else x :: revPrefix
  end.

Definition SortFunc {A} (s : list A) (cmp : A -> A -> Z) : list A :=
  rev (fold_left (fun acc x => insertBack cmp x acc) s []).

(** Go maps are modelled as association lists with distinct keys, in
    insertion order; a missing key reads as the zero value. *)
Section Maps.
Variables K V : Type.
Variable eqb : K -> K -> bool.

Fixpoint mapGet (m : list (K * V)) (k : K) : option V :=
  match m with
  | [] => None
  | (k', v) :: m' => if eqb k k' then Some v else mapGet m' k
  end.

Fixpoint mapSet (m : list (K * V)) (k : K) (v : V) : list (K * V) :=
  match m with
  | [] => [(k, v)]
  | (k', v') :: m' =>
      if eqb k k' then (k', v) :: m' else (k', v') :: mapSet m' k v
  end.
End Maps.

(** [m[k]] for a map of slices: the nil slice when the key is absent. *)
Definition mapSlice {K V} (eqb : K -> K -> bool) (m : list (K * list V)) (k : K)
  : list V :=
  match mapGet eqb m k with
  | Some s => s
  | None => []
  end.

(** [m[k] = append(m[k], v)] *)
Definition mapAppend {K V} (eqb : K -> K -> bool) (m : list (K * list V))
           (k : K) (v : V) : list (K * list V) :=
  mapSet eqb m k (mapSlice eqb m k ++ [v]).

End Go.

Export Go.

Notation "x <- m ;; k" := (bind m (fun x => k))
  (at level 61, m at next level, right associativity).

(** ** deps.dev/util/resolve: the graph model (consumed read-only) *)

Module resolve.

(** [resolve.System] is a small enumeration of ecosystems. *)
Inductive System : Type := UnknownSystem | NPM | Maven.

Record PackageKey : Type := mkPackageKey {
  System_ : System;
  Name : string }.

Inductive VersionType : Type := Concrete | Requirement.

Record VersionKey : Type := mkVersionKey {
  PackageKey_ : PackageKey;
  VersionType_ : VersionType;
  Version : string }.

(** [resolve.Version]: a version key with its attributes (not used). *)
Record Version_ : Type := mkVersion { VersionKey_ : VersionKey }.

(** [resolve.NodeID]: index of a node in the graph; node 0 is the root. *)
Definition NodeID := nat.

Record Edge : Type := mkEdge {
  From : NodeID;
  To : NodeID;
  Requirement_ : string }.

Record Node : Type := mkNode { NodeVersion : VersionKey }.

Record Graph : Type := mkGraph {
  Nodes : list Node;
  Edges : list Edge }.

Definition System_eqb (a b : System) : bool :=
  match a, b with
  | UnknownSystem, UnknownSystem | NPM, NPM | Maven, Maven => true
  | _, _ => false
  end.

Definition PackageKey_eqb (a b : PackageKey) : bool :=
  System_eqb (System_ a) (System_ b) && String.eqb (Name a) (Name b).

Definition VersionType_eqb (a b : VersionType) : bool :=
  match a, b with
  | Concrete, Concrete | Requirement, Requirement => true
  | _, _ => false
  end.

Definition VersionKey_eqb (a b : VersionKey) : bool :=
  PackageKey_eqb (PackageKey_ a) (PackageKey_ b)
  && VersionType_eqb (VersionType_ a) (VersionType_ b)
  && String.eqb (Version a) (Version b).

End resolve.

Export resolve.

(** deps.dev/util/resolve/dep: the type of a requirement, a set of
    attributes; a regular dependency carries none of Dev, Opt, Test. *)
Module dep.
Record Type_ : Type := mkType { Dev : bool; Opt : bool; Test : bool }.
Definition IsRegular (t : Type_) : bool :=
  negb (Dev t) && negb (Opt t) && negb (Test t).
Definition HasOpt (t : Type_) : bool := Opt t.
End dep.

(** [resolve.RequirementVersion] *)
Record RequirementVersion : Type := mkRequirementVersion {
  ReqVersionKey : VersionKey;
  ReqType : dep.Type_ }.

(** ** internal/resolution/dependency_chain.go *)

Module resolution.

Record DependencyChain : Type := mkDependencyChain {
  ChainGraph : Graph;
  ChainEdges : list Edge (* Edge from root node is at the end of the list *) }.

(** [edge := dc.Edges[len(dc.Edges)-1]] *)
Definition lastEdge (es : list Edge) : result Edge :=
  index es (Nat.pred (List.length es)).

Definition nodeVersion (g : Graph) (n : NodeID) : result VersionKey :=
  node <- index (Nodes g) n ;; Ok (NodeVersion node).

Definition DirectDependency (dc : DependencyChain) : result (VersionKey * string) :=
  edge <- lastEdge (ChainEdges dc) ;;
  v <- nodeVersion (ChainGraph dc) (To edge) ;;
  Ok (v, Requirement_ edge).

Definition EndDependency (dc : DependencyChain) : result (VersionKey * string) :=
  edge <- index (ChainEdges dc) 0 ;;
  v <- nodeVersion (ChainGraph dc) (To edge) ;;
  Ok (v, Requirement_ edge).

(** The reverse adjacency index [parentEdges]: incoming edges of each
    node, self-dependencies left out. *)
Definition parentEdgesMap (g : Graph) : list (NodeID * list Edge) :=
  fold_left
    (fun m e => if Nat.eqb (From e) (To e) then m
                else mapAppend Nat.eqb m (To e) e)
    (Edges g) [].

Definition parentEdges (g : Graph) (n : NodeID) : list Edge :=
  mapSlice Nat.eqb (parentEdgesMap g) n.

(** Body of [for _, pEdge := range parentEdges[edge.From]]: the chains
    appended to the queue when [chain] is extended. *)
Definition extendChain (g : Graph) (chain : DependencyChain) (pes : list Edge)
  : list DependencyChain :=
  fold_left
    (fun q pEdge =>
       if negb (ContainsFunc (ChainEdges chain)
                             (fun e => Nat.eqb (To e) (To pEdge)))
       then q ++ [mkDependencyChain g (ChainEdges chain ++ [pEdge])]
       else q)
    pes [].

(** The loop [for len(toProcess) > 0]; [None] when the iteration budget
    is exhausted (see [chainFuel_enough]: it never is). *)
Fixpoint processQueue (g : Graph) (fuel : nat)
         (toProcess out : list DependencyChain)
  : option (result (list DependencyChain)) :=
  match toProcess with
  | [] => Some (Ok out)
  | chain :: rest =>
      match fuel with
      | O => None
      | S fuel' =>
          match lastEdge (ChainEdges chain) with
          | Ok edge =>
              if Nat.eqb (From edge) 0
              then processQueue g fuel' rest (out ++ [chain])
              else processQueue g fuel'
                     (rest ++ extendChain g chain (parentEdges g (From edge)))
                     out
          | Err e => Some (Err e)
          | Panic p => Some (Panic p)
          end
      end
  end.

(** An iteration budget that covers every graph: 1 + b + b^2 + ... + b^n *)
Fixpoint geomFuel (b n : nat) : nat :=
  match n with
  | O => 1
  | S n' => S (b * geomFuel b n')
  end.

Definition chainFuel (g : Graph) : nat :=
  geomFuel (List.length (Edges g)) (List.length (Edges g)).

Definition seedChains (g : Graph) (node : NodeID) : list DependencyChain :=
  map (fun pEdge => mkDependencyChain g [pEdge]) (parentEdges g node).

Definition chainsOfNode (g : Graph) (fuel : nat) (node : NodeID)
  : option (result (list DependencyChain)) :=
  processQueue g fuel (seedChains g node) [].

Fixpoint computeChainsFuel (g : Graph) (fuel : nat) (nodes : list NodeID)
  : option (result (list (list DependencyChain))) :=
  match nodes with
  | [] => Some (Ok [])
  | node :: nodes' =>
      match chainsOfNode g fuel node with
      | None => None
      | Some (Ok chains) =>
          match computeChainsFuel g fuel nodes' with
          | Some (Ok all) => Some (Ok (chains :: all))
          | other => other
          end
      | Some (Err e) => Some (Err e)
      | Some (Panic p) => Some (Panic p)
      end
  end.

(** ComputeChains computes all paths from each specified NodeID to the
    root node. *)
Definition ComputeChains (g : Graph) (nodes : list NodeID)
  : result (list (list DependencyChain)) :=
  match computeChainsFuel g (chainFuel g) nodes with
  | Some r => r
  | None => Ok []
  end.

End resolution.

Export resolution.


(** [foldM]: a [for ... range] loop whose body may return early with an
    error or panic. *)
Fixpoint foldM {A B} (body : B -> A -> result B) (s : list A) (acc : B) : result B :=
  match s with
  | [] => Ok acc
  | x :: s' => acc' <- body acc x ;; foldM body s' acc'
  end.

(** ** Collaborators *)

(** deps.dev/util/semver, through the operations the program calls.  The
    system of a version key ([vk.Semver()]) is identified with its
    [resolve.System]. *)
Module semver.

Inductive Diff : Type :=
| Same | DiffOther | DiffMajor | DiffMinor | DiffPatch | DiffPrerelease | DiffBuild.

Definition Diff_eqb (a b : Diff) : bool :=
  match a, b with
  | Same, Same | DiffOther, DiffOther | DiffMajor, DiffMajor
  | DiffMinor, DiffMinor | DiffPatch, DiffPatch
  | DiffPrerelease, DiffPrerelease | DiffBuild, DiffBuild => true
  | _, _ => false
  end.

Record Lib : Type := mkLib {
  Constraint : Type;
  Set_ : Type;
  (** the zero value [semver.Set{}] read from a map without the key *)
  zeroSet : Set_;
  Compare : System -> string -> string -> Z;
  Difference : System -> string -> string -> extError + Diff;
  ParseConstraint : System -> string -> extError + Constraint;
  ConstraintSet : Constraint -> Set_;
  Intersect : Set_ -> Set_ -> extError + Set_;
  SetMatch : Set_ -> string -> extError + bool;
  ConstraintMatch : Constraint -> string -> bool }.

End semver.

Module models.
(** [models.Vulnerability]: the OSV record; only its identifier is read
    here, the rest is consulted through [vulns.IsAffected]. *)
Record Vulnerability : Type := mkVulnerability {
  ID : string;
  Summary : string }.
End models.

(** [resolution.ResolutionVuln] *)
Record ResolutionVuln : Type := mkResolutionVuln {
  Vulnerability : models.Vulnerability;
  ProblemChains : list DependencyChain;
  DevOnly : bool }.

(** [client.ResolutionClient]: version listing, requirements fetch and
    vulnerability matching. *)
Record ResolutionClient : Type := mkResolutionClient {
  Versions : PackageKey -> extError + list Version_;
  Requirements : VersionKey -> extError + list RequirementVersion;
  FindVulns : Graph -> extError + list (list models.Vulnerability) }.

(** ** Package remediation *)

Module remediation.

(** [lockfile.DependencyPatch] *)
Record DependencyPatch_ : Type := mkDependencyPatch {
  Pkg : PackageKey;
  OrigVersion : string;
  NewVersion : string }.

Definition DependencyPatch_eqb (a b : DependencyPatch_) : bool :=
  PackageKey_eqb (Pkg a) (Pkg b)
  && String.eqb (OrigVersion a) (OrigVersion b)
  && String.eqb (NewVersion a) (NewVersion b).

Record InPlacePatch : Type := mkInPlacePatch {
  DependencyPatch : DependencyPatch_;
  ResolvedVulns : list ResolutionVuln }.

Record InPlaceResult : Type := mkInPlaceResult {
  Patches : list InPlacePatch;
  Unfixable : list ResolutionVuln }.

(** Modelled from the spec: the declaration of [RemediationOptions] is not
    among the sources; the fields are those the spec lists (AllowMajor,
    AvoidPkgs, a vulnerability filter predicate) with the types their uses
    in [ComputeInPlacePatches] require. *)
Record RemediationOptions : Type := mkRemediationOptions {
  AllowMajor : bool;
  AvoidPkgs : list string;
  MatchVuln : ResolutionVuln -> bool }.

Record inPlaceVulnsNodesResult : Type := mkInPlaceVulnsNodesResult {
  nodeDependencies : list (NodeID * list VersionKey);
  vkVulns : list (VersionKey * list ResolutionVuln);
  vkNodes : list (VersionKey * list NodeID) }.

Definition vkName (vk : VersionKey) : string := Name (PackageKey_ vk).
Definition vkSystem (vk : VersionKey) : System := System_ (PackageKey_ vk).

(** ['latest' is effectively meaningless in a lockfile] *)
Definition latestAsWildcard (v : string) : string :=
  if String.eqb v "latest" then "*" else v.

(** [for i, x := range s]: the elements with their indices. *)
Definition enumerate {A} (s : list A) : list (nat * A) :=
  combine (seq 0 (List.length s)) s.

Section WithCollaborators.

Variable sv : semver.Lib.
Variable cl : ResolutionClient.
(** [vulns.IsAffected(vuln, util.VKToPackageDetails(vk))] *)
Variable IsAffected : models.Vulnerability -> VersionKey -> bool.
(** The order in which [range] visits a map, and [maps.Keys] lists its
    keys, is not specified by the language: it is a parameter. *)
Variable rangeOrder : forall A : Type, list A -> list A.

Fixpoint scanVersions (satifyFn : VersionKey -> result bool)
         (descending : list Version_) : result VersionKey :=
  match descending with
  | [] => Err errInPlaceImpossible
  | v :: rest =>
      let vk := VersionKey_ v in
      if VersionType_eqb (VersionType_ vk) Concrete
      then ok <- satifyFn vk ;;
           if ok then Ok vk else scanVersions satifyFn rest
      else scanVersions satifyFn rest
  end.

Definition compareVersions (a b : Version_) : Z :=
  semver.Compare sv (vkSystem (VersionKey_ a))
                 (Version (VersionKey_ a)) (Version (VersionKey_ b)).

Definition findFixedVersion (pk : PackageKey)
           (satifyFn : VersionKey -> result bool) : result VersionKey :=
  vers <- call (Versions cl pk) ;;
  let vers := SortFunc vers compareVersions in
  scanVersions satifyFn (rev vers).

(** Merging one vulnerability occurrence into [vkVulns[vk]]. *)
Definition mergeVuln (vk : VersionKey) (chains : list DependencyChain)
           (m : list (VersionKey * list ResolutionVuln))
           (vuln : models.Vulnerability)
  : list (VersionKey * list ResolutionVuln) :=
  let resVuln := mkResolutionVuln vuln chains false in
  let cur := mapSlice VersionKey_eqb m vk in
  let idx := IndexFunc cur
               (fun rv => String.eqb (models.ID (Vulnerability rv))
                                     (models.ID (Vulnerability resVuln))) in
  if 0 <=? idx
  then mapSet VersionKey_eqb m vk
         (updateAt (Z.to_nat idx)
            (fun rv => mkResolutionVuln (Vulnerability rv)
                         (ProblemChains rv ++ ProblemChains resVuln)
                         (DevOnly rv && DevOnly resVuln))
            cur)
  else mapAppend VersionKey_eqb m vk resVuln.

Definition vulnerableNodeIDs (nodeVulns : list (list models.Vulnerability))
  : list NodeID :=
  map fst (filter (fun p => (0 <? List.length (snd p))%nat) (enumerate nodeVulns)).

Definition inPlaceVulnsNodes (graph : Graph) : result inPlaceVulnsNodesResult :=
  nodeVulns <- call (FindVulns cl graph) ;;
  (* Find all direct dependencies of vulnerable nodes. *)
  deps <- foldM (fun m e =>
                   vs <- index nodeVulns (From e) ;;
                   if (0 <? List.length vs)%nat
                   then v <- nodeVersion graph (To e) ;;
                        Ok (mapAppend Nat.eqb m (From e) v)
                   else Ok m)
                (Edges graph) [] ;;
  let nodeIDs := vulnerableNodeIDs nodeVulns in
  nodeChains <- ComputeChains graph nodeIDs ;;
  vv <- foldM (fun (acc : list (VersionKey * list ResolutionVuln)
                          * list (VersionKey * list NodeID)) inID =>
                 let '(vkv, vkn) := acc in
                 let '(i, nID) := inID in
                 chains <- index nodeChains i ;;
                 vk <- nodeVersion graph nID ;;
                 vulns <- index nodeVulns nID ;;
                 Ok (fold_left (mergeVuln vk chains) vulns vkv,
                     mapAppend VersionKey_eqb vkn vk nID))
              (enumerate nodeIDs) ([], []) ;;
  Ok (mkInPlaceVulnsNodesResult deps (fst vv) (snd vv)).

Definition buildConstraintSet (sys : System) (requiredVers : list string)
  : result (semver.Set_ sv) :=
  v <- index requiredVers 0 ;;
  c <- call (semver.ParseConstraint sv sys (latestAsWildcard v)) ;;
  foldM (fun cSet req =>
           c <- call (semver.ParseConstraint sv sys (latestAsWildcard req)) ;;
           call (semver.Intersect sv cSet (semver.ConstraintSet sv c)))
        (skipn 1 requiredVers) (semver.ConstraintSet sv c).

(** Partition of the requirements into regular and optional ones. *)
Definition splitRequirements (reqs : list RequirementVersion)
  : list VersionKey * list VersionKey :=
  fold_left
    (fun (acc : list VersionKey * list VersionKey) v =>
       if dep.IsRegular (ReqType v) then (fst acc ++ [ReqVersionKey v], snd acc)
       else if dep.HasOpt (ReqType v) then (fst acc, snd acc ++ [ReqVersionKey v])
       else acc)
    reqs ([], []).

(** Removal of the optional dependencies that are not installed. *)
Definition dropMissingOptional (children : list VersionKey)
           (deps : list VersionKey) (optVk : VersionKey) : result (list VersionKey) :=
  if negb (ContainsFunc children (fun vk => String.eqb (vkName vk) (vkName optVk)))
  then let idx := IndexFunc deps (fun vk => String.eqb (vkName vk) (vkName optVk)) in
       Delete deps idx (idx + 1)
  else Ok deps.

Fixpoint checkDeps (sys : System) (children deps : list VersionKey) : result bool :=
  match deps with
  | [] => Ok true
  | depVK :: deps' =>
      constr <- call (semver.ParseConstraint sv sys (latestAsWildcard (Version depVK))) ;;
      if existsb (fun child => String.eqb (vkName child) (vkName depVK)
                               && semver.ConstraintMatch sv constr (Version child))
                 children
      then checkDeps sys children deps'
      else Ok false
  end.

Definition dependenciesSatisfied (vk : VersionKey) (children : list VersionKey)
  : result bool :=
  reqs <- call (Requirements cl vk) ;;
  let '(deps, optDeps) := splitRequirements reqs in
  deps <- foldM (dropMissingOptional children) optDeps deps ;;
  checkDeps (vkSystem vk) children deps.

(** The set [reqVers] of requirement strings, as the list of its distinct
    elements. *)
Definition setAdd (s : list string) (v : string) : list string :=
  if existsb (String.eqb v) s then s else s ++ [v].

(** The end-dependency requirements of every problem chain of [vulns]. *)
Definition collectRequirements (vulns : list ResolutionVuln) : result (list string) :=
  foldM (fun reqVers vuln =>
           foldM (fun reqVers c =>
                    vr <- EndDependency c ;;
                    Ok (setAdd reqVers (snd vr)))
                 (ProblemChains vuln) reqVers)
        vulns [].

(** Compute the overall constraints imposed by the dependent packages on
    the vulnerable nodes. *)
Definition dependentConstraints (res : inPlaceVulnsNodesResult)
  : result (list (VersionKey * semver.Set_ sv)) :=
  foldM (fun m (kv : VersionKey * list ResolutionVuln) =>
           let '(vk, vulns) := kv in
           reqVers <- collectRequirements vulns ;;
           match buildConstraintSet (vkSystem vk) (rangeOrder reqVers) with
           | Ok set => Ok (mapSet VersionKey_eqb m vk set)
           | Err _ => Ok m (* TODO: log error? *)
           | Panic p => Panic p
           end)
        (rangeOrder (vkVulns res)) [].

(** Check if new version's dependencies are satisfied by existing
    packages, for every node of the version key. *)
Fixpoint nodesSatisfied (res : inPlaceVulnsNodesResult) (newVK : VersionKey)
         (nIDs : list NodeID) : result bool :=
  match nIDs with
  | [] => Ok true
  | nID :: rest =>
      match dependenciesSatisfied newVK
              (mapSlice Nat.eqb (nodeDependencies res) nID) with
      | Ok true => nodesSatisfied res newVK rest
      | Ok false => Ok false
      | Err _ => Ok false
      | Panic p => Panic p
      end
  end.

(** The predicate handed to [findFixedVersion]. *)
Definition satisfies (opts : RemediationOptions) (res : inPlaceVulnsNodesResult)
           (vkDependentConstraint : list (VersionKey * semver.Set_ sv))
           (vk : VersionKey) (vuln : ResolutionVuln) (newVK : VersionKey)
  : result bool :=
  if negb (AllowMajor opts)
     && match semver.Difference sv (vkSystem vk) (Version vk) (Version newVK) with
        | inl _ => true
        | inr diff => semver.Diff_eqb diff semver.DiffMajor
        end
  then Ok false
  else
    let set := match mapGet VersionKey_eqb vkDependentConstraint vk with
               | Some s => s
               | None => semver.zeroSet sv
               end in
    match semver.SetMatch sv set (Version newVK) with
    | inl _ => Ok false
    | inr false => Ok false
    | inr true =>
        ok <- nodesSatisfied res newVK (mapSlice VersionKey_eqb (vkNodes res) vk) ;;
        if ok then Ok (negb (IsAffected (Vulnerability vuln) newVK))
        else Ok false
    end.

Definition addUnfixable (acc : InPlaceResult) (vuln : ResolutionVuln) : InPlaceResult :=
  mkInPlaceResult (Patches acc) (Unfixable acc ++ [vuln]).

(** Find-or-create of the patch of a version transition. *)
Definition recordPatch (acc : InPlaceResult) (dp : DependencyPatch_)
           (vuln : ResolutionVuln) : InPlaceResult :=
  let idx := IndexFunc (Patches acc)
               (fun ipp => DependencyPatch_eqb (DependencyPatch ipp) dp) in
  if 0 <=? idx
  then mkInPlaceResult
         (updateAt (Z.to_nat idx)
            (fun ipp => mkInPlacePatch (DependencyPatch ipp)
                                       (ResolvedVulns ipp ++ [vuln]))
            (Patches acc))
         (Unfixable acc)
  else mkInPlaceResult
         (Patches acc ++ [mkInPlacePatch dp [vuln]])
         (Unfixable acc).

(** Body of the inner loop [for _, vuln := range vulnList]. *)
Definition processVuln (opts : RemediationOptions) (res : inPlaceVulnsNodesResult)
           (vkDependentConstraint : list (VersionKey * semver.Set_ sv))
           (vk : VersionKey) (acc : InPlaceResult) (vuln : ResolutionVuln)
  : result InPlaceResult :=
  if negb (MatchVuln opts vuln) then Ok acc
  else if Contains (AvoidPkgs opts) (vkName vk) then Ok (addUnfixable acc vuln)
  else
    match findFixedVersion (PackageKey_ vk)
            (satisfies opts res vkDependentConstraint vk vuln) with
    | Err errInPlaceImpossible => Ok (addUnfixable acc vuln)
    | Err e => Err e
    | Panic p => Panic p
    | Ok newVK =>
        Ok (recordPatch acc
              (mkDependencyPatch (PackageKey_ vk) (Version vk) (Version newVK))
              vuln)
    end.

Definition lenVulns (p : InPlacePatch) : Z := Z.of_nat (List.length (ResolvedVulns p)).

(** Sort patches for priority/consistency *)
Definition comparePatches (a b : InPlacePatch) : Z :=
  let c := CompareInt (lenVulns a) (lenVulns b) in
  if negb (c =? 0) then - c
  else
    let c := CompareString (Name (Pkg (DependencyPatch a)))
                           (Name (Pkg (DependencyPatch b))) in
    if negb (c =? 0) then c
    else
      let c := CompareString (OrigVersion (DependencyPatch a))
                             (OrigVersion (DependencyPatch b)) in
      if negb (c =? 0) then c
      else - CompareString (NewVersion (DependencyPatch a))
                           (NewVersion (DependencyPatch b)).

(** The main loop over [res.vkVulns]. *)
Definition searchPatches (opts : RemediationOptions) (res : inPlaceVulnsNodesResult)
           (vkDependentConstraint : list (VersionKey * semver.Set_ sv))
  : result InPlaceResult :=
  foldM (fun acc (kv : VersionKey * list ResolutionVuln) =>
           foldM (processVuln opts res vkDependentConstraint (fst kv)) (snd kv) acc)
        (rangeOrder (vkVulns res)) (mkInPlaceResult [] []).

(** ComputeInPlacePatches finds all possible targeting version changes
    that would fix vulnerabilities in a resolved graph. *)
Definition ComputeInPlacePatches (graph : Graph) (opts : RemediationOptions)
  : result InPlaceResult :=
  res <- inPlaceVulnsNodes graph ;;
  vkDependentConstraint <- dependentConstraints res ;;
  found <- searchPatches opts res vkDependentConstraint ;;
  Ok (mkInPlaceResult (SortFunc (Patches found) comparePatches) (Unfixable found)).

End WithCollaborators.

(** What the caller receives as first component: every error return of
    [ComputeInPlacePatches] is [return InPlaceResult{}, err]; nothing is
    received when the call panics. *)
Definition returned (r : result InPlaceResult) : option InPlaceResult :=
  match r with
  | Ok v => Some v
  | Err _ => Some (mkInPlaceResult [] [])
  | Panic _ => None
  end.

End remediation.

Export remediation.

(** ** internal/resolution/dependency_chain.go: classification of chains *)

Module chains.

(** [models.Ecosystem], an OSV ecosystem name. *)
Definition Ecosystem := string.

(** Modelled from the spec: [manifest.Manifest] is declared outside the
    sources; only its [Groups] field is read, the declared groups of each
    direct dependency (a map from package key to group names). *)
Record Manifest : Type := mkManifest {
  Groups : list (PackageKey * list string) }.

Section WithResolveClient.

(** [resolve.Client.MatchingVersions] *)
Variable MatchingVersions : VersionKey -> extError + list Version_.
(** [vulns.IsAffected(vuln, util.VKToPackageDetails(vk))] *)
Variable IsAffected : models.Vulnerability -> VersionKey -> bool.
(** The table [util.OSVEcosystem], read as [ecosystem, ok := table[system]] *)
Variable OSVEcosystem : System -> option Ecosystem.
(** [lockfile.Ecosystem(e).IsDevGroup(groups)] *)
Variable IsDevGroup : Ecosystem -> list string -> bool.

Definition ChainIsDev (dc : DependencyChain) (m : Manifest) : result bool :=
  dr <- DirectDependency dc ;;
  let direct := fst dr in
  match OSVEcosystem (System_ (PackageKey_ direct)) with
  | None => Ok false
  | Some ecosystem =>
      Ok (IsDevGroup ecosystem
                     (mapSlice PackageKey_eqb (Groups m) (PackageKey_ direct)))
  end.

(** chainConstrains check if a DependencyChain is 'Problematic'
    i.e. if it is forcing the vulnerable package to chosen in resolution. *)
Definition chainConstrains (chain : DependencyChain) (vuln : models.Vulnerability)
  : result bool :=
  if Nat.eqb (List.length (ChainEdges chain)) 0 then Ok false
  else
    vr <- EndDependency chain ;;
    let vk := mkVersionKey (PackageKey_ (fst vr)) Requirement (snd vr) in
    match MatchingVersions vk with
    | inl _ => Ok true (* TODO: handle error *)
    | inr vers =>
        (* This should be the highest version for npm *)
        bestVk <- index vers (Nat.pred (List.length vers)) ;;
        Ok (IsAffected vuln (VersionKey_ bestVk))
    end.

End WithResolveClient.

End chains.

Export chains.

(** ** Concrete collaborators and graphs used to run the model *)

Module Fixtures.

Definition digit (c : ascii) : option Z :=
  let n := Z.of_nat (nat_of_ascii c) in
  if (48 <=? n) && (n <=? 57) then Some (n - 48) else None.

Fixpoint splitOn (sep : ascii) (s cur : string) : list string :=
  match s with
  | EmptyString => [cur]
  | String c s' =>
      if Ascii.eqb c sep then cur :: splitOn sep s' EmptyString
      else splitOn sep s' (cur ++ String c EmptyString)%string
  end.

Fixpoint parseDecFrom (acc : Z) (s : string) : option Z :=
  match s with
  | EmptyString => Some acc
  | String c s' =>
      match digit c with
      | Some d => parseDecFrom (acc * 10 + d) s'
      | None => None
      end
  end.

Definition parseDec (s : string) : option Z :=
  match s with
  | EmptyString => None
  | _ => parseDecFrom 0 s
  end.

(** A version is [major.minor.patch]. *)
Definition parseVersion (s : string) : option (Z * Z * Z) :=
  match map parseDec (splitOn "."%char s EmptyString) with
  | [Some a; Some b; Some c] => Some (a, b, c)
  | _ => None
  end.

Definition versionRank (s : string) : Z :=
  match parseVersion s with
  | Some (a, b, c) => (a * 1000 + b) * 1000 + c
  | None => -1
  end.

Inductive toyConstraint : Type :=
| Any
| Exact (v : Z)
| Caret (major : Z) (atLeast : Z).

Definition toyParseConstraint (_ : System) (s : string) : extError + toyConstraint :=
  match s with
  | "*" => inr Any
  | String "^" v =>
      match parseVersion v with
      | Some (a, _, _) => inr (Caret a (versionRank v))
      | None => inl "invalid constraint"
      end
  | _ =>
      match parseVersion s with
      | Some _ => inr (Exact (versionRank s))
      | None => inl "invalid constraint"
      end
  end.

Definition toyMatch (c : toyConstraint) (v : string) : bool :=
  match parseVersion v, c with
  | None, _ => false
  | Some _, Any => true
  | Some _, Exact r => versionRank v =? r
  | Some (a, _, _), Caret major atLeast => (a =? major) && (atLeast <=? versionRank v)
  end.

Definition toyDifference (_ : System) (a b : string) : extError + semver.Diff :=
  match parseVersion a, parseVersion b with
  | Some (a1, a2, a3), Some (b1, b2, b3) =>
      inr (if negb (a1 =? b1) then semver.DiffMajor
           else if negb (a2 =? b2) then semver.DiffMinor
           else if negb (a3 =? b3) then semver.DiffPatch
           else semver.Same)
  | _, _ => inl "invalid version"
  end.

(** A toy semver library: a set is the list of the constraints it
    intersects. *)
Definition toySemver : semver.Lib :=
  semver.mkLib
    (@nil toyConstraint)
    (fun _ a b => CompareInt (versionRank a) (versionRank b))
    toyDifference
    toyParseConstraint
    (fun c => [c])
    (fun s t => inr (s ++ t))
    (fun s v => match parseVersion v with
                | Some _ => inr (forallb (fun c => toyMatch c v) s)
                | None => inl "invalid version"
                end)
    toyMatch.

Definition declarationOrder : forall A : Type, list A -> list A := fun _ l => l.

Definition pkg (name : string) : PackageKey := mkPackageKey NPM name.
Definition concrete (name ver : string) : VersionKey :=
  mkVersionKey (pkg name) Concrete ver.
Definition required (name ver : string) : VersionKey :=
  mkVersionKey (pkg name) Requirement ver.
Definition released (name ver : string) : Version_ := mkVersion (concrete name ver).
Definition regular : dep.Type_ := dep.mkType false false false.
Definition optional : dep.Type_ := dep.mkType false true false.

Definition allVulns (_ : ResolutionVuln) : bool := true.

Definition edge (from to : nat) (req : string) : Edge := mkEdge from to req.

Definition vulnB : models.Vulnerability :=
  models.mkVulnerability "OSV-B-1" "B before 1.1.0".
Definition vulnD1 : models.Vulnerability :=
  models.mkVulnerability "OSV-D-1" "D before 3.0.0".
Definition vulnD2 : models.Vulnerability :=
  models.mkVulnerability "OSV-D-2" "D before 3.0.0, another flaw".
Definition vulnRoot : models.Vulnerability :=
  models.mkVulnerability "OSV-R-1" "the project itself".

(** The vulnerability database: B is affected at 1.0.0, D below 3.0.0,
    the root project at every version. *)
Definition affected (v : models.Vulnerability) (vk : VersionKey) : bool :=
  if String.eqb (models.ID v) "OSV-B-1"
  then String.eqb (vkName vk) "B" && String.eqb (Version vk) "1.0.0"
  else if String.eqb (models.ID v) "OSV-R-1"
  then String.eqb (vkName vk) "root"
  else String.eqb (vkName vk) "D" && (versionRank (Version vk) <? 3000000).

Definition registry (pk : PackageKey) : extError + list Version_ :=
  if String.eqb (Name pk) "B"
  then inr [released "B" "2.0.0"; released "B" "1.0.0"; released "B" "1.1.0"]
  else if String.eqb (Name pk) "D"
  then inr [released "D" "1.0.0"; released "D" "3.0.0"; released "D" "2.0.0"]
  else if String.eqb (Name pk) "E"
  then inr [released "E" "9.0.0"; mkVersion (required "E" "11.0.0");
            released "E" "10.0.0"; released "E" "2.0.0"]
  else inr [].

(** Scenario A of the spec: root -> A@1.0.0 -> B@1.0.0, B@1.0.0 vulnerable,
    B released as 1.0.0, 1.1.0 and 2.0.0, A requires B ^1.0.0. *)
Definition graphA : Graph :=
  mkGraph [mkNode (concrete "root" "1.0.0"); mkNode (concrete "A" "1.0.0");
           mkNode (concrete "B" "1.0.0")]
          [edge 0 1 "1.0.0"; edge 1 2 "^1.0.0"].

Definition vulnsA (_ : Graph) : extError + list (list models.Vulnerability) :=
  inr [[]; []; [vulnB]].

Definition clientA : ResolutionClient :=
  mkResolutionClient registry (fun _ => inr []) vulnsA.

(** The chain of B in that graph. *)
Definition chainA : DependencyChain :=
  mkDependencyChain graphA [edge 1 2 "^1.0.0"; edge 0 1 "1.0.0"].


(** The same client when the version listing fails. *)
Definition clientVersionsDown : ResolutionClient :=
  mkResolutionClient (fun _ => inl "versions: connection refused") (fun _ => inr [])
                     vulnsA.

(** A registry in which every release of B declares an optional
    dependency on X, listed once, as optional. *)
Definition clientOptionalOnly : ResolutionClient :=
  mkResolutionClient registry
    (fun _ => inr [mkRequirementVersion (required "X" "^1.0.0") optional])
    vulnsA.

Definition optsMinor : RemediationOptions := mkRemediationOptions false [] allVulns.
Definition optsMajor : RemediationOptions := mkRemediationOptions true [] allVulns.
Definition optsAvoidB : RemediationOptions := mkRemediationOptions false ["B"] allVulns.
Definition optsAvoidBFiltered : RemediationOptions :=
  mkRemediationOptions false ["B"] (fun _ => false).

(** Scenario D of the spec, next to a second vulnerable package: two
    vulnerabilities of D@1.0.0 fixed only by 3.0.0, one of B@1.0.0. *)
Definition graphD : Graph :=
  mkGraph [mkNode (concrete "root" "1.0.0"); mkNode (concrete "D" "1.0.0");
           mkNode (concrete "B" "1.0.0")]
          [edge 0 1 "*"; edge 0 2 "^1.0.0"].

Definition clientD : ResolutionClient :=
  mkResolutionClient registry (fun _ => inr [])
                     (fun _ => inr [[]; [vulnD1; vulnD2]; [vulnB]]).

(** A project and a dependency that depend on each other. *)
Definition graphCycle : Graph :=
  mkGraph [mkNode (concrete "root" "1.0.0"); mkNode (concrete "A" "1.0.0")]
          [edge 0 1 "^1.0.0"; edge 1 0 "*"].

(** A graph of the project alone, itself reported vulnerable. *)
Definition graphRootOnly : Graph :=
  mkGraph [mkNode (concrete "root" "1.0.0")] [].

Definition clientRootVulnerable : ResolutionClient :=
  mkResolutionClient registry (fun _ => inr []) (fun _ => inr [[vulnRoot]]).

(** The registry of [clientA] listing the releases in another order. *)
Definition registryShuffled (pk : PackageKey) : extError + list Version_ :=
  match registry pk with
  | inl msg => inl msg
  | inr vers => inr (rev vers)
  end.

Definition clientShuffled : ResolutionClient :=
  mkResolutionClient registryShuffled (fun _ => inr []) vulnsA.

(** A predicate that must not be asked about a requirement. *)
Definition concreteOrPanic (vk : VersionKey) : result bool :=
  if VersionType_eqb (VersionType_ vk) Concrete then Ok true
  else Panic IndexOutOfRange.

(** A response to a requirements fetch: C at the tag latest, X both as
    a regular and as an optional dependency, T for development only. *)
Definition development : dep.Type_ := dep.mkType true false false.

Definition requirementsOfB : list RequirementVersion :=
  [mkRequirementVersion (required "C" "latest") regular;
   mkRequirementVersion (required "X" "^1.0.0") regular;
   mkRequirementVersion (required "X" "^1.0.0") optional;
   mkRequirementVersion (required "T" "^1.0.0") development].

(** The client of scenario A answering every requirements fetch with the
    given response. *)
Definition clientRequiring (reqs : list RequirementVersion) : ResolutionClient :=
  mkResolutionClient registry (fun _ => inr reqs) vulnsA.

(** The client of scenario A when A is reported vulnerable as well. *)
Definition clientMiddle : ResolutionClient :=
  mkResolutionClient registry (fun _ => inr []) (fun _ => inr [[]; [vulnD1]; [vulnB]]).

(** The client of scenario A when no node is vulnerable. *)
Definition clientClean : ResolutionClient :=
  mkResolutionClient registry (fun _ => inr []) (fun _ => inr [[]; []; []]).

(** The aggregate, the constraint sets and the results of these runs. *)
Definition rvB : ResolutionVuln := mkResolutionVuln vulnB [chainA] false.

Definition resA : inPlaceVulnsNodesResult :=
  mkInPlaceVulnsNodesResult [] [(concrete "B" "1.0.0", [rvB])]
                            [(concrete "B" "1.0.0", [2%nat])].

Definition consA : list (VersionKey * list toyConstraint) :=
  [(concrete "B" "1.0.0", [Caret 1 1000000])].

Definition resultAvoidB : InPlaceResult := mkInPlaceResult [] [rvB].

Definition resultD : InPlaceResult :=
  Eval vm_compute in
    match ComputeInPlacePatches toySemver clientD affected declarationOrder
                                graphD optsMajor with
    | Ok r => r
    | _ => mkInPlaceResult [] []
    end.

(** The aggregate and the constraint sets of scenario D. *)
Definition resD : inPlaceVulnsNodesResult :=
  Eval vm_compute in
    match inPlaceVulnsNodes clientD graphD with
    | Ok res => res
    | _ => mkInPlaceVulnsNodesResult [] [] []
    end.

Definition consD : list (VersionKey * list toyConstraint) :=
  Eval vm_compute in
    match dependentConstraints toySemver declarationOrder resD with
    | Ok built => built
    | _ => []
    end.

Definition resultA : InPlaceResult :=
  mkInPlaceResult
    [mkInPlacePatch (mkDependencyPatch (pkg "B") "1.0.0" "1.1.0") [rvB]] [].

End Fixtures.

(** ** Specification vocabulary *)

(** A comparison function orders the elements when it is consistent under
    exchange of its arguments and transitive. *)
Definition cmpConsistent {A : Type} (cmp : A -> A -> Z) : Prop :=
  forall a b, 0 <= cmp a b -> cmp b a <= 0.

Definition cmpTransitive {A : Type} (cmp : A -> A -> Z) : Prop :=
  forall a b c, cmp a b <= 0 -> cmp b c <= 0 -> cmp a c <= 0.

Definition cmpAntisymmetric {A : Type} (cmp : A -> A -> Z) : Prop :=
  forall a b, cmp a b = - cmp b a.

(** Lexicographic combination: the first comparison decides unless it
    finds its arguments equivalent. *)
Definition lexCompare {A : Type} (c1 c2 : A -> A -> Z) (a b : A) : Z :=
  if negb (c1 a b =? 0) then c1 a b else c2 a b.

(** [descending cmp l]: every element is not below the ones after it. *)
Definition descending {A : Type} (cmp : A -> A -> Z) : list A -> Prop :=
  StronglySorted (fun a b => cmp b a <= 0).

(** [adjacent l a b]: [a] is immediately followed by [b] in [l]. *)
Definition adjacent {A : Type} (l : list A) (a b : A) : Prop :=
  exists l1 l2, l = l1 ++ a :: b :: l2.

(** The incoming edges of a node that are not self-dependencies. *)
Definition incoming (n : NodeID) (e : Edge) : bool :=
  negb (Nat.eqb (From e) (To e)) && Nat.eqb (To e) n.

(** The nodes a chain visits, from the vulnerable node upwards: the target
    of its first edge, then the source of every edge in turn. *)
Definition visitedNodes (es : list Edge) : list NodeID :=
  match es with
  | [] => []
  | e :: _ => To e :: map From es
  end.

(** [linked t es]: the edges lead from node [t] upwards, each edge ending
    where the previous one starts. *)
Fixpoint linked (t : NodeID) (es : list Edge) : Prop :=
  match es with
  | [] => True
  | e :: es' => To e = t /\ linked (From e) es'
  end.

(** The edge sequences the traversal of [ComputeChains] builds for the
    node [t]: a single incoming edge, or a built sequence whose last edge
    does not start at the root and whose source has not been met,
    followed by an incoming edge of that source. *)
Inductive chainTo (g : Graph) (t : NodeID) : list Edge -> Prop :=
| chainTo_seed (e : Edge) :
    In e (parentEdges g t) -> chainTo g t [e]
| chainTo_step (es : list Edge) (edge pEdge : Edge) :
    chainTo g t es ->
    lastEdge es = Ok edge ->
    From edge <> 0%nat ->
    ~ In (From edge) (map To es) ->
    In pEdge (parentEdges g (From edge)) ->
    chainTo g t (es ++ [pEdge]).

Definition queued (g : Graph) (t : NodeID) (c : DependencyChain) : Prop :=
  ChainGraph c = g /\ chainTo g t (ChainEdges c).

(** A chain of the output: a built sequence whose last edge starts at the
    root. *)
Definition emitted (g : Graph) (t : NodeID) (c : DependencyChain) : Prop :=
  queued g t c /\ exists edge, lastEdge (ChainEdges c) = Ok edge /\ From edge = 0%nat.

(** Iterations a queued chain can still cause. *)
Definition chainWeight (g : Graph) (c : DependencyChain) : nat :=
  geomFuel (List.length (Edges g))
           (List.length (Edges g) - List.length (ChainEdges c)).

Definition queueWeight (g : Graph) (q : list DependencyChain) : nat :=
  list_sum (map (chainWeight g) q).

(** What a chain of the output of [ComputeChains] for the node [t]
    satisfies whatever [t] is: it leads from [t] to the root along edges
    of the graph, none a self-dependency, and no two of its edges end at
    the same node. *)
Definition wellFormedChain (g : Graph) (t : NodeID) (c : DependencyChain) : Prop :=
  ChainGraph c = g
  /\ Forall (fun e => In e (Edges g) /\ From e <> To e) (ChainEdges c)
  /\ linked t (ChainEdges c)
  /\ (exists edge, lastEdge (ChainEdges c) = Ok edge /\ From edge = 0%nat)
  /\ NoDup (map To (ChainEdges c)).

(** The views of a chain as the data model words them: the edge nearest
    the vulnerable node for [DirectDependency], the edge adjacent to the
    root for [EndDependency]. *)
Definition DirectDependency_spec (dc : DependencyChain) : result (VersionKey * string) :=
  edge <- index (ChainEdges dc) 0 ;;
  v <- nodeVersion (ChainGraph dc) (To edge) ;;
  Ok (v, Requirement_ edge).

Definition EndDependency_spec (dc : DependencyChain) : result (VersionKey * string) :=
  edge <- lastEdge (ChainEdges dc) ;;
  v <- nodeVersion (ChainGraph dc) (To edge) ;;
  Ok (v, Requirement_ edge).

(** The view of a chain through a given edge. *)
Definition viewOf (dc : DependencyChain) (edge : Edge) : result (VersionKey * string) :=
  v <- nodeVersion (ChainGraph dc) (To edge) ;;
  Ok (v, Requirement_ edge).

Definition isConcrete (v : Version_) : bool :=
  VersionType_eqb (VersionType_ (VersionKey_ v)) Concrete.

(** No record of the aggregate is flagged dev-only. *)
Definition allNotDevOnly (m : list (VersionKey * list ResolutionVuln)) : Prop :=
  forall vk vulns rv, In (vk, vulns) m -> In rv vulns -> DevOnly rv = false.

(** A vulnerability of the aggregate for which the candidate search is
    run: it passes the filter of the options and its package is not in
    the avoid-list. *)
Definition searched (opts : RemediationOptions) (res : inPlaceVulnsNodesResult)
           (vk : VersionKey) (rv : ResolutionVuln) : Prop :=
  exists vulns, In (vk, vulns) (vkVulns res) /\ In rv vulns
                /\ MatchVuln opts rv = true
                /\ Contains (AvoidPkgs opts) (vkName vk) = false.

(** The result holds a patch of the given transition that resolves [rv]. *)
Definition patchedBy (r : InPlaceResult) (dp : DependencyPatch_)
           (rv : ResolutionVuln) : Prop :=
  exists p, In p (Patches r) /\ DependencyPatch p = dp /\ In rv (ResolvedVulns p).

(** Lexical (byte-wise) order on strings. *)
Definition lexLt (a b : string) : Prop := String.compare a b = Lt.
Definition lexLe (a b : string) : Prop := String.compare a b <> Gt.

(** The ranking of the patch list, as worded: more resolved
    vulnerabilities first, ties broken ascending by package name, then
    ascending by original version, then descending by new version. *)
Definition rankedBefore (a b : InPlacePatch) : Prop :=
  let na := List.length (ResolvedVulns a) in
  let nb := List.length (ResolvedVulns b) in
  (nb < na)%nat
  \/ (na = nb
      /\ (lexLt (Name (Pkg (DependencyPatch a))) (Name (Pkg (DependencyPatch b)))
          \/ (Name (Pkg (DependencyPatch a)) = Name (Pkg (DependencyPatch b))
              /\ (lexLt (OrigVersion (DependencyPatch a)) (OrigVersion (DependencyPatch b))
                  \/ (OrigVersion (DependencyPatch a) = OrigVersion (DependencyPatch b)
                      /\ lexLe (NewVersion (DependencyPatch b))
                               (NewVersion (DependencyPatch a))))))).

(** Every patch of the accumulator fixes searched vulnerabilities of the
    version key it changes, and every unfixable one is of the aggregate. *)
Definition fromAggregate (opts : RemediationOptions) (res : inPlaceVulnsNodesResult)
           (acc : InPlaceResult) : Prop :=
  (forall p rv, In p (Patches acc) -> In rv (ResolvedVulns p) ->
                exists vk, searched opts res vk rv
                           /\ PackageKey_ vk = Pkg (DependencyPatch p)
                           /\ Version vk = OrigVersion (DependencyPatch p))
  /\ (forall p, In p (Patches acc) -> ResolvedVulns p <> [])
  /\ (forall rv, In rv (Unfixable acc) ->
                 exists vk vulns, In (vk, vulns) (vkVulns res) /\ In rv vulns
                                  /\ MatchVuln opts rv = true).

(** A call that does not return an error. *)
Definition neverErr {A : Type} (r : result A) : Prop := forall e, r <> Err e.

(** A simple path from the node [t] up to the root: edges of the graph,
    none a self-dependency, each ending where the previous one starts,
    the last one starting at the root, no node met twice. *)
Definition simplePathToRoot (g : Graph) (t : NodeID) (es : list Edge) : Prop :=
  Forall (fun e => In e (Edges g) /\ From e <> To e) es
  /\ linked t es
  /\ (exists edge, lastEdge es = Ok edge /\ From edge = 0%nat)
  /\ NoDup (visitedNodes es).

(** [extendsTo g es es']: the traversal, holding the sequence [es] in its
    queue, builds the sequence [es'] from it. *)
Inductive extendsTo (g : Graph) : list Edge -> list Edge -> Prop :=
| extendsTo_refl (es : list Edge) : extendsTo g es es
| extendsTo_step (es es' : list Edge) (edge pEdge : Edge) :
    lastEdge es = Ok edge ->
    From edge <> 0%nat ->
    ~ In (From edge) (map To es) ->
    In pEdge (parentEdges g (From edge)) ->
    extendsTo g (es ++ [pEdge]) es' ->
    extendsTo g es es'.

Definition chainLength (c : DependencyChain) : nat := List.length (ChainEdges c).

(** The chains are in order of length, shortest first. *)
Definition shortestFirst : list DependencyChain -> Prop :=
  StronglySorted (fun a b => (chainLength a <= chainLength b)%nat).

(** A requirement with the tag ['latest'] written as the wildcard. *)
Definition wildcardKey (k : VersionKey) : VersionKey :=
  mkVersionKey (PackageKey_ k) (VersionType_ k) (latestAsWildcard (Version k)).

Definition wildcardRequirement (r : RequirementVersion) : RequirementVersion :=
  mkRequirementVersion (wildcardKey (ReqVersionKey r)) (ReqType r).

(** The requirements the satisfaction check reads: the regular ones and
    the optional ones. *)
Definition isOptionalOnly (r : RequirementVersion) : bool :=
  negb (dep.IsRegular (ReqType r)) && dep.HasOpt (ReqType r).

Definition isRead (r : RequirementVersion) : bool :=
  dep.IsRegular (ReqType r) || dep.HasOpt (ReqType r).

(** [installed children name]: some child has that package name. *)
Definition installed (children : list VersionKey) (name : string) : Prop :=
  exists child, In child children /\ vkName child = name.

(** The requirement [d] is met by a child already present. *)
Definition metBy (sv : semver.Lib) (sys : System) (children : list VersionKey)
           (d : VersionKey) : Prop :=
  exists constr,
    semver.ParseConstraint sv sys (latestAsWildcard (Version d)) = inr constr
    /\ exists child, In child children /\ vkName child = vkName d
                     /\ semver.ConstraintMatch sv constr (Version child) = true.

(** The vulnerabilities a result accounts for: the unfixable ones, then
    those each patch resolves. *)
Definition accounted (r : InPlaceResult) : list ResolutionVuln :=
  Unfixable r ++ flat_map ResolvedVulns (Patches r).

(** The records of the aggregate that pass the filter of the options. *)
Definition considered (opts : RemediationOptions) (res : inPlaceVulnsNodesResult)
  : list ResolutionVuln :=
  filter (MatchVuln opts) (flat_map snd (vkVulns res)).


(** The node [n] carries at least one vulnerability. *)
Definition vulnerable (nodeVulns : list (list models.Vulnerability)) (n : NodeID) : Prop :=
  exists vs, nth_error nodeVulns n = Some vs /\ vs <> [].

(** Every edge of the graph joins two of its nodes. *)
Definition edgesWithinNodes (g : Graph) : Prop :=
  forall e, In e (Edges g) ->
            (From e < List.length (Nodes g))%nat /\ (To e < List.length (Nodes g))%nat.

(** The identifier of the vulnerability of a record. *)
Definition recordID (rv : ResolutionVuln) : string := models.ID (Vulnerability rv).

(** [aggregates m found]: the map [m] aggregates the occurrences
    [found vk chains v] (the vulnerability [v] was found on a node of
    version [vk] whose chains are [chains]).  One entry per version key,
    none empty; under a key one record per vulnerability identifier;
    the problem chains of a record are those of the occurrences of its
    identifier under its key; every occurrence has its record, and every
    record an occurrence. *)
Definition aggregates (m : list (VersionKey * list ResolutionVuln))
           (found : VersionKey -> list DependencyChain -> models.Vulnerability -> Prop)
  : Prop :=
  NoDup (map fst m)
  /\ (forall vk vulns, In (vk, vulns) m -> vulns <> [])
  /\ (forall vk, NoDup (map recordID (mapSlice VersionKey_eqb m vk)))
  /\ (forall vk rv,
         In rv (mapSlice VersionKey_eqb m vk) ->
         forall c, In c (ProblemChains rv)
                   <-> exists chains v, found vk chains v
                                        /\ models.ID v = recordID rv /\ In c chains)
  /\ (forall vk chains v,
         found vk chains v ->
         exists rv, In rv (mapSlice VersionKey_eqb m vk) /\ recordID rv = models.ID v)
  /\ (forall vk rv,
         In rv (mapSlice VersionKey_eqb m vk) ->
         exists chains v, found vk chains v /\ models.ID v = recordID rv).

(** The occurrences met while visiting the vulnerable nodes [visited]
    (with their positions in the list of chains). *)
Definition occurrence (graph : Graph) (nodeVulns : list (list models.Vulnerability))
           (nodeChains : list (list DependencyChain)) (visited : list (nat * NodeID))
           (vk : VersionKey) (chains : list DependencyChain) (v : models.Vulnerability)
  : Prop :=
  exists i n vs,
    In (i, n) visited
    /\ nth_error nodeChains i = Some chains
    /\ nodeVersion graph n = Ok vk
    /\ nth_error nodeVulns n = Some vs /\ In v vs.

(** The records of the aggregate with their version keys, in the order
    in which the main loop of [ComputeInPlacePatches] visits them. *)
Definition searchOrder (rangeOrder : forall A : Type, list A -> list A)
           (res : inPlaceVulnsNodesResult) : list (VersionKey * ResolutionVuln) :=
  flat_map (fun kv : VersionKey * list ResolutionVuln => map (pair (fst kv)) (snd kv))
           (rangeOrder _ (vkVulns res)).

(** The vulnerability [rv] of the version key [vk] is fixed by the
    transition [dp]: it passes the filter, its package is not avoided,
    and the candidate search returns the new version of [dp]. *)
Definition fixes (sv : semver.Lib) (cl : ResolutionClient)
           (IsAffected : models.Vulnerability -> VersionKey -> bool)
           (opts : RemediationOptions) (res : inPlaceVulnsNodesResult)
           (cons : list (VersionKey * semver.Set_ sv))
           (dp : DependencyPatch_) (kr : VersionKey * ResolutionVuln) : bool :=
  MatchVuln opts (snd kr)
  && negb (Contains (AvoidPkgs opts) (vkName (fst kr)))
  && match findFixedVersion sv cl (PackageKey_ (fst kr))
             (satisfies sv cl IsAffected opts res cons (fst kr) (snd kr)) with
     | Ok newVK =>
         DependencyPatch_eqb
           (mkDependencyPatch (PackageKey_ (fst kr)) (Version (fst kr)) (Version newVK))
           dp
     | _ => false
     end.

(** The vulnerabilities among [visited] that the transition [dp] fixes,
    in their order. *)
Definition fixedAmong (sv : semver.Lib) (cl : ResolutionClient)
           (IsAffected : models.Vulnerability -> VersionKey -> bool)
           (opts : RemediationOptions) (res : inPlaceVulnsNodesResult)
           (cons : list (VersionKey * semver.Set_ sv))
           (dp : DependencyPatch_) (visited : list (VersionKey * ResolutionVuln))
  : list ResolutionVuln :=
  map snd (filter (fixes sv cl IsAffected opts res cons dp) visited).

(** All the vulnerabilities of the aggregate that the transition [dp]
    fixes. *)
Definition fixedBy (sv : semver.Lib) (cl : ResolutionClient)
           (IsAffected : models.Vulnerability -> VersionKey -> bool)
           (rangeOrder : forall A : Type, list A -> list A)
           (opts : RemediationOptions) (res : inPlaceVulnsNodesResult)
           (cons : list (VersionKey * semver.Set_ sv))
           (dp : DependencyPatch_) : list ResolutionVuln :=
  fixedAmong sv cl IsAffected opts res cons dp (searchOrder rangeOrder res).

(** [groupsFixed visited patches]: the patches group the vulnerabilities
    among [visited] by the transition that fixes them: one patch per
    transition that fixes any, holding all those it fixes, in order. *)
Definition groupsFixed (sv : semver.Lib) (cl : ResolutionClient)
           (IsAffected : models.Vulnerability -> VersionKey -> bool)
           (opts : RemediationOptions) (res : inPlaceVulnsNodesResult)
           (cons : list (VersionKey * semver.Set_ sv))
           (visited : list (VersionKey * ResolutionVuln))
           (patches : list InPlacePatch) : Prop :=
  NoDup (map DependencyPatch patches)
  /\ (forall p, In p patches ->
                ResolvedVulns p
                = fixedAmong sv cl IsAffected opts res cons (DependencyPatch p) visited
                /\ ResolvedVulns p <> [])
  /\ (forall dp, fixedAmong sv cl IsAffected opts res cons dp visited <> [] ->
                 In dp (map DependencyPatch patches)).

(** * Properties *)

(** ** Properties of the run-time model *)

Section GoFacts.

Context {A : Type}.

Lemma indexFrom_range (f : A -> bool) (s : list A) (i : Z) :
  indexFrom f i s = -1 \/ i <= indexFrom f i s < i + Z.of_nat (List.length s).
Proof.
  revert i. induction s as [|x s IH]; intros i; simpl.
  - now left.
  - destruct (f x).
    + right. lia.
    + destruct (IH (i + 1)) as [H|H]; [now left | right; lia].
Qed.

Lemma indexFrom_none (f : A -> bool) (s : list A) (i : Z) :
  0 <= i -> indexFrom f i s < 0 -> forall x, In x s -> f x = false.
Proof.
  revert i. induction s as [|x s IH]; intros i Hi Hneg y Hy; simpl in *.
  - contradiction.
  - destruct (f x) eqn:Hfx; [lia|].
    destruct Hy as [->|Hy]; [assumption|].
    apply (IH (i + 1)); [lia | assumption | assumption].
Qed.

Lemma indexFrom_found (f : A -> bool) (s : list A) (i : Z) :
  0 <= i -> 0 <= indexFrom f i s ->
  exists x, nth_error s (Z.to_nat (indexFrom f i s - i)) = Some x /\ f x = true.
Proof.
  revert i. induction s as [|x s IH]; intros i Hi Hfound; simpl in *.
  - lia.
  - destruct (f x) eqn:Hfx.
    + exists x. rewrite Z.sub_diag. simpl. auto.
    + destruct (IH (i + 1)) as [y [Hy Hfy]]; [lia | assumption |].
      exists y. split; [|assumption].
      destruct (indexFrom_range f s (i + 1)) as [H|H]; [lia|].
      replace (Z.to_nat (indexFrom f (i + 1) s - i))
        with (S (Z.to_nat (indexFrom f (i + 1) s - (i + 1)))) by lia.
      exact Hy.
Qed.

Lemma IndexFunc_none (s : list A) (f : A -> bool) :
  IndexFunc s f < 0 -> forall x, In x s -> f x = false.
Proof. unfold IndexFunc. apply indexFrom_none. lia. Qed.

Lemma IndexFunc_found (s : list A) (f : A -> bool) :
  0 <= IndexFunc s f ->
  exists x, nth_error s (Z.to_nat (IndexFunc s f)) = Some x /\ f x = true.
Proof.
  unfold IndexFunc. intros H.
  destruct (@indexFrom_found f s 0) as [x Hx]; [lia | assumption |].
  exists x. now rewrite Z.sub_0_r in Hx.
Qed.

Lemma ContainsFunc_true (s : list A) (f : A -> bool) :
  ContainsFunc s f = true <-> exists x, In x s /\ f x = true.
Proof.
  unfold ContainsFunc. split.
  - intros H. apply Z.leb_le in H.
    destruct (IndexFunc_found s f H) as [x [Hx Hf]].
    exists x. split; [eapply nth_error_In; eassumption | assumption].
  - intros [x [Hx Hf]]. apply Z.leb_le.
    destruct (Z_lt_le_dec (IndexFunc s f) 0) as [Hneg|]; [|assumption].
    rewrite (IndexFunc_none s f Hneg x Hx) in Hf. discriminate.
Qed.

Lemma ContainsFunc_false (s : list A) (f : A -> bool) :
  ContainsFunc s f = false <-> forall x, In x s -> f x = false.
Proof.
  split.
  - intros H x Hx. destruct (f x) eqn:Hf; [|reflexivity].
    assert (ContainsFunc s f = true) by (apply ContainsFunc_true; eauto).
    congruence.
  - intros H. destruct (ContainsFunc s f) eqn:Hc; [|reflexivity].
    apply ContainsFunc_true in Hc. destruct Hc as [x [Hx Hf]].
    rewrite (H x Hx) in Hf. discriminate.
Qed.

Lemma NoDup_snoc (l : list A) (x : A) :
  NoDup l -> ~ In x l -> NoDup (l ++ [x]).
Proof.
  intros Hl Hx. apply NoDup_rev in Hl.
  rewrite <- (rev_involutive (l ++ [x])). apply NoDup_rev.
  rewrite rev_app_distr. simpl. constructor; [now rewrite <- in_rev | assumption].
Qed.

Lemma In_updateAt (i : nat) (f : A -> A) (s : list A) (y : A) :
  In y (updateAt i f s) -> In y s \/ exists x, nth_error s i = Some x /\ y = f x.
Proof.
  revert i. induction s as [|x s IH]; intros [|i]; simpl; intros H;
    try contradiction.
  - destruct H as [<-|H]; [right; eauto | left; auto].
  - destruct H as [<-|H]; [left; auto|].
    destruct (IH i H) as [H'|H']; [left; auto | right; assumption].
Qed.

Lemma updateAt_map {B : Type} (g : A -> B) (i : nat) (f : A -> A) (s : list A) :
  (forall x, g (f x) = g x) -> map g (updateAt i f s) = map g s.
Proof.
  intros Hg. revert i. induction s as [|x s IH]; intros [|i]; simpl;
    try reflexivity.
  - now rewrite Hg.
  - now rewrite IH.
Qed.

Lemma updateAt_In_old (i : nat) (f : A -> A) (s : list A) (x : A) :
  In x s -> In x (updateAt i f s) \/ In (f x) (updateAt i f s).
Proof.
  revert i. induction s as [|y s IH]; intros [|i]; simpl; intros H;
    try contradiction.
  - destruct H as [->|H]; [right | left]; auto.
  - destruct H as [->|H]; [left; auto|].
    destruct (IH i H); [left | right]; auto.
Qed.

(** *** [slices.SortFunc] *)

Variable cmp : A -> A -> Z.

Lemma insertBack_Permutation (x : A) (l : list A) :
  Permutation (insertBack cmp x l) (x :: l).
Proof.
  induction l as [|y l IH]; simpl.
  - reflexivity.
  - destruct (cmp x y <? 0).
    + rewrite IH. apply perm_swap.
    + reflexivity.
Qed.

Lemma insertAll_Permutation (s acc : list A) :
  Permutation (fold_left (fun acc x => insertBack cmp x acc) s acc) (s ++ acc).
Proof.
  revert acc. induction s as [|x s IH]; intros acc; simpl.
  - reflexivity.
  - rewrite IH. rewrite insertBack_Permutation.
    symmetry. apply Permutation_middle.
Qed.

Lemma SortFunc_Permutation (s : list A) : Permutation (SortFunc s cmp) s.
Proof.
  unfold SortFunc. rewrite <- Permutation_rev.
  rewrite insertAll_Permutation. now rewrite app_nil_r.
Qed.

Lemma insertBack_descending (x : A) (l : list A) :
  cmpConsistent cmp -> cmpTransitive cmp ->
  descending cmp l -> descending cmp (insertBack cmp x l).
Proof.
  intros Hc Ht. induction l as [|y l IH]; simpl; intros Hl.
  - constructor; constructor.
  - inversion Hl as [|? ? Hl' Hy]; subst.
    destruct (cmp x y <? 0) eqn:Hxy.
    + apply Z.ltb_lt in Hxy. constructor; [apply IH; assumption|].
      eapply Permutation_Forall.
      * symmetry. apply insertBack_Permutation.
      * constructor; [lia | assumption].
    + apply Z.ltb_ge in Hxy. constructor; [assumption|].
      assert (Hyx : cmp y x <= 0) by (apply Hc; assumption).
      constructor; [assumption|].
      eapply Forall_impl; [|exact Hy]. intros z Hz. simpl in Hz.
      eapply Ht; eassumption.
Qed.

Lemma insertAll_descending (s acc : list A) :
  cmpConsistent cmp -> cmpTransitive cmp ->
  descending cmp acc ->
  descending cmp (fold_left (fun acc x => insertBack cmp x acc) s acc).
Proof.
  intros Hc Ht. revert acc. induction s as [|x s IH]; intros acc Hacc; simpl.
  - assumption.
  - apply IH. now apply insertBack_descending.
Qed.

(** The sorted slice, read from its end, is descending. *)
Lemma SortFunc_rev_descending (s : list A) :
  cmpConsistent cmp -> cmpTransitive cmp -> descending cmp (rev (SortFunc s cmp)).
Proof.
  intros Hc Ht. unfold SortFunc. rewrite rev_involutive.
  apply insertAll_descending; auto. constructor.
Qed.

End GoFacts.

(** *** Adjacent elements of a slice *)

Section Adjacent.

Context {A : Type}.

Lemma adjacent_rev (l : list A) (a b : A) :
  adjacent (rev l) a b -> adjacent l b a.
Proof.
  intros [l1 [l2 H]]. exists (rev l2), (rev l1).
  rewrite <- (rev_involutive l), H.
  rewrite rev_app_distr. simpl. now rewrite <- !app_assoc.
Qed.

Lemma Sorted_adjacent (R : A -> A -> Prop) (l : list A) (a b : A) :
  Sorted R l -> adjacent l a b -> R a b.
Proof.
  intros Hs [l1 [l2 ->]]. induction l1 as [|x l1 IH]; simpl in Hs.
  - inversion Hs as [|? ? _ Hhd]; subst. now inversion Hhd.
  - inversion Hs; subst. auto.
Qed.

Variable cmp : A -> A -> Z.

Lemma insertBack_Sorted (x : A) (l : list A) :
  cmpConsistent cmp ->
  Sorted (fun a b => cmp b a <= 0) l ->
  Sorted (fun a b => cmp b a <= 0) (insertBack cmp x l).
Proof.
  intros Hc. induction l as [|y l IH]; simpl; intros Hl.
  - repeat constructor.
  - inversion Hl as [|? ? Hl' Hhd]; subst.
    destruct (cmp x y <? 0) eqn:Hxy.
    + apply Z.ltb_lt in Hxy. constructor; [apply IH; assumption|].
      destruct l as [|z l]; simpl.
      * constructor. lia.
      * destruct (cmp x z <? 0); constructor; [now inversion Hhd | lia].
    + apply Z.ltb_ge in Hxy. constructor; [assumption|].
      constructor. apply Hc. assumption.
Qed.

(** In the sorted slice no element is strictly below its predecessor;
    consistency of the comparison suffices for that. *)
Lemma SortFunc_adjacent (s : list A) (a b : A) :
  cmpConsistent cmp -> adjacent (SortFunc s cmp) a b -> cmp a b <= 0.
Proof.
  intros Hc Hadj. unfold SortFunc in Hadj. apply adjacent_rev in Hadj.
  revert Hadj. apply (Sorted_adjacent (R := fun a b => cmp b a <= 0)).
  assert (H : forall acc, Sorted (fun a b => cmp b a <= 0) acc ->
                          Sorted (fun a b => cmp b a <= 0)
                                 (fold_left (fun acc x => insertBack cmp x acc) s acc)).
  { induction s as [|x s IH]; intros acc Hacc; simpl; [assumption|].
    apply IH. now apply insertBack_Sorted. }
  apply H. constructor.
Qed.

End Adjacent.

(** *** Maps *)

Section MapFacts.

Context {K V : Type}.
Variable eqb : K -> K -> bool.
Hypothesis eqb_eq : forall a b, eqb a b = true <-> a = b.

Lemma eqb_refl_ (a : K) : eqb a a = true.
Proof. now apply eqb_eq. Qed.

Lemma mapGet_mapSet (m : list (K * V)) (k k' : K) (v : V) :
  mapGet eqb (mapSet eqb m k v) k' = if eqb k' k then Some v else mapGet eqb m k'.
Proof.
  induction m as [|[k0 v0] m IH]; simpl.
  - reflexivity.
  - destruct (eqb k k0) eqn:Hk; simpl.
    + apply eqb_eq in Hk. subst k0.
      destruct (eqb k' k); reflexivity.
    + destruct (eqb k' k0) eqn:Hk'.
      * apply eqb_eq in Hk'. subst k0.
        destruct (eqb k' k) eqn:Hkk; [|reflexivity].
        apply eqb_eq in Hkk. subst k'. rewrite eqb_refl_ in Hk. discriminate.
      * exact IH.
Qed.

Lemma mapGet_In (m : list (K * V)) (k : K) (v : V) :
  mapGet eqb m k = Some v -> In (k, v) m.
Proof.
  induction m as [|[k0 v0] m IH]; simpl; [discriminate|].
  destruct (eqb k k0) eqn:Hk.
  - apply eqb_eq in Hk. subst. intros [= ->]. now left.
  - intros H. right. auto.
Qed.

(** Every binding of the updated map is an old one or the new one. *)
Lemma In_mapSet (m : list (K * V)) (k : K) (v : V) (kv : K * V) :
  In kv (mapSet eqb m k v) -> In kv m \/ kv = (k, v).
Proof.
  induction m as [|[k0 v0] m IH]; simpl.
  - intros [<-|[]]. now right.
  - destruct (eqb k k0) eqn:Hk; simpl.
    + apply eqb_eq in Hk. subst k0. intros [<-|H]; [now right | left; auto].
    + intros [<-|H]; [left; auto|]. destruct (IH H); [left | right]; auto.
Qed.

Lemma mapSet_keys_NoDup (m : list (K * V)) (k : K) (v : V) :
  NoDup (map fst m) -> NoDup (map fst (mapSet eqb m k v)).
Proof.
  induction m as [|[k0 v0] m IH]; simpl; intros H.
  - constructor; [intros [] | constructor].
  - inversion H as [|? ? Hnotin Hnd]; subst.
    destruct (eqb k k0) eqn:Hk; simpl.
    + constructor; assumption.
    + constructor; [|auto].
      intros Hin. apply in_map_iff in Hin. destruct Hin as [[k1 v1] [Hk1 Hin]].
      simpl in Hk1. subst k1.
      destruct (In_mapSet _ _ _ _ Hin) as [Hold|Hnew].
      * apply Hnotin. apply in_map_iff. exists (k0, v1). auto.
      * injection Hnew as -> _. rewrite eqb_refl_ in Hk. discriminate.
Qed.

End MapFacts.

Section MapSliceFacts.

Context {K V : Type}.
Variable eqb : K -> K -> bool.
Hypothesis eqb_eq : forall a b, eqb a b = true <-> a = b.

Lemma mapSlice_mapAppend (m : list (K * list V)) (k k' : K) (v : V) :
  mapSlice eqb (mapAppend eqb m k v) k'
  = if eqb k' k then mapSlice eqb m k ++ [v] else mapSlice eqb m k'.
Proof.
  unfold mapAppend, mapSlice at 1. rewrite (mapGet_mapSet eqb eqb_eq).
  destruct (eqb k' k); reflexivity.
Qed.

End MapSliceFacts.

Lemma foldM_inv {A B} (P : B -> Prop) (body : B -> A -> result B) (s : list A) :
  (forall acc x acc', In x s -> P acc -> body acc x = Ok acc' -> P acc') ->
  forall acc r, P acc -> foldM body s acc = Ok r -> P r.
Proof.
  induction s as [|x s IH]; intros Hbody acc r Hacc; simpl.
  - intros [= <-]. assumption.
  - destruct (body acc x) as [acc'| |] eqn:Hb; simpl; try discriminate.
    apply IH.
    + intros ? ? ? Hin. apply Hbody. now right.
    + eapply Hbody; [now left | eassumption | eassumption].
Qed.

Section SortExt.

Context {A : Type}.
Variables cmp cmp' : A -> A -> Z.
Variable dom : list A.
Hypothesis agree : forall a b, In a dom -> In b dom -> cmp a b = cmp' a b.

Lemma insertBack_ext (x : A) (l : list A) :
  In x dom -> incl l dom -> insertBack cmp x l = insertBack cmp' x l.
Proof.
  intros Hx. induction l as [|y l IH]; intros Hl; simpl.
  - reflexivity.
  - rewrite agree by (auto; apply Hl; now left).
    rewrite IH by (intros z Hz; apply Hl; now right). reflexivity.
Qed.

(** Sorting depends on the comparison of the elements of the slice only. *)
Lemma SortFunc_ext : SortFunc dom cmp = SortFunc dom cmp'.
Proof.
  unfold SortFunc. f_equal.
  assert (H : forall s acc, incl s dom -> incl acc dom ->
                            fold_left (fun acc x => insertBack cmp x acc) s acc
                            = fold_left (fun acc x => insertBack cmp' x acc) s acc).
  { induction s as [|x s IH]; intros acc Hs Hacc; simpl; [reflexivity|].
    assert (Hx : In x dom) by (apply Hs; now left).
    rewrite <- insertBack_ext by assumption. apply IH.
    - intros z Hz. apply Hs. now right.
    - intros z Hz.
      apply (Permutation_in z (insertBack_Permutation cmp x acc)) in Hz.
      destruct Hz as [<-|Hz]; auto. }
  apply H; [apply incl_refl | intros z []].
Qed.

End SortExt.

(** ** The dependency chain computer *)

Lemma Nat_eqb_eq (a b : nat) : Nat.eqb a b = true <-> a = b.
Proof. apply Nat.eqb_eq. Qed.

Lemma lastEdge_snoc (es : list Edge) (e : Edge) : lastEdge (es ++ [e]) = Ok e.
Proof.
  unfold lastEdge, index. rewrite length_app. simpl.
  replace (Nat.pred (List.length es + 1)) with (List.length es) by lia.
  rewrite nth_error_app2 by lia. now rewrite Nat.sub_diag.
Qed.

Lemma lastEdge_Ok (es : list Edge) (e : Edge) :
  lastEdge es = Ok e -> exists es', es = es' ++ [e].
Proof.
  destruct (rev es) as [|x r] eqn:Hrev.
  - apply (f_equal (@rev Edge)) in Hrev. rewrite rev_involutive in Hrev.
    subst es. discriminate.
  - apply (f_equal (@rev Edge)) in Hrev. rewrite rev_involutive in Hrev.
    simpl in Hrev. subst es. rewrite lastEdge_snoc. intros [= ->]. eauto.
Qed.

Section ChainFacts.

Variable g : Graph.

Lemma parentEdges_filter (n : NodeID) :
  parentEdges g n = filter (incoming n) (Edges g).
Proof.
  unfold parentEdges, parentEdgesMap.
  assert (H : forall es m,
             mapSlice Nat.eqb
               (fold_left (fun m e => if Nat.eqb (From e) (To e) then m
                                      else mapAppend Nat.eqb m (To e) e) es m) n
             = mapSlice Nat.eqb m n ++ filter (incoming n) es).
  { induction es as [|e es IH]; intros m; simpl.
    - now rewrite app_nil_r.
    - rewrite IH. unfold incoming at 2.
      destruct (Nat.eqb (From e) (To e)); simpl; [reflexivity|].
      rewrite (@mapSlice_mapAppend nat Edge Nat.eqb Nat_eqb_eq). rewrite (Nat.eqb_sym (To e) n).
      destruct (Nat.eqb n (To e)) eqn:Hn.
      + apply Nat.eqb_eq in Hn. subst n. now rewrite <- app_assoc.
      + reflexivity. }
  now rewrite H.
Qed.

Lemma In_parentEdges (n : NodeID) (e : Edge) :
  In e (parentEdges g n) <-> In e (Edges g) /\ From e <> To e /\ To e = n.
Proof.
  rewrite parentEdges_filter, filter_In. unfold incoming.
  rewrite andb_true_iff, negb_true_iff, Nat.eqb_neq, Nat.eqb_eq. tauto.
Qed.

Lemma parentEdges_length (n : NodeID) :
  (List.length (parentEdges g n) <= List.length (Edges g))%nat.
Proof. rewrite parentEdges_filter. apply filter_length_le. Qed.

(** The cycle guard does not depend on which incoming edge is appended. *)
Lemma extendChain_guard (chain : DependencyChain) (n : NodeID) (pes : list Edge) :
  (forall pe, In pe pes -> To pe = n) ->
  extendChain g chain pes
  = if ContainsFunc (ChainEdges chain) (fun e => Nat.eqb (To e) n)
    then []
    else map (fun pe => mkDependencyChain g (ChainEdges chain ++ [pe])) pes.
Proof.
  intros Hn. unfold extendChain.
  assert (H : forall q,
             fold_left
               (fun q pEdge =>
                  if negb (ContainsFunc (ChainEdges chain)
                             (fun e => Nat.eqb (To e) (To pEdge)))
                  then q ++ [mkDependencyChain g (ChainEdges chain ++ [pEdge])]
                  else q) pes q
             = q ++ (if ContainsFunc (ChainEdges chain) (fun e => Nat.eqb (To e) n)
                     then []
                     else map (fun pe => mkDependencyChain g (ChainEdges chain ++ [pe]))
                              pes)).
  { induction pes as [|pe pes IH]; intros q; simpl.
    - destruct (ContainsFunc _ _); now rewrite app_nil_r.
    - rewrite IH by (intros; apply Hn; now right).
      rewrite (Hn pe) by now left.
      destruct (ContainsFunc _ _); simpl; [reflexivity|].
      now rewrite <- app_assoc. }
  apply H.
Qed.

Variable t : NodeID.

Lemma chainTo_nonempty (es : list Edge) : chainTo g t es -> es <> [].
Proof.
  intros H; inversion H as [e He|es0 edge pEdge]; [discriminate|].
  now destruct es0.
Qed.

Lemma chainTo_edges (es : list Edge) :
  chainTo g t es -> Forall (fun e => In e (Edges g) /\ From e <> To e) es.
Proof.
  induction 1 as [e He|es edge pEdge _ IH _ _ _ He].
  - apply In_parentEdges in He. constructor; [tauto | constructor].
  - apply In_parentEdges in He. apply Forall_app. split; [assumption|].
    constructor; [tauto | constructor].
Qed.

Lemma linked_snoc (n : NodeID) (es : list Edge) (edge pEdge : Edge) :
  linked n es -> lastEdge es = Ok edge -> To pEdge = From edge ->
  linked n (es ++ [pEdge]).
Proof.
  intros Hl Hlast Hto. destruct (lastEdge_Ok _ Hlast) as [es' ->]. clear Hlast.
  revert n Hl. induction es' as [|e es' IH]; intros n; simpl.
  - intros [Hn _]. auto.
  - intros [Hn Hl]. split; [assumption|]. now apply IH.
Qed.

Lemma chainTo_linked (es : list Edge) : chainTo g t es -> linked t es.
Proof.
  induction 1 as [e He|es edge pEdge _ IH Hlast _ _ He].
  - apply In_parentEdges in He. simpl. tauto.
  - apply In_parentEdges in He. eapply linked_snoc; [eassumption | eassumption | tauto].
Qed.

Lemma chainTo_targets_NoDup (es : list Edge) :
  chainTo g t es -> NoDup (map To es).
Proof.
  induction 1 as [e He|es edge pEdge _ IH _ _ Hnew He].
  - simpl. constructor; [intros [] | constructor].
  - apply In_parentEdges in He. destruct He as [_ [_ Hto]].
    rewrite map_app. simpl. rewrite Hto.
    apply NoDup_snoc; assumption.
Qed.

(** Off the root, no edge of a built sequence ends at the root. *)
Lemma chainTo_targets_nonroot (es : list Edge) :
  chainTo g t es -> t <> 0%nat -> ~ In 0%nat (map To es).
Proof.
  intros H Ht. induction H as [e He|es edge pEdge _ IH _ Hnr _ He].
  - apply In_parentEdges in He. simpl. intros [H0|[]]. lia.
  - apply In_parentEdges in He. rewrite map_app, in_app_iff. simpl.
    intros [H0|[H0|[]]]; [auto | lia].
Qed.

Lemma chainTo_length (es : list Edge) :
  chainTo g t es -> (List.length es <= List.length (Edges g))%nat.
Proof.
  intros H. apply NoDup_incl_length.
  - eapply NoDup_map_inv. apply (chainTo_targets_NoDup H).
  - intros e He. pose proof (chainTo_edges H) as Hall.
    rewrite Forall_forall in Hall. now apply Hall.
Qed.

(** The nodes visited are the targets of the edges followed by the source
    of the last edge. *)
Lemma linked_visitedNodes (n : NodeID) (es : list Edge) (edge : Edge) :
  linked n es -> lastEdge es = Ok edge ->
  visitedNodes es = map To es ++ [From edge] /\ visitedNodes es = n :: map From es.
Proof.
  intros Hl Hlast. destruct (lastEdge_Ok _ Hlast) as [es' ->]. clear Hlast.
  destruct es' as [|e es']; simpl in *.
  - destruct Hl as [<- _]. auto.
  - destruct Hl as [<- Hl]. split; [|reflexivity]. f_equal.
    revert e Hl. induction es' as [|e' es' IH]; intros e; simpl.
    + intros [-> _]. reflexivity.
    + intros [-> Hl]. f_equal. now apply IH.
Qed.

End ChainFacts.

Section Traversal.

Variable g : Graph.
Variable t : NodeID.

Lemma geomFuel_pos (b n : nat) : (1 <= geomFuel b n)%nat.
Proof. destruct n; simpl; lia. Qed.

Lemma queueWeight_app (q1 q2 : list DependencyChain) :
  queueWeight g (q1 ++ q2) = (queueWeight g q1 + queueWeight g q2)%nat.
Proof. unfold queueWeight. now rewrite map_app, list_sum_app. Qed.

Lemma lastEdge_nonempty (es : list Edge) :
  es <> [] -> exists edge, lastEdge es = Ok edge.
Proof.
  intros H. destruct (exists_last H) as [es' [e ->]].
  exists e. apply lastEdge_snoc.
Qed.

(** Extending a chain costs less than the chain itself. *)
Lemma children_weight (es pes : list Edge) :
  chainTo g t es ->
  (forall pe, In pe pes -> chainTo g t (es ++ [pe])) ->
  (List.length pes <= List.length (Edges g))%nat ->
  (S (queueWeight g (map (fun pe => mkDependencyChain g (es ++ [pe])) pes))
   <= chainWeight g (mkDependencyChain g es))%nat.
Proof.
  intros Hes Hpes Hlen. unfold chainWeight. simpl.
  set (E := List.length (Edges g)) in *.
  destruct pes as [|pe0 pes0] eqn:Hp.
  - simpl. apply geomFuel_pos.
  - rewrite <- Hp in *.
    assert (Hk : (S (List.length es) <= E)%nat).
    { specialize (Hpes pe0). rewrite Hp in Hpes.
      specialize (Hpes (or_introl eq_refl)).
      apply chainTo_length in Hpes. rewrite length_app in Hpes. simpl in Hpes.
      unfold E. lia. }
    replace (E - List.length es)%nat with (S (E - S (List.length es))) by lia.
    simpl geomFuel. apply le_n_S.
    assert (Hsum : queueWeight g (map (fun pe => mkDependencyChain g (es ++ [pe])) pes)
                   = (List.length pes * geomFuel E (E - S (List.length es)))%nat).
    { clear. unfold queueWeight. induction pes as [|pe pes IH]; simpl; [reflexivity|].
      rewrite IH. unfold chainWeight at 1. simpl. rewrite length_app. simpl.
      fold E. replace (List.length es + 1)%nat with (S (List.length es)) by lia.
      reflexivity. }
    rewrite Hsum. apply Nat.mul_le_mono_r. assumption.
Qed.

(** The loop ends within its budget, and emits built chains only. *)
Lemma processQueue_enough (fuel : nat) :
  forall q out,
    Forall (queued g t) q -> Forall (emitted g t) out ->
    (queueWeight g q <= fuel)%nat ->
    exists r, processQueue g fuel q out = Some (Ok r) /\ Forall (emitted g t) r.
Proof.
  induction fuel as [|fuel IH]; intros q out Hq Hout Hw.
  - destruct q as [|c rest]; simpl; [eauto|].
    unfold queueWeight in Hw. simpl in Hw.
    pose proof (geomFuel_pos (List.length (Edges g))
                  (List.length (Edges g) - List.length (ChainEdges c))) as Hpos.
    unfold chainWeight in Hw. lia.
  - destruct q as [|c rest]; simpl; [eauto|].
    inversion Hq as [|? ? Hc Hrest]; subst.
    destruct Hc as [Hg Hc].
    destruct (lastEdge_nonempty (chainTo_nonempty Hc)) as [edge Hlast].
    rewrite Hlast.
    assert (Hcw : (queueWeight g (c :: rest)
                   = chainWeight g c + queueWeight g rest)%nat) by reflexivity.
    destruct (Nat.eqb (From edge) 0) eqn:Hroot.
    + apply Nat.eqb_eq in Hroot. apply IH.
      * assumption.
      * apply Forall_app. split; [assumption|]. constructor; [|constructor].
        split; [split; assumption | eauto].
      * pose proof (geomFuel_pos (List.length (Edges g))
                      (List.length (Edges g) - List.length (ChainEdges c))).
        unfold chainWeight in Hcw. lia.
    + apply Nat.eqb_neq in Hroot.
      rewrite (@extendChain_guard g c (From edge))
        by (intros pe Hpe; apply In_parentEdges in Hpe; tauto).
      destruct (ContainsFunc (ChainEdges c) (fun e => Nat.eqb (To e) (From edge)))
        eqn:Hguard.
      * rewrite app_nil_r. apply IH; [assumption | assumption |].
        pose proof (geomFuel_pos (List.length (Edges g))
                      (List.length (Edges g) - List.length (ChainEdges c))).
        unfold chainWeight in Hcw. lia.
      * assert (Hnew : ~ In (From edge) (map To (ChainEdges c))).
        { intros Hin. apply in_map_iff in Hin. destruct Hin as [e [He Hin]].
          rewrite ContainsFunc_false in Hguard. specialize (Hguard e Hin).
          simpl in Hguard. rewrite He, Nat.eqb_refl in Hguard. discriminate. }
        assert (Hkids : forall pe, In pe (parentEdges g (From edge)) ->
                                   chainTo g t (ChainEdges c ++ [pe])).
        { intros pe Hpe. eapply chainTo_step; eassumption. }
        apply IH.
        -- apply Forall_app. split; [assumption|].
           apply Forall_forall. intros c' Hc'. apply in_map_iff in Hc'.
           destruct Hc' as [pe [<- Hpe]]. split; simpl; auto.
        -- assumption.
        -- rewrite queueWeight_app.
           pose proof (@children_weight _ _ Hc Hkids (parentEdges_length g (From edge))) as Hkw.
           assert (Hcc : chainWeight g (mkDependencyChain g (ChainEdges c))
                         = chainWeight g c) by reflexivity.
           lia.
Qed.

Lemma seedChains_weight :
  (queueWeight g (seedChains g t) <= chainFuel g)%nat.
Proof.
  unfold seedChains, chainFuel.
  set (E := List.length (Edges g)).
  assert (H : forall pes,
             queueWeight g (map (fun pe => mkDependencyChain g [pe]) pes)
             = (List.length pes * geomFuel E (E - 1))%nat).
  { induction pes as [|pe pes IH]; simpl; [reflexivity|].
    unfold queueWeight in *. simpl. rewrite IH. reflexivity. }
  rewrite H. pose proof (parentEdges_length g t) as Hlen. fold E in Hlen.
  clear H. clearbody E. destruct E as [|E'].
  - replace (List.length (parentEdges g t)) with 0%nat by lia. simpl. lia.
  - replace (S E' - 1)%nat with E' by lia. simpl geomFuel.
    apply Nat.le_trans with (S E' * geomFuel (S E') E')%nat;
      [apply Nat.mul_le_mono_r; assumption | lia].
Qed.

Lemma chainsOfNode_enough :
  exists chains, chainsOfNode g (chainFuel g) t = Some (Ok chains)
                 /\ Forall (emitted g t) chains.
Proof.
  unfold chainsOfNode. apply processQueue_enough.
  - apply Forall_forall. intros c Hc. unfold seedChains in Hc.
    apply in_map_iff in Hc. destruct Hc as [pe [<- Hpe]].
    split; simpl; [reflexivity | now constructor].
  - constructor.
  - apply seedChains_weight.
Qed.

End Traversal.

(** The iteration budget of [ComputeChains] is never exhausted: the
    traversal returns the chains of every requested node. *)
Lemma chainFuel_enough (g : Graph) (nodes : list NodeID) :
  exists all, computeChainsFuel g (chainFuel g) nodes = Some (Ok all)
              /\ Forall2 (fun t chains => Forall (emitted g t) chains) nodes all.
Proof.
  induction nodes as [|t nodes [all [Hall Hprop]]]; simpl.
  - eauto.
  - destruct (chainsOfNode_enough g t) as [chains [-> Hchains]].
    rewrite Hall. eauto.
Qed.

Lemma ComputeChains_emitted (g : Graph) (nodes : list NodeID) :
  exists all, ComputeChains g nodes = Ok all
              /\ Forall2 (fun t chains => Forall (emitted g t) chains) nodes all.
Proof.
  unfold ComputeChains. destruct (chainFuel_enough g nodes) as [all [-> H]]. eauto.
Qed.

Lemma emitted_wellFormed (g : Graph) (t : NodeID) (c : DependencyChain) :
  emitted g t c -> wellFormedChain g t c.
Proof.
  intros [[Hg Hc] Hlast]. repeat split.
  - assumption.
  - apply (chainTo_edges Hc).
  - apply (chainTo_linked Hc).
  - assumption.
  - apply (chainTo_targets_NoDup Hc).
Qed.

Lemma emitted_simple_path (g : Graph) (t : NodeID) (c : DependencyChain) :
  emitted g t c -> t <> 0%nat -> NoDup (visitedNodes (ChainEdges c)).
Proof.
  intros [[Hg Hc] [edge [Hlast Hroot]]] Ht.
  destruct (linked_visitedNodes _ _ (chainTo_linked Hc) Hlast) as [-> _].
  rewrite Hroot.
  pose proof (chainTo_targets_NoDup Hc) as Hnd.
  pose proof (chainTo_targets_nonroot Hc Ht) as Hnr.
  apply NoDup_snoc; assumption.
Qed.

(** C7 (amended): for every graph, cycles permitted, and every list of
    target nodes, ComputeChains returns one list of chains per target;
    every chain leads from its target to the root, contains no
    self-dependency edge and no two edges ending at the same node; and
    every chain of a target other than the root visits no node twice. *)
Theorem ComputeChains_chains_acyclic (g : Graph) (nodes : list NodeID) :
  exists all,
    ComputeChains g nodes = Ok all
    /\ Forall2 (fun t chains =>
                  Forall (fun c => wellFormedChain g t c
                                   /\ (t <> 0%nat -> NoDup (visitedNodes (ChainEdges c))))
                         chains)
               nodes all.
Proof.
  destruct (ComputeChains_emitted g nodes) as [all [Hall Hem]].
  exists all. split; [assumption|].
  eapply Forall2_impl; [|exact Hem]. intros t chains Hchains.
  eapply Forall_impl; [|exact Hchains]. intros c Hc. split.
  - exact (emitted_wellFormed Hc).
  - exact (emitted_simple_path Hc).
Qed.

(** ** Views of a chain *)

Lemma lastEdge_cons (first : Edge) (rest : list Edge) :
  lastEdge (first :: rest) = Ok (last rest first).
Proof.
  destruct (@exists_last _ (first :: rest)) as [es' [e Hes]]; [discriminate|].
  rewrite Hes, lastEdge_snoc. f_equal.
  assert (H : last (first :: rest) first = e) by (rewrite Hes; apply last_last).
  rewrite <- H. destruct rest; reflexivity.
Qed.

(** C2 (amended): for every chain with at least one edge, DirectDependency
    is the view through the last edge of the chain (the edge adjacent to
    the root) and EndDependency the view through the edge of index 0 (the
    edge nearest the vulnerable node): target version key and requirement
    string of that edge. *)
Theorem DependencyChain_views (dc : DependencyChain) (first : Edge) (rest : list Edge) :
  ChainEdges dc = first :: rest ->
  DirectDependency dc = viewOf dc (last rest first)
  /\ EndDependency dc = viewOf dc first.
Proof.
  intros Hes. unfold DirectDependency, EndDependency, viewOf.
  rewrite Hes, lastEdge_cons. split; reflexivity.
Qed.

(** A chain without edges has no view: both accessors panic. *)
Lemma DependencyChain_views_empty (dc : DependencyChain) :
  ChainEdges dc = [] ->
  DirectDependency dc = Panic IndexOutOfRange
  /\ EndDependency dc = Panic IndexOutOfRange.
Proof.
  intros Hes. unfold DirectDependency, EndDependency. rewrite Hes. split; reflexivity.
Qed.

(** ** Candidate version search *)

Section Search.

Variable sv : semver.Lib.
Variable cl : ResolutionClient.

Lemma scanVersions_highest (cmp : Version_ -> Version_ -> Z) (p : VersionKey -> bool) :
  cmpConsistent cmp ->
  forall l,
    descending cmp l ->
    match scanVersions (fun vk => Ok (p vk)) l with
    | Ok vk =>
        exists v, In v l /\ VersionKey_ v = vk
                  /\ isConcrete v = true /\ p vk = true
                  /\ forall w, In w l -> isConcrete w = true ->
                               p (VersionKey_ w) = true -> cmp w v <= 0
    | Err e =>
        e = errInPlaceImpossible
        /\ forall w, In w l -> isConcrete w = true -> p (VersionKey_ w) = false
    | Panic _ => False
    end.
Proof.
  intros Hc. induction l as [|v l IH]; intros Hl; simpl.
  - split; [reflexivity | intros w []].
  - inversion Hl as [|? ? Hl' Hv]; subst. specialize (IH Hl').
    fold (isConcrete v). destruct (isConcrete v) eqn:Hcv; simpl.
    + destruct (p (VersionKey_ v)) eqn:Hpv.
      * exists v. repeat split; auto.
        intros w [<-|Hw] _ _.
        -- destruct (Z_lt_le_dec (cmp v v) 0); [lia | now apply Hc].
        -- rewrite Forall_forall in Hv. now apply Hv.
      * destruct (scanVersions _ l) as [vk|e|pn].
        -- destruct IH as [v' [Hin [Hvk [Hcv' [Hpv' Hmax]]]]].
           exists v'. repeat split; auto.
           intros w [<-|Hw] Hcw Hpw; [congruence | auto].
        -- destruct IH as [He Hnone]. split; [assumption|].
           intros w [<-|Hw] Hcw; auto.
        -- assumption.
    + destruct (scanVersions _ l) as [vk|e|pn].
      * destruct IH as [v' [Hin [Hvk [Hcv' [Hpv' Hmax]]]]].
        exists v'. repeat split; auto.
        intros w [<-|Hw] Hcw Hpw; [congruence | auto].
      * destruct IH as [He Hnone]. split; [assumption|].
        intros w [<-|Hw] Hcw; [congruence | auto].
      * assumption.
Qed.

(** C3: when the client reports the versions of the package and the
    comparison of the package's system orders version strings,
    findFixedVersion returns a reported version that is Concrete and
    satisfies the predicate and that no other such version exceeds under
    that comparison; when no reported version is Concrete and satisfies
    the predicate it returns the impossible error. *)
Theorem findFixedVersion_highest (pk : PackageKey) (p : VersionKey -> bool)
        (vers : list Version_) :
  cmpConsistent (semver.Compare sv (System_ pk)) ->
  cmpTransitive (semver.Compare sv (System_ pk)) ->
  Versions cl pk = inr vers ->
  (forall v, In v vers -> vkSystem (VersionKey_ v) = System_ pk) ->
  match findFixedVersion sv cl pk (fun vk => Ok (p vk)) with
  | Ok vk =>
      exists v, In v vers /\ VersionKey_ v = vk
                /\ VersionType_ vk = Concrete /\ p vk = true
                /\ forall w, In w vers ->
                             VersionType_ (VersionKey_ w) = Concrete ->
                             p (VersionKey_ w) = true ->
                             semver.Compare sv (System_ pk)
                                            (Version (VersionKey_ w)) (Version vk) <= 0
  | Err e =>
      e = errInPlaceImpossible
      /\ forall w, In w vers -> VersionType_ (VersionKey_ w) = Concrete ->
                   p (VersionKey_ w) = false
  | Panic _ => False
  end.
Proof.
  intros Hc Ht Hvers Hsys. unfold findFixedVersion. rewrite Hvers. simpl.
  set (cmp := fun a b : Version_ =>
                semver.Compare sv (System_ pk)
                               (Version (VersionKey_ a)) (Version (VersionKey_ b))).
  assert (Hext : SortFunc vers (compareVersions sv) = SortFunc vers cmp).
  { apply SortFunc_ext. intros a b Ha _. unfold compareVersions, cmp.
    now rewrite (Hsys a Ha). }
  rewrite Hext.
  assert (Hcc : cmpConsistent cmp) by (intros a b; apply Hc).
  assert (Htt : cmpTransitive cmp) by (intros a b c; apply Ht).
  pose proof (scanVersions_highest p Hcc
                (SortFunc_rev_descending vers Hcc Htt)) as Hscan.
  assert (Hin : forall v, In v (rev (SortFunc vers cmp)) <-> In v vers).
  { intros v. rewrite <- in_rev. split; apply Permutation_in;
      [|symmetry]; apply SortFunc_Permutation. }
  assert (Hconc : forall v, isConcrete v = true <-> VersionType_ (VersionKey_ v) = Concrete).
  { intros v. unfold isConcrete. destruct (VersionType_ (VersionKey_ v)); simpl;
      split; congruence. }
  destruct (scanVersions _ _) as [vk|e|pn].
  - destruct Hscan as [v [Hv [Hvk [Hcv [Hpv Hmax]]]]].
    exists v. subst vk. repeat split; auto.
    + now apply Hin.
    + now apply Hconc.
    + intros w Hw Hcw Hpw. apply (Hmax w); auto; [now apply Hin | now apply Hconc].
  - destruct Hscan as [He Hnone]. split; [assumption|].
    intros w Hw Hcw. apply Hnone; [now apply Hin | now apply Hconc].
  - assumption.
Qed.

End Search.

(** ** Key equality *)

Lemma System_eqb_eq (a b : System) : System_eqb a b = true <-> a = b.
Proof. destruct a, b; simpl; split; congruence. Qed.

Lemma PackageKey_eqb_eq (a b : PackageKey) : PackageKey_eqb a b = true <-> a = b.
Proof.
  destruct a as [sa na], b as [sb nb]. unfold PackageKey_eqb. simpl.
  rewrite andb_true_iff, System_eqb_eq, String.eqb_eq.
  split; [intros [-> ->]; reflexivity | intros [= -> ->]; auto].
Qed.

Lemma VersionType_eqb_eq (a b : VersionType) : VersionType_eqb a b = true <-> a = b.
Proof. destruct a, b; simpl; split; congruence. Qed.

Lemma VersionKey_eqb_eq (a b : VersionKey) : VersionKey_eqb a b = true <-> a = b.
Proof.
  destruct a as [pa ta va], b as [pb tb vb]. unfold VersionKey_eqb. simpl.
  rewrite !andb_true_iff, PackageKey_eqb_eq, VersionType_eqb_eq, String.eqb_eq.
  split; [intros [[-> ->] ->]; reflexivity | intros [= -> -> ->]; auto].
Qed.

Lemma DependencyPatch_eqb_eq (a b : DependencyPatch_) :
  DependencyPatch_eqb a b = true <-> a = b.
Proof.
  destruct a as [pa oa na], b as [pb ob nb]. unfold DependencyPatch_eqb. simpl.
  rewrite !andb_true_iff, PackageKey_eqb_eq, !String.eqb_eq.
  split; [intros [[-> ->] ->]; reflexivity | intros [= -> -> ->]; auto].
Qed.

(** ** Vulnerability aggregation *)

Section Aggregation.

Variable cl : ResolutionClient.

Lemma mapSlice_In {V : Type} (m : list (VersionKey * list V)) (vk : VersionKey) (x : V) :
  In x (mapSlice VersionKey_eqb m vk) -> exists s, In (vk, s) m /\ In x s.
Proof.
  unfold mapSlice. destruct (mapGet VersionKey_eqb m vk) as [s|] eqn:Hget.
  - intros Hx. exists s. split; [|assumption].
    apply (@mapGet_In _ _ VersionKey_eqb VersionKey_eqb_eq _ _ _ Hget).
  - intros [].
Qed.

Lemma mergeVuln_DevOnly (vk : VersionKey) (chains : list DependencyChain)
      (m : list (VersionKey * list ResolutionVuln)) (vuln : models.Vulnerability) :
  allNotDevOnly m -> allNotDevOnly (mergeVuln vk chains m vuln).
Proof.
  intros Hm vk' vulns rv Hin Hrv. unfold mergeVuln in Hin.
  destruct (0 <=? IndexFunc _ _).
  - apply (@In_mapSet _ _ VersionKey_eqb VersionKey_eqb_eq) in Hin.
    destruct Hin as [Hin|[= -> ->]]; [eauto|].
    apply In_updateAt in Hrv. destruct Hrv as [Hrv|[x [_ ->]]].
    + destruct (mapSlice_In _ _ _ Hrv) as [s [Hs Hrvs]]. eauto.
    + simpl. apply andb_false_r.
  - unfold mapAppend in Hin. apply (@In_mapSet _ _ VersionKey_eqb VersionKey_eqb_eq) in Hin.
    destruct Hin as [Hin|[= -> ->]]; [eauto|].
    apply in_app_iff in Hrv. destruct Hrv as [Hrv|[<-|[]]]; [|reflexivity].
    destruct (mapSlice_In _ _ _ Hrv) as [s [Hs Hrvs]]. eauto.
Qed.

Lemma mergeVulns_DevOnly (vk : VersionKey) (chains : list DependencyChain)
      (vulns : list models.Vulnerability) :
  forall m, allNotDevOnly m -> allNotDevOnly (fold_left (mergeVuln vk chains) vulns m).
Proof.
  induction vulns as [|v vulns IH]; intros m Hm; simpl; [assumption|].
  apply IH. now apply mergeVuln_DevOnly.
Qed.

(** C10: every ResolutionVuln produced by the aggregation stage has
    DevOnly equal to false: it is created with the flag false and merging
    an occurrence into it conjoins the flag with false. *)
Theorem inPlaceVulnsNodes_DevOnly_false (graph : Graph) (res : inPlaceVulnsNodesResult) :
  inPlaceVulnsNodes cl graph = Ok res ->
  forall vk vulns rv,
    In (vk, vulns) (vkVulns res) -> In rv vulns -> DevOnly rv = false.
Proof.
  unfold inPlaceVulnsNodes. intros H.
  destruct (call (FindVulns cl graph)) as [nodeVulns| |]; simpl in H; try discriminate.
  destruct (foldM _ (Edges graph) []) as [deps| |]; simpl in H; try discriminate.
  destruct (ComputeChains graph _) as [nodeChains| |]; simpl in H; try discriminate.
  destruct (foldM _ (enumerate _) _) as [vv| |] eqn:Hvv; simpl in H; try discriminate.
  injection H as <-. simpl.
  change (allNotDevOnly (fst vv)).
  revert Hvv. apply (@foldM_inv _ _ (fun acc => allNotDevOnly (fst acc))).
  - intros [vkv vkn] [i nID] acc' _ Hacc Hbody. simpl in *.
    destruct (index nodeChains i) as [chains| |]; simpl in Hbody; try discriminate.
    destruct (nodeVersion graph nID) as [vk| |]; simpl in Hbody; try discriminate.
    destruct (index nodeVulns nID) as [vulns| |]; simpl in Hbody; try discriminate.
    injection Hbody as <-. simpl. now apply mergeVulns_DevOnly.
  - intros vk vulns rv [].
Qed.

End Aggregation.

(** ** Loops *)

Lemma foldM_reach {A B} (Q : B -> Prop) (body : B -> A -> result B) (s : list A) (x : A) :
  (forall acc y acc', In y s -> body acc y = Ok acc' -> Q acc -> Q acc') ->
  In x s ->
  (forall acc acc', body acc x = Ok acc' -> Q acc') ->
  forall acc r, foldM body s acc = Ok r -> Q r.
Proof.
  intros Hmono. induction s as [|y s IH]; intros Hx Hstep acc r; [contradiction|].
  simpl. destruct (body acc y) as [acc'| |] eqn:Hb; simpl; try discriminate.
  intros Hr. destruct Hx as [->|Hx].
  - revert Hr. apply foldM_inv.
    + intros a z a' Hz Ha Hbz. eapply Hmono; [right; eassumption | eassumption | assumption].
    + eapply Hstep. eassumption.
  - eapply IH; try eassumption.
    intros a z a' Hz. apply Hmono. now right.
Qed.

Lemma foldM_Err {A B} (body : B -> A -> result B) (s : list A) :
  forall acc e, foldM body s acc = Err e ->
                exists x acc0, In x s /\ body acc0 x = Err e.
Proof.
  induction s as [|x s IH]; intros acc e; simpl; [discriminate|].
  destruct (body acc x) as [acc'| |] eqn:Hb; simpl.
  - intros H. destruct (IH _ _ H) as [y [a [Hy Ha]]]. exists y, a. auto.
  - intros [= <-]. exists x, acc. auto.
  - discriminate.
Qed.

Lemma foldM_neverErr {A B} (body : B -> A -> result B) (s : list A) (acc : B) :
  (forall a x, In x s -> neverErr (body a x)) -> neverErr (foldM body s acc).
Proof.
  intros Hbody e H. destruct (foldM_Err _ _ _ H) as [x [a [Hx Ha]]].
  exact (Hbody a x Hx e Ha).
Qed.

Lemma bind_neverErr {A B} (m : result A) (k : A -> result B) :
  neverErr m -> (forall a, m = Ok a -> neverErr (k a)) -> neverErr (bind m k).
Proof.
  intros Hm Hk e. destruct m as [a|e'|p]; simpl.
  - now apply Hk.
  - intros _. exact (Hm e' eq_refl).
  - discriminate.
Qed.

Lemma index_neverErr {A} (s : list A) (i : nat) : neverErr (index s i).
Proof. intros e. unfold index. destruct (nth_error s i); discriminate. Qed.

Lemma nodeVersion_neverErr (g : Graph) (n : NodeID) : neverErr (nodeVersion g n).
Proof.
  unfold nodeVersion. apply bind_neverErr; [apply index_neverErr|].
  intros a _ e. discriminate.
Qed.

Lemma EndDependency_neverErr (c : DependencyChain) : neverErr (EndDependency c).
Proof.
  unfold EndDependency. apply bind_neverErr; [apply index_neverErr|].
  intros edge _. apply bind_neverErr; [apply nodeVersion_neverErr|].
  intros v _ e. discriminate.
Qed.

(** ** The patch accumulator *)

Lemma recordPatch_keys (acc : InPlaceResult) (dp : DependencyPatch_) (vuln : ResolutionVuln) :
  NoDup (map DependencyPatch (Patches acc)) ->
  NoDup (map DependencyPatch (Patches (recordPatch acc dp vuln))).
Proof.
  intros Hnd. unfold recordPatch.
  destruct (0 <=? IndexFunc _ _) eqn:Hidx; simpl.
  - rewrite updateAt_map; [assumption | reflexivity].
  - apply Z.leb_gt in Hidx. rewrite map_app. simpl.
    apply NoDup_snoc; [assumption|].
    intros Hin. apply in_map_iff in Hin. destruct Hin as [ipp [Hdp Hipp]].
    pose proof (IndexFunc_none _ _ Hidx ipp Hipp) as Hne. simpl in Hne.
    rewrite Hdp in Hne.
    assert (DependencyPatch_eqb dp dp = true) by now apply DependencyPatch_eqb_eq.
    congruence.
Qed.

Lemma recordPatch_Unfixable (acc : InPlaceResult) (dp : DependencyPatch_)
      (vuln : ResolutionVuln) :
  Unfixable (recordPatch acc dp vuln) = Unfixable acc.
Proof. unfold recordPatch. destruct (0 <=? IndexFunc _ _); reflexivity. Qed.

(** The recorded vulnerability is resolved by the patch of [dp]. *)
Lemma recordPatch_patchedBy (acc : InPlaceResult) (dp : DependencyPatch_)
      (vuln : ResolutionVuln) :
  patchedBy (recordPatch acc dp vuln) dp vuln.
Proof.
  unfold recordPatch, patchedBy.
  destruct (0 <=? IndexFunc _ _) eqn:Hidx; simpl.
  - apply Z.leb_le in Hidx. destruct (IndexFunc_found _ _ Hidx) as [ipp [Hnth Heq]].
    simpl in Heq. apply DependencyPatch_eqb_eq in Heq.
    exists (mkInPlacePatch (DependencyPatch ipp) (ResolvedVulns ipp ++ [vuln])).
    repeat split; simpl; auto.
    + clear Hidx. revert Hnth. generalize (Z.to_nat (IndexFunc (Patches acc)
        (fun ipp0 => DependencyPatch_eqb (DependencyPatch ipp0) dp))).
      generalize (Patches acc). induction l as [|y l IH]; intros [|n]; simpl;
        try discriminate.
      * intros [= ->]. now left.
      * intros H. right. eauto.
    + apply in_app_iff. right. now left.
  - exists (mkInPlacePatch dp [vuln]). repeat split; simpl; auto.
    apply in_app_iff. right. now left.
Qed.


Lemma In_recordPatch (acc : InPlaceResult) (dp : DependencyPatch_)
      (vuln : ResolutionVuln) (p : InPlacePatch) :
  In p (Patches (recordPatch acc dp vuln)) ->
  In p (Patches acc)
  \/ (exists p0, In p0 (Patches acc) /\ DependencyPatch p0 = dp
                 /\ p = mkInPlacePatch dp (ResolvedVulns p0 ++ [vuln]))
  \/ p = mkInPlacePatch dp [vuln].
Proof.
  unfold recordPatch. destruct (0 <=? IndexFunc _ _) eqn:Hidx; simpl.
  - apply Z.leb_le in Hidx. destruct (IndexFunc_found _ _ Hidx) as [ipp [Hnth Heq]].
    simpl in Heq. apply DependencyPatch_eqb_eq in Heq.
    intros Hp. apply In_updateAt in Hp. destruct Hp as [Hp|[x [Hx ->]]]; [now left|].
    right. left. rewrite Hnth in Hx. injection Hx as <-.
    exists ipp. rewrite Heq. repeat split; auto. eapply nth_error_In; eassumption.
  - intros Hp. apply in_app_iff in Hp. destruct Hp as [Hp|[<-|[]]]; auto.
Qed.

(** ** The ranking of patches *)

Lemma CompareInt_opp (a b : Z) : CompareInt a b = - CompareInt b a.
Proof.
  unfold CompareInt.
  destruct (a <? b) eqn:H1; destruct (b <? a) eqn:H2; try reflexivity.
  apply Z.ltb_lt in H1. apply Z.ltb_lt in H2. lia.
Qed.

Lemma CompareString_opp (a b : string) : CompareString a b = - CompareString b a.
Proof.
  unfold CompareString. rewrite (String.compare_antisym b a).
  destruct (String.compare a b); reflexivity.
Qed.

Lemma comparePatches_opp (a b : InPlacePatch) :
  comparePatches a b = - comparePatches b a.
Proof.
  unfold comparePatches.
  rewrite (CompareInt_opp (lenVulns a) (lenVulns b)).
  rewrite (CompareString_opp (Name (Pkg (DependencyPatch a)))).
  rewrite (CompareString_opp (OrigVersion (DependencyPatch a))).
  rewrite (CompareString_opp (NewVersion (DependencyPatch a))).
  set (c1 := CompareInt (lenVulns b) (lenVulns a)).
  set (c2 := CompareString (Name (Pkg (DependencyPatch b))) _).
  set (c3 := CompareString (OrigVersion (DependencyPatch b)) _).
  set (c4 := CompareString (NewVersion (DependencyPatch b)) _).
  clearbody c1 c2 c3 c4.
  destruct (Z.eqb_spec c1 0), (Z.eqb_spec (- c1) 0); try lia; simpl; try lia.
  destruct (Z.eqb_spec c2 0), (Z.eqb_spec (- c2) 0); try lia; simpl; try lia.
  destruct (Z.eqb_spec c3 0), (Z.eqb_spec (- c3) 0); try lia; simpl; lia.
Qed.

Lemma comparePatches_consistent : cmpConsistent comparePatches.
Proof. intros a b H. rewrite comparePatches_opp. lia. Qed.

Lemma CompareString_cases (a b : string) :
  (CompareString a b = -1 /\ lexLt a b)
  \/ (CompareString a b = 0 /\ a = b)
  \/ (CompareString a b = 1 /\ lexLt b a).
Proof.
  unfold CompareString, lexLt.
  destruct (String.compare a b) eqn:H; simpl; auto.
  - right. left. split; [reflexivity|]. now apply String.compare_eq_iff.
  - right. right. split; [reflexivity|].
    rewrite String.compare_antisym, H. reflexivity.
Qed.

Lemma lexLe_refl (a : string) : lexLe a a.
Proof.
  unfold lexLe. pose proof (String.compare_antisym a a) as H.
  destruct (String.compare a a); simpl in H; congruence.
Qed.

Lemma lexLt_lexLe (a b : string) : lexLt a b -> lexLe a b.
Proof. unfold lexLt, lexLe. congruence. Qed.

(** What the comparison function decides is the ranking as worded. *)
Lemma comparePatches_ranked (a b : InPlacePatch) :
  comparePatches a b <= 0 -> rankedBefore a b.
Proof.
  unfold comparePatches, rankedBefore, lenVulns. intros H.
  destruct (CompareString_cases (Name (Pkg (DependencyPatch a)))
                                (Name (Pkg (DependencyPatch b))))
    as [[E2 Hn]|[[E2 Hn]|[E2 Hn]]];
  destruct (CompareString_cases (OrigVersion (DependencyPatch a))
                                (OrigVersion (DependencyPatch b)))
    as [[E3 Ho]|[[E3 Ho]|[E3 Ho]]];
  destruct (CompareString_cases (NewVersion (DependencyPatch a))
                                (NewVersion (DependencyPatch b)))
    as [[E4 Hw]|[[E4 Hw]|[E4 Hw]]];
  rewrite E2, E3, E4 in H; unfold CompareInt in H;
  destruct (Z.ltb_spec (Z.of_nat (List.length (ResolvedVulns a)))
                       (Z.of_nat (List.length (ResolvedVulns b))));
  destruct (Z.ltb_spec (Z.of_nat (List.length (ResolvedVulns b)))
                       (Z.of_nat (List.length (ResolvedVulns a))));
  cbn in H; try lia;
  try (left; lia);
  (right; split; [lia|]);
  try (left; assumption);
  (right; split; [assumption|]);
  try (left; assumption);
  (right; split; [assumption|]);
  solve [ rewrite Hw; apply lexLe_refl | apply lexLt_lexLe; assumption ].
Qed.

(** *** The ranking is an ordering

    [slices.SortFunc] requires a strict weak ordering; the comparison of
    patches is one, so that every correct sort ranks the patches alike up
    to patches that compare equal. *)

Lemma cmpAntisymmetric_consistent {A : Type} (cmp : A -> A -> Z) :
  cmpAntisymmetric cmp -> cmpConsistent cmp.
Proof. intros H a b. rewrite (H b a). lia. Qed.

Lemma lexCompare_antisymmetric {A : Type} (c1 c2 : A -> A -> Z) :
  cmpAntisymmetric c1 -> cmpAntisymmetric c2 -> cmpAntisymmetric (lexCompare c1 c2).
Proof.
  intros H1 H2 a b. unfold lexCompare. rewrite (H1 a b), (H2 a b).
  destruct (Z.eqb_spec (- c1 b a) 0), (Z.eqb_spec (c1 b a) 0); simpl; lia.
Qed.

Lemma lexCompare_transitive {A : Type} (c1 c2 : A -> A -> Z) :
  cmpAntisymmetric c1 -> cmpTransitive c1 -> cmpTransitive c2 ->
  cmpTransitive (lexCompare c1 c2).
Proof.
  intros Ha Ht Ht2 a b d. unfold lexCompare.
  pose proof (Ha a b). pose proof (Ha b d). pose proof (Ha a d).
  pose proof (Ht a b d). pose proof (Ht d a b). pose proof (Ht b d a).
  pose proof (Ht d b a). pose proof (Ht2 a b d).
  destruct (Z.eqb_spec (c1 a b) 0), (Z.eqb_spec (c1 b d) 0),
    (Z.eqb_spec (c1 a d) 0); simpl; lia.
Qed.

Lemma negated_antisymmetric {A : Type} (cmp : A -> A -> Z) :
  cmpAntisymmetric cmp -> cmpAntisymmetric (fun a b => - cmp a b).
Proof. intros H a b. rewrite (H a b). lia. Qed.

Lemma negated_transitive {A : Type} (cmp : A -> A -> Z) :
  cmpAntisymmetric cmp -> cmpTransitive cmp -> cmpTransitive (fun a b => - cmp a b).
Proof.
  intros Ha Ht a b d. pose proof (Ha a b). pose proof (Ha b d). pose proof (Ha a d).
  pose proof (Ht d b a). lia.
Qed.

Lemma CompareInt_transitive : cmpTransitive CompareInt.
Proof.
  intros a b c. unfold CompareInt.
  destruct (Z.ltb_spec a b), (Z.ltb_spec b a), (Z.ltb_spec b c), (Z.ltb_spec c b),
    (Z.ltb_spec a c), (Z.ltb_spec c a); lia.
Qed.

Lemma Ascii_compare_Lt_trans (x y z : ascii) :
  Ascii.compare x y = Lt -> Ascii.compare y z = Lt -> Ascii.compare x z = Lt.
Proof. unfold Ascii.compare. rewrite !N.compare_lt_iff. apply N.lt_trans. Qed.

Lemma String_compare_Lt_trans (a : string) :
  forall b c, String.compare a b = Lt -> String.compare b c = Lt ->
              String.compare a c = Lt.
Proof.
  induction a as [|x a IH]; intros [|y b] [|z c]; simpl; try discriminate; auto.
  destruct (Ascii.compare x y) eqn:Hxy; try discriminate.
  - apply Ascii.compare_eq_iff in Hxy. subst y. intros Hab.
    destruct (Ascii.compare x z); try discriminate; auto. now apply IH.
  - intros _. destruct (Ascii.compare y z) eqn:Hyz; try discriminate.
    + apply Ascii.compare_eq_iff in Hyz. subst z. now rewrite Hxy.
    + now rewrite (Ascii_compare_Lt_trans _ _ _ Hxy Hyz).
Qed.

Lemma CompareString_transitive : cmpTransitive CompareString.
Proof.
  intros a b c.
  destruct (CompareString_cases a b) as [[-> Hab]|[[-> Hab]|[-> Hab]]];
    destruct (CompareString_cases b c) as [[-> Hbc]|[[-> Hbc]|[-> Hbc]]];
    try lia; intros _ _; subst.
  - unfold CompareString. rewrite (String_compare_Lt_trans _ _ _ Hab Hbc). lia.
  - unfold CompareString. rewrite Hab. lia.
  - unfold CompareString. rewrite Hbc. lia.
  - match goal with
    | |- CompareString ?x ?x <= 0 => pose proof (CompareString_opp x x); lia
    end.
Qed.

Lemma comparePatches_lex (a b : InPlacePatch) :
  comparePatches a b
  = lexCompare (fun a b => - CompareInt (lenVulns a) (lenVulns b))
      (lexCompare (fun a b => CompareString (Name (Pkg (DependencyPatch a)))
                                            (Name (Pkg (DependencyPatch b))))
         (lexCompare (fun a b => CompareString (OrigVersion (DependencyPatch a))
                                               (OrigVersion (DependencyPatch b)))
                     (fun a b => - CompareString (NewVersion (DependencyPatch a))
                                                 (NewVersion (DependencyPatch b)))))
      a b.
Proof.
  unfold comparePatches, lexCompare.
  destruct (Z.eqb_spec (CompareInt (lenVulns a) (lenVulns b)) 0),
    (Z.eqb_spec (- CompareInt (lenVulns a) (lenVulns b)) 0); simpl; try lia;
    reflexivity.
Qed.

Lemma comparePatches_transitive : cmpTransitive comparePatches.
Proof.
  assert (Hint : cmpAntisymmetric (fun a b : InPlacePatch =>
                                     CompareInt (lenVulns a) (lenVulns b)))
    by (intros a b; apply CompareInt_opp).
  assert (Hs : forall f : InPlacePatch -> string,
             cmpAntisymmetric (fun a b => CompareString (f a) (f b))
             /\ cmpTransitive (fun a b => CompareString (f a) (f b))).
  { intros f. split.
    - intros a b. apply CompareString_opp.
    - intros a b c. apply CompareString_transitive. }
  intros a b c. rewrite !comparePatches_lex. revert a b c.
  apply lexCompare_transitive.
  - now apply negated_antisymmetric.
  - apply negated_transitive; [assumption|].
    intros a b c. apply CompareInt_transitive.
  - apply lexCompare_transitive; try apply Hs.
    apply lexCompare_transitive; try apply Hs.
    apply negated_transitive; apply Hs.
Qed.

(** ** The orchestrator *)

Section Orchestrator.

Variable sv : semver.Lib.
Variable cl : ResolutionClient.
Variable IsAffected : models.Vulnerability -> VersionKey -> bool.
Variable rangeOrder : forall A : Type, list A -> list A.

Variable opts : RemediationOptions.
Variable res : inPlaceVulnsNodesResult.
Variable cons : list (VersionKey * semver.Set_ sv).

Lemma processVuln_Ok (vk : VersionKey) (acc acc' : InPlaceResult) (rv : ResolutionVuln) :
  processVuln sv cl IsAffected opts res cons vk acc rv = Ok acc' ->
  (MatchVuln opts rv = false /\ acc' = acc)
  \/ (MatchVuln opts rv = true
      /\ Contains (AvoidPkgs opts) (vkName vk) = true
      /\ acc' = addUnfixable acc rv)
  \/ (MatchVuln opts rv = true
      /\ Contains (AvoidPkgs opts) (vkName vk) = false
      /\ findFixedVersion sv cl (PackageKey_ vk)
            (satisfies sv cl IsAffected opts res cons vk rv)
         = Err errInPlaceImpossible
      /\ acc' = addUnfixable acc rv)
  \/ (MatchVuln opts rv = true
      /\ Contains (AvoidPkgs opts) (vkName vk) = false
      /\ exists newVK,
          findFixedVersion sv cl (PackageKey_ vk)
            (satisfies sv cl IsAffected opts res cons vk rv)
          = Ok newVK
          /\ acc' = recordPatch acc
                      (mkDependencyPatch (PackageKey_ vk) (Version vk) (Version newVK))
                      rv).
Proof.
  unfold processVuln.
  destruct (MatchVuln opts rv); simpl; [|intros [= <-]; auto].
  destruct (Contains (AvoidPkgs opts) (vkName vk)); [intros [= <-]; right; left; auto|].
  destruct (findFixedVersion sv cl (PackageKey_ vk)
            (satisfies sv cl IsAffected opts res cons vk rv))
    as [newVK|[|msg]|p]; try discriminate.
  - intros [= <-]. do 3 right. repeat split; auto. exists newVK. auto.
  - intros [= <-]. right. right. left. auto.
Qed.

Lemma processVuln_keys (vk : VersionKey) (acc acc' : InPlaceResult) (rv : ResolutionVuln) :
  processVuln sv cl IsAffected opts res cons vk acc rv = Ok acc' ->
  NoDup (map DependencyPatch (Patches acc)) ->
  NoDup (map DependencyPatch (Patches acc')).
Proof.
  intros H Hnd.
  destruct (processVuln_Ok _ _ _ H)
    as [[_ ->]|[[_ [_ ->]]|[[_ [_ [_ ->]]]|[_ [_ [newVK [_ ->]]]]]]]; auto.
  now apply recordPatch_keys.
Qed.

(** An invariant of the accumulator that every step keeps holds of the
    outcome of the main loop. *)
Lemma searchPatches_inv (P : InPlaceResult -> Prop) (r : InPlaceResult) :
  P (mkInPlaceResult [] []) ->
  (forall vk vulns rv acc acc',
      In (vk, vulns) (rangeOrder (vkVulns res)) -> In rv vulns ->
      P acc -> processVuln sv cl IsAffected opts res cons vk acc rv = Ok acc' -> P acc') ->
  searchPatches sv cl IsAffected rangeOrder opts res cons = Ok r -> P r.
Proof.
  intros Hinit Hstep. unfold searchPatches. apply foldM_inv; [|assumption].
  intros acc [vk vulns] acc' Hkv Hacc. simpl. apply foldM_inv; [|assumption].
  intros a rv a' Hrv Ha Hb. eapply Hstep; eassumption.
Qed.

(** What a step establishes for its own vulnerability, and no later step
    undoes, holds of the outcome of the main loop. *)
Lemma searchPatches_reach (Q : InPlaceResult -> Prop) (r : InPlaceResult)
      (vk : VersionKey) (vulns : list ResolutionVuln) (rv : ResolutionVuln) :
  (forall vk' rv' acc acc',
      processVuln sv cl IsAffected opts res cons vk' acc rv' = Ok acc' ->
      Q acc -> Q acc') ->
  In (vk, vulns) (rangeOrder (vkVulns res)) -> In rv vulns ->
  (forall acc acc', processVuln sv cl IsAffected opts res cons vk acc rv = Ok acc' -> Q acc') ->
  searchPatches sv cl IsAffected rangeOrder opts res cons = Ok r -> Q r.
Proof.
  intros Hmono Hkv Hrv Hstep. unfold searchPatches.
  apply (@foldM_reach _ _ Q _ _ (vk, vulns)).
  - intros acc [vk' vulns'] acc' _ Hb Hacc. simpl in Hb. revert Hb.
    apply foldM_inv; [|assumption]. intros a rv' a' _ Ha Hb. eapply Hmono; eassumption.
  - assumption.
  - intros acc acc'. simpl. apply (@foldM_reach _ _ Q _ _ rv).
    + intros a rv' a' _ Hb Ha. eapply Hmono; eassumption.
    + assumption.
    + apply Hstep.
Qed.

Lemma step_keeps_unfixable (rv : ResolutionVuln) (vk' : VersionKey)
      (rv' : ResolutionVuln) (acc acc' : InPlaceResult) :
  processVuln sv cl IsAffected opts res cons vk' acc rv' = Ok acc' ->
  In rv (Unfixable acc) -> In rv (Unfixable acc').
Proof.
  intros H Hin.
  destruct (processVuln_Ok _ _ _ H)
    as [[_ ->]|[[_ [_ ->]]|[[_ [_ [_ ->]]]|[_ [_ [newVK [_ ->]]]]]]]; simpl; auto.
  - apply in_app_iff. now left.
  - apply in_app_iff. now left.
  - now rewrite recordPatch_Unfixable.
Qed.


Lemma step_fromAggregate (vk : VersionKey) (vulns : list ResolutionVuln)
      (rv : ResolutionVuln) (acc acc' : InPlaceResult) :
  In (vk, vulns) (vkVulns res) -> In rv vulns ->
  fromAggregate opts res acc -> processVuln sv cl IsAffected opts res cons vk acc rv = Ok acc' ->
  fromAggregate opts res acc'.
Proof.
  intros Hkv Hrv [Hp [Hne Hu]] H.
  destruct (processVuln_Ok _ _ _ H)
    as [[_ ->]|[[Hm [_ ->]]|[[Hm [_ [_ ->]]]|[Hm [Ha [newVK [_ ->]]]]]]].
  - repeat split; assumption.
  - repeat split; try assumption. simpl. intros rv0 Hin.
    apply in_app_iff in Hin. destruct Hin as [Hin|[<-|[]]]; eauto.
  - repeat split; try assumption. simpl. intros rv0 Hin.
    apply in_app_iff in Hin. destruct Hin as [Hin|[<-|[]]]; eauto.
  - assert (Hs : searched opts res vk rv) by (exists vulns; auto).
    repeat split.
    + intros p rv0 Hin Hrv0. apply In_recordPatch in Hin.
      destruct Hin as [Hin|[[p0 [Hp0 [Hdp ->]]] | -> ]]; simpl in *.
      * eauto.
      * apply in_app_iff in Hrv0. destruct Hrv0 as [Hrv0|[<-|[]]].
        -- destruct (Hp p0 rv0 Hp0 Hrv0) as [vk0 [Hs0 [Hpk Hv]]].
           exists vk0. rewrite Hdp in Hpk, Hv. auto.
        -- exists vk. auto.
      * destruct Hrv0 as [<-|[]]. exists vk. auto.
    + intros p Hin. apply In_recordPatch in Hin.
      destruct Hin as [Hin|[[p0 [Hp0 [Hdp ->]]] | -> ]]; simpl; auto.
      * now destruct (ResolvedVulns p0).
      * discriminate.
    + rewrite recordPatch_Unfixable. assumption.
Qed.

End Orchestrator.

Lemma Contains_In (s : list string) (v : string) : Contains s v = true <-> In v s.
Proof.
  change (Contains s v) with (ContainsFunc s (String.eqb v)).
  rewrite ContainsFunc_true. split.
  - intros [x [Hx Heq]]. apply String.eqb_eq in Heq. now subst.
  - intros H. exists v. split; [assumption | apply String.eqb_refl].
Qed.

(** ** Grouping of the fixed vulnerabilities by transition *)

Lemma updateAt_split {A : Type} (f : A -> A) (l1 : list A) (x : A) (l2 : list A) :
  updateAt (List.length l1) f (l1 ++ x :: l2) = l1 ++ f x :: l2.
Proof. induction l1 as [|y l1 IH]; simpl; [reflexivity | now rewrite IH]. Qed.

Lemma updateAt_length {A : Type} (f : A -> A) (s : list A) (i : nat) :
  List.length (updateAt i f s) = List.length s.
Proof.
  revert i. induction s as [|x s IH]; intros [|i]; simpl; try reflexivity.
  now rewrite IH.
Qed.

(** Find-or-create, exactly: the first patch of the transition gets the
    vulnerability appended and the list is otherwise as it was; when
    there is none, a patch holding the vulnerability is added at the
    end. *)
Lemma recordPatch_exact (acc : InPlaceResult) (dp : DependencyPatch_)
      (rv : ResolutionVuln) :
  (exists l1 p0 l2,
      Patches acc = l1 ++ p0 :: l2 /\ DependencyPatch p0 = dp
      /\ Patches (recordPatch acc dp rv)
         = l1 ++ mkInPlacePatch dp (ResolvedVulns p0 ++ [rv]) :: l2)
  \/ (~ In dp (map DependencyPatch (Patches acc))
      /\ Patches (recordPatch acc dp rv) = Patches acc ++ [mkInPlacePatch dp [rv]]).
Proof.
  unfold recordPatch.
  destruct (0 <=? IndexFunc _ _) eqn:Hidx; simpl.
  - left. apply Z.leb_le in Hidx.
    destruct (IndexFunc_found _ _ Hidx) as [p0 [Hnth Heq]]. simpl in Heq.
    apply DependencyPatch_eqb_eq in Heq.
    destruct (nth_error_split _ _ Hnth) as [l1 [l2 [Hl Hlen]]].
    exists l1, p0, l2. split; [assumption|]. split; [assumption|].
    rewrite <- Hlen. rewrite Hl. rewrite updateAt_split. now rewrite Heq.
  - right. apply Z.leb_gt in Hidx. split; [|reflexivity].
    intros Hin. apply in_map_iff in Hin. destruct Hin as [ipp [Hdp Hipp]].
    pose proof (IndexFunc_none _ _ Hidx ipp Hipp) as Hne. simpl in Hne.
    rewrite Hdp in Hne.
    assert (DependencyPatch_eqb dp dp = true) by now apply DependencyPatch_eqb_eq.
    congruence.
Qed.

Lemma DependencyPatch_eqb_neq (a b : DependencyPatch_) :
  a <> b -> DependencyPatch_eqb a b = false.
Proof.
  intros Hne. destruct (DependencyPatch_eqb a b) eqn:H; [|reflexivity].
  apply DependencyPatch_eqb_eq in H. contradiction.
Qed.

Section Grouping.

Variable sv : semver.Lib.
Variable cl : ResolutionClient.
Variable IsAffected : models.Vulnerability -> VersionKey -> bool.
Variable opts : RemediationOptions.
Variable res : inPlaceVulnsNodesResult.
Variable cons : list (VersionKey * semver.Set_ sv).

Lemma fixedAmong_snoc (dp : DependencyPatch_) (visited : list (VersionKey * ResolutionVuln))
      (vk : VersionKey) (rv : ResolutionVuln) :
  fixedAmong sv cl IsAffected opts res cons dp (visited ++ [(vk, rv)])
  = fixedAmong sv cl IsAffected opts res cons dp visited
    ++ (if fixes sv cl IsAffected opts res cons dp (vk, rv) then [rv] else []).
Proof.
  unfold fixedAmong. rewrite filter_app, map_app. simpl.
  destruct (fixes sv cl IsAffected opts res cons dp (vk, rv)); reflexivity.
Qed.

(** A vulnerability that no transition fixes leaves the grouping as it
    is. *)
Lemma groupsFixed_skip (visited : list (VersionKey * ResolutionVuln))
      (patches : list InPlacePatch) (vk : VersionKey) (rv : ResolutionVuln) :
  (forall dp, fixes sv cl IsAffected opts res cons dp (vk, rv) = false) ->
  groupsFixed sv cl IsAffected opts res cons visited patches ->
  groupsFixed sv cl IsAffected opts res cons (visited ++ [(vk, rv)]) patches.
Proof.
  intros Hno [Hnd [Hp Hall]]. split; [assumption|]. split.
  - intros p Hin. rewrite fixedAmong_snoc, Hno, app_nil_r. auto.
  - intros dp. rewrite fixedAmong_snoc, Hno, app_nil_r. auto.
Qed.

(** Recording a vulnerability under the transition that fixes it keeps
    the grouping. *)
Lemma groupsFixed_record (visited : list (VersionKey * ResolutionVuln))
      (acc : InPlaceResult) (vk : VersionKey) (rv : ResolutionVuln)
      (dp0 : DependencyPatch_) :
  (forall dp, fixes sv cl IsAffected opts res cons dp (vk, rv)
              = DependencyPatch_eqb dp0 dp) ->
  groupsFixed sv cl IsAffected opts res cons visited (Patches acc) ->
  groupsFixed sv cl IsAffected opts res cons (visited ++ [(vk, rv)])
              (Patches (recordPatch acc dp0 rv)).
Proof.
  intros Hfix [Hnd [Hp Hall]].
  assert (Hself : DependencyPatch_eqb dp0 dp0 = true) by now apply DependencyPatch_eqb_eq.
  destruct (recordPatch_exact acc dp0 rv)
    as [[l1 [p0 [l2 [Hl [Hdp0 ->]]]]]|[Hnew ->]].
  - (* the transition has its patch *)
    rewrite Hl in Hnd, Hp, Hall. rewrite map_app in Hnd, Hall. simpl in Hnd, Hall.
    rewrite Hdp0 in Hnd, Hall.
    assert (Hother : forall p, In p l1 \/ In p l2 -> DependencyPatch p <> dp0).
    { intros p Hin Heq. apply (NoDup_remove_2 _ _ _ Hnd).
      apply in_or_app. rewrite <- Heq.
      destruct Hin as [Hin|Hin]; [left | right]; now apply in_map. }
    split; [|split].
    + rewrite map_app. simpl. exact Hnd.
    + intros p Hin. apply in_app_iff in Hin. rewrite fixedAmong_snoc, Hfix.
      destruct Hin as [Hin|[<-|Hin]].
      * rewrite DependencyPatch_eqb_neq, app_nil_r.
        -- apply Hp. apply in_or_app. now left.
        -- intros Heq. apply (Hother p (or_introl Hin)). now symmetry.
      * simpl. rewrite Hself. split.
        -- f_equal. rewrite <- Hdp0. apply Hp. apply in_or_app. right. now left.
        -- intros Hnil. apply app_eq_nil in Hnil. destruct Hnil as [_ Hnil].
           discriminate.
      * rewrite DependencyPatch_eqb_neq, app_nil_r.
        -- apply Hp. apply in_or_app. right. now right.
        -- intros Heq. apply (Hother p (or_intror Hin)). now symmetry.
    + intros dp. rewrite fixedAmong_snoc, Hfix, map_app. simpl.
      destruct (DependencyPatch_eqb dp0 dp) eqn:Heq.
      * intros _. apply DependencyPatch_eqb_eq in Heq. subst dp.
        apply in_or_app. right. now left.
      * rewrite app_nil_r. apply Hall.
  - (* a first vulnerability for the transition *)
    split; [|split].
    + rewrite map_app. simpl. apply NoDup_snoc; assumption.
    + intros p Hin. apply in_app_iff in Hin. rewrite fixedAmong_snoc, Hfix.
      destruct Hin as [Hin|[<-|[]]].
      * rewrite DependencyPatch_eqb_neq, app_nil_r; [now apply Hp|].
        intros Heq. apply Hnew. rewrite Heq. now apply in_map.
      * simpl. rewrite Hself. split; [|discriminate].
        destruct (fixedAmong sv cl IsAffected opts res cons dp0 visited) as [|a l] eqn:Hold;
          [reflexivity|].
        exfalso. apply Hnew. apply Hall. rewrite Hold. discriminate.
    + intros dp. rewrite fixedAmong_snoc, Hfix, map_app. simpl.
      destruct (DependencyPatch_eqb dp0 dp) eqn:Heq.
      * intros _. apply DependencyPatch_eqb_eq in Heq. subst dp.
        apply in_or_app. right. now left.
      * rewrite app_nil_r. intros H. apply in_or_app. left. now apply Hall.
Qed.

(** One iteration of the loop keeps the grouping. *)
Lemma processVuln_groupsFixed (visited : list (VersionKey * ResolutionVuln))
      (vk : VersionKey) (acc acc' : InPlaceResult) (rv : ResolutionVuln) :
  processVuln sv cl IsAffected opts res cons vk acc rv = Ok acc' ->
  groupsFixed sv cl IsAffected opts res cons visited (Patches acc) ->
  groupsFixed sv cl IsAffected opts res cons (visited ++ [(vk, rv)]) (Patches acc').
Proof.
  intros Hstep Hacc.
  destruct (processVuln_Ok _ _ _ _ _ _ _ _ _ Hstep)
    as [[Hm ->]|[[Hm [Ha ->]]|[[Hm [Ha [Hf ->]]]|[Hm [Ha [newVK [Hf ->]]]]]]].
  - apply groupsFixed_skip; [|assumption]. intros dp. unfold fixes. simpl.
    now rewrite Hm.
  - apply groupsFixed_skip; [|assumption]. intros dp. unfold fixes. simpl.
    rewrite Hm, Ha. reflexivity.
  - apply groupsFixed_skip; [|assumption]. intros dp. unfold fixes. simpl.
    rewrite Hm, Ha, Hf. reflexivity.
  - apply groupsFixed_record; [|assumption]. intros dp. unfold fixes. simpl.
    rewrite Hm, Ha, Hf. reflexivity.
Qed.

Lemma processVulns_groupsFixed (vk : VersionKey) (vulns : list ResolutionVuln) :
  forall visited acc acc',
    foldM (processVuln sv cl IsAffected opts res cons vk) vulns acc = Ok acc' ->
    groupsFixed sv cl IsAffected opts res cons visited (Patches acc) ->
    groupsFixed sv cl IsAffected opts res cons (visited ++ map (pair vk) vulns)
                (Patches acc').
Proof.
  induction vulns as [|rv vulns IH]; intros visited acc acc'.
  - simpl. intros [= <-]. now rewrite app_nil_r.
  - change (foldM (processVuln sv cl IsAffected opts res cons vk) (rv :: vulns) acc)
      with (bind (processVuln sv cl IsAffected opts res cons vk acc rv)
                 (foldM (processVuln sv cl IsAffected opts res cons vk) vulns)).
    destruct (processVuln sv cl IsAffected opts res cons vk acc rv)
      as [acc1| |] eqn:H1; simpl bind; try discriminate.
    intros H Hacc. simpl map.
    change ((vk, rv) :: map (pair vk) vulns) with ([(vk, rv)] ++ map (pair vk) vulns).
    rewrite app_assoc. eapply IH; [exact H|].
    eapply processVuln_groupsFixed; eassumption.
Qed.

Lemma searchLoop_groupsFixed (kvs : list (VersionKey * list ResolutionVuln)) :
  forall visited acc acc',
    foldM (fun acc (kv : VersionKey * list ResolutionVuln) =>
             foldM (processVuln sv cl IsAffected opts res cons (fst kv)) (snd kv) acc)
          kvs acc = Ok acc' ->
    groupsFixed sv cl IsAffected opts res cons visited (Patches acc) ->
    groupsFixed sv cl IsAffected opts res cons
                (visited
                 ++ flat_map (fun kv : VersionKey * list ResolutionVuln =>
                                map (pair (fst kv)) (snd kv)) kvs)
                (Patches acc').
Proof.
  induction kvs as [|kv kvs IH]; intros visited acc acc'; simpl.
  - intros [= <-]. now rewrite app_nil_r.
  - destruct (foldM _ (snd kv) acc) as [acc1| |] eqn:H1; simpl; try discriminate.
    intros H Hacc. rewrite app_assoc. eapply IH; [exact H|].
    eapply processVulns_groupsFixed; eassumption.
Qed.

Variable rangeOrder : forall A : Type, list A -> list A.

(** The main loop groups the vulnerabilities it fixes by transition. *)
Lemma searchPatches_groupsFixed (found : InPlaceResult) :
  searchPatches sv cl IsAffected rangeOrder opts res cons = Ok found ->
  groupsFixed sv cl IsAffected opts res cons (searchOrder rangeOrder res)
              (Patches found).
Proof.
  intros Hs. unfold searchPatches in Hs.
  apply (@searchLoop_groupsFixed _ [] _ _ Hs).
  split; [constructor|]. split; [intros p []|].
  intros dp H. exfalso. apply H. reflexivity.
Qed.

End Grouping.

Section Results.

Variable sv : semver.Lib.
Variable cl : ResolutionClient.
Variable IsAffected : models.Vulnerability -> VersionKey -> bool.
Variable rangeOrder : forall A : Type, list A -> list A.
Variable graph : Graph.
Variable opts : RemediationOptions.

Lemma ComputeInPlacePatches_Ok (r : InPlaceResult) :
  ComputeInPlacePatches sv cl IsAffected rangeOrder graph opts = Ok r ->
  exists res cons found,
    inPlaceVulnsNodes cl graph = Ok res
    /\ dependentConstraints sv rangeOrder res = Ok cons
    /\ searchPatches sv cl IsAffected rangeOrder opts res cons = Ok found
    /\ r = mkInPlaceResult (SortFunc (Patches found) comparePatches) (Unfixable found).
Proof.
  unfold ComputeInPlacePatches.
  destruct (inPlaceVulnsNodes cl graph) as [res| |]; simpl; try discriminate.
  destruct (dependentConstraints sv rangeOrder res) as [cons| |] eqn:Hcons;
    simpl; try discriminate.
  destruct (searchPatches _ _ _ _ _ _ _) as [found| |] eqn:Hfound;
    simpl; try discriminate.
  intros [= <-]. exists res, cons, found. repeat split; assumption.
Qed.

(** C4: in every InPlaceResult returned by ComputeInPlacePatches no two
    patches share the same (Pkg, OrigVersion, NewVersion) triple, and a
    vulnerability fixed by a transition that already has a patch is
    appended to the ResolvedVulns of that patch rather than creating a
    second one.  Recording on a transition that has a patch leaves the
    number and the triples of the patches as they are and replaces the
    patch by one holding its vulnerabilities followed by the new one.
    Hence, in the result, the ResolvedVulns of a patch are all the
    vulnerabilities its transition fixes, in the order the loop met them,
    and every transition that fixes a vulnerability has its patch. *)
Theorem ComputeInPlacePatches_patches_distinct (r : InPlaceResult) :
  returned (ComputeInPlacePatches sv cl IsAffected rangeOrder graph opts) = Some r ->
  NoDup (map DependencyPatch (Patches r))
  /\ (forall acc dp vuln,
         In dp (map DependencyPatch (Patches acc)) ->
         map DependencyPatch (Patches (recordPatch acc dp vuln))
         = map DependencyPatch (Patches acc)
         /\ patchedBy (recordPatch acc dp vuln) dp vuln
         /\ List.length (Patches (recordPatch acc dp vuln)) = List.length (Patches acc)
         /\ exists p0,
             In p0 (Patches acc) /\ DependencyPatch p0 = dp
             /\ In (mkInPlacePatch dp (ResolvedVulns p0 ++ [vuln]))
                   (Patches (recordPatch acc dp vuln)))
  /\ (forall res cons,
         inPlaceVulnsNodes cl graph = Ok res ->
         dependentConstraints sv rangeOrder res = Ok cons ->
         (forall p, In p (Patches r) ->
                    ResolvedVulns p
                    = fixedBy sv cl IsAffected rangeOrder opts res cons
                              (DependencyPatch p))
         /\ (ComputeInPlacePatches sv cl IsAffected rangeOrder graph opts = Ok r ->
             forall dp,
               fixedBy sv cl IsAffected rangeOrder opts res cons dp <> [] ->
               exists p, In p (Patches r) /\ DependencyPatch p = dp)).
Proof.
  intros Hr. split; [|split].
  - destruct (ComputeInPlacePatches sv cl IsAffected rangeOrder graph opts)
      as [r0|e|p] eqn:Hc; simpl in Hr; [| |discriminate];
      injection Hr as <-; [|constructor].
    destruct (ComputeInPlacePatches_Ok Hc) as [res [cons [found [_ [_ [Hs ->]]]]]].
    simpl. eapply Permutation_NoDup.
    + apply Permutation_map. symmetry. apply SortFunc_Permutation.
    + revert Hs. apply (@searchPatches_inv sv cl IsAffected rangeOrder opts res cons
                          (fun acc => NoDup (map DependencyPatch (Patches acc)))).
      * constructor.
      * intros vk vulns rv acc acc' _ _ Hacc Hstep.
        eapply processVuln_keys; eassumption.
  - intros acc dp vuln Hin.
    destruct (recordPatch_exact acc dp vuln)
      as [[l1 [p0 [l2 [Hl [Hdp Hrec]]]]]|[Hnew _]]; [|contradiction].
    split; [|split; [apply recordPatch_patchedBy|split]].
    + rewrite Hrec, Hl, !map_app. simpl. now rewrite Hdp.
    + rewrite Hrec, Hl, !length_app. reflexivity.
    + exists p0. split; [rewrite Hl; apply in_or_app; right; now left|].
      split; [assumption|]. rewrite Hrec. apply in_or_app. right. now left.
  - intros res cons Hres Hcons.
    destruct (ComputeInPlacePatches sv cl IsAffected rangeOrder graph opts)
      as [r0|e|p] eqn:Hc; simpl in Hr; [| |discriminate]; injection Hr as <-.
    + destruct (ComputeInPlacePatches_Ok Hc)
        as [res' [cons' [found [Hres' [Hcons' [Hs ->]]]]]].
      rewrite Hres in Hres'. injection Hres' as <-.
      rewrite Hcons in Hcons'. injection Hcons' as <-.
      destruct (@searchPatches_groupsFixed _ _ _ _ _ _ _ _ Hs) as [_ [Hp Hall]]. simpl. split.
      * intros p Hin.
        apply (Permutation_in p (SortFunc_Permutation comparePatches (Patches found)))
          in Hin.
        apply Hp. assumption.
      * intros _ dp Hdp. apply Hall in Hdp. apply in_map_iff in Hdp.
        destruct Hdp as [p [Hpdp Hin]]. exists p. split; [|assumption].
        eapply Permutation_in; [symmetry; apply SortFunc_Permutation | assumption].
    + simpl. split; [intros p [] | discriminate].
Qed.

(** C5: in every InPlaceResult returned by ComputeInPlacePatches, of any
    two adjacent patches the earlier one resolves at least as many
    vulnerabilities, ties broken ascending by package name, then ascending
    by original version compared lexically, then descending by new
    version. *)
Theorem ComputeInPlacePatches_patches_ranked (r : InPlaceResult) (a b : InPlacePatch) :
  returned (ComputeInPlacePatches sv cl IsAffected rangeOrder graph opts) = Some r ->
  adjacent (Patches r) a b ->
  rankedBefore a b.
Proof.
  destruct (ComputeInPlacePatches sv cl IsAffected rangeOrder graph opts)
    as [r0|e|p] eqn:Hc; simpl; intros [= <-].
  - destruct (ComputeInPlacePatches_Ok Hc) as [res [cons [found [_ [_ [_ ->]]]]]].
    simpl. intros Hadj. apply comparePatches_ranked.
    eapply SortFunc_adjacent; [apply comparePatches_consistent | eassumption].
  - intros [l1 [l2 H]]. simpl in H. destruct l1; discriminate.
Qed.

(** The ranking holds between any two patches of the list, not only
    adjacent ones. *)
Lemma ComputeInPlacePatches_patches_sorted (r : InPlaceResult) :
  returned (ComputeInPlacePatches sv cl IsAffected rangeOrder graph opts) = Some r ->
  StronglySorted rankedBefore (Patches r).
Proof.
  destruct (ComputeInPlacePatches sv cl IsAffected rangeOrder graph opts)
    as [r0|e|p] eqn:Hc; simpl; intros [= <-]; [|constructor].
  destruct (ComputeInPlacePatches_Ok Hc) as [res [cons [found [_ [_ [_ ->]]]]]].
  simpl.
  pose proof (SortFunc_rev_descending (Patches found)
                comparePatches_consistent comparePatches_transitive) as Hd.
  unfold descending in Hd.
  set (l := SortFunc (Patches found) comparePatches) in *. clearbody l.
  rewrite <- (rev_involutive l). revert Hd. generalize (rev l). clear.
  induction l as [|x l IH]; intros Hd; simpl; [constructor|].
  inversion Hd as [|? ? Hl Hx]; subst. specialize (IH Hl).
  assert (Happ : forall l1, StronglySorted rankedBefore l1 ->
                            Forall (fun y => rankedBefore y x) l1 ->
                            StronglySorted rankedBefore (l1 ++ [x])).
  { induction l1 as [|y l1 IH1]; intros Hs HF; simpl.
    - repeat constructor.
    - inversion Hs; subst. inversion HF; subst. constructor; [auto|].
      apply Forall_app. split; [assumption|]. constructor; [assumption | constructor]. }
  apply Happ; [assumption|].
  apply Forall_forall. intros y Hy. apply comparePatches_ranked.
  rewrite Forall_forall in Hx. apply Hx. now apply in_rev.
Qed.

Hypothesis rangeOrder_visits_all : forall (A : Type) (l : list A), Permutation (rangeOrder l) l.

(** C6 (amended): when the call succeeds, every vulnerability of a package
    in AvoidPkgs that passes the vulnerability filter of the options
    appears in Unfixable, and no patch changes a package in AvoidPkgs:
    every vulnerability a patch resolves is one of the version key the
    patch changes, for which the search was run. *)
Theorem ComputeInPlacePatches_avoided (res : inPlaceVulnsNodesResult) (r : InPlaceResult) :
  inPlaceVulnsNodes cl graph = Ok res ->
  ComputeInPlacePatches sv cl IsAffected rangeOrder graph opts = Ok r ->
  (forall vk vulns rv,
      In (vk, vulns) (vkVulns res) -> In rv vulns ->
      In (vkName vk) (AvoidPkgs opts) -> MatchVuln opts rv = true ->
      In rv (Unfixable r))
  /\ (forall p,
         In p (Patches r) ->
         ~ In (Name (Pkg (DependencyPatch p))) (AvoidPkgs opts)
         /\ forall rv, In rv (ResolvedVulns p) ->
                       exists vk, searched opts res vk rv
                                  /\ PackageKey_ vk = Pkg (DependencyPatch p)
                                  /\ Version vk = OrigVersion (DependencyPatch p)).
Proof.
  intros Hres Hc.
  destruct (ComputeInPlacePatches_Ok Hc) as [res' [cons [found [Hres' [_ [Hs ->]]]]]].
  rewrite Hres in Hres'. injection Hres' as <-. simpl. split.
  - intros vk vulns rv Hkv Hrv Havoid Hmatch.
    apply Contains_In in Havoid. revert Hs.
    apply (@searchPatches_reach sv cl IsAffected rangeOrder opts res cons
             (fun acc => In rv (Unfixable acc)) found vk vulns rv).
    + intros vk' rv' acc acc'. apply step_keeps_unfixable.
    + eapply Permutation_in; [symmetry; apply rangeOrder_visits_all | assumption].
    + assumption.
    + intros acc acc' Hstep.
      destruct (processVuln_Ok _ _ _ _ _ _ _ _ _ Hstep)
        as [[Hm _]|[[_ [_ ->]]|[[_ [Ha _]]|[_ [Ha _]]]]]; try congruence.
      simpl. apply in_app_iff. right. now left.
  - assert (Hagg : fromAggregate opts res found).
    { revert Hs. apply searchPatches_inv.
      - repeat split; simpl; intros; contradiction.
      - intros vk vulns rv acc acc' Hkv Hrv Hacc Hstep.
        eapply step_fromAggregate; try eassumption.
        eapply Permutation_in; [apply rangeOrder_visits_all | assumption]. }
    destruct Hagg as [Hp [Hne _]].
    intros p Hin.
    apply (Permutation_in p (SortFunc_Permutation comparePatches (Patches found))) in Hin.
    split; [|intros rv Hrv; eauto].
    destruct (ResolvedVulns p) as [|rv l] eqn:Hl; [exfalso; eapply Hne; eassumption|].
    destruct (Hp p rv Hin) as [vk [[vulns [_ [_ [_ Ha]]]] [Hpk _]]];
      [rewrite Hl; now left|].
    intros Havoid. apply Contains_In in Havoid.
    unfold vkName in Ha. rewrite Hpk in Ha. congruence.
Qed.

(** Every vulnerability of a result, unfixable or resolved by a patch, is
    a record of the aggregate. *)
Lemma ComputeInPlacePatches_from_aggregate (res : inPlaceVulnsNodesResult)
      (r : InPlaceResult) :
  inPlaceVulnsNodes cl graph = Ok res ->
  ComputeInPlacePatches sv cl IsAffected rangeOrder graph opts = Ok r ->
  forall rv,
    In rv (Unfixable r) \/ (exists p, In p (Patches r) /\ In rv (ResolvedVulns p)) ->
    exists vk vulns, In (vk, vulns) (vkVulns res) /\ In rv vulns.
Proof.
  intros Hres Hc.
  destruct (ComputeInPlacePatches_Ok Hc) as [res' [cons [found [Hres' [_ [Hs ->]]]]]].
  rewrite Hres in Hres'. injection Hres' as <-.
  assert (Hagg : fromAggregate opts res found).
  { revert Hs. apply searchPatches_inv.
    - repeat split; simpl; intros; contradiction.
    - intros vk vulns rv acc acc' Hkv Hrv Hacc Hstep.
      eapply step_fromAggregate; try eassumption.
      eapply Permutation_in; [apply rangeOrder_visits_all | assumption]. }
  destruct Hagg as [Hp [_ Hu]]. simpl. intros rv [Hin|[p [Hin Hrv]]].
  - destruct (Hu rv Hin) as [vk [vulns [Hkv [Hrv _]]]]. eauto.
  - apply (Permutation_in p (SortFunc_Permutation comparePatches (Patches found))) in Hin.
    destruct (Hp p rv Hin Hrv) as [vk [[vulns [Hkv [Hrv' _]]] _]]. eauto.
Qed.

End Results.

(** ** Errors of the candidate search *)

Section SearchErrors.

Variable sv : semver.Lib.
Variable cl : ResolutionClient.
Variable IsAffected : models.Vulnerability -> VersionKey -> bool.
Variable rangeOrder : forall A : Type, list A -> list A.
Variable graph : Graph.
Variable opts : RemediationOptions.

(** A failed requirements fetch or constraint parse rejects the candidate. *)
Lemma nodesSatisfied_neverErr (res : inPlaceVulnsNodesResult) (newVK : VersionKey)
      (nIDs : list NodeID) :
  neverErr (nodesSatisfied sv cl res newVK nIDs).
Proof.
  induction nIDs as [|nID nIDs IH]; simpl; intros e.
  - discriminate.
  - destruct (dependenciesSatisfied sv cl newVK _) as [[|]| |]; try discriminate.
    apply IH.
Qed.

Lemma satisfies_neverErr (res : inPlaceVulnsNodesResult)
      (cons : list (VersionKey * semver.Set_ sv)) (vk : VersionKey)
      (rv : ResolutionVuln) (newVK : VersionKey) :
  neverErr (satisfies sv cl IsAffected opts res cons vk rv newVK).
Proof.
  unfold satisfies. intros e.
  destruct (negb (AllowMajor opts) && _); [discriminate|].
  destruct (semver.SetMatch sv _ _) as [msg|[|]]; try discriminate.
  apply bind_neverErr; [apply nodesSatisfied_neverErr|].
  intros [|] _ e'; discriminate.
Qed.

Lemma scanVersions_Err (f : VersionKey -> result bool) (l : list Version_) (e : error) :
  (forall vk, neverErr (f vk)) ->
  scanVersions f l = Err e -> e = errInPlaceImpossible.
Proof.
  intros Hf. induction l as [|v l IH]; simpl.
  - intros [= <-]. reflexivity.
  - destruct (VersionType_eqb _ Concrete); [|assumption].
    destruct (f (VersionKey_ v)) as [[|]|e'|p] eqn:Hfv; simpl; try discriminate.
    + assumption.
    + intros _. exfalso. exact (Hf _ e' Hfv).
Qed.

(** The only error of the search besides the impossible one is that of
    the version listing. *)
Lemma findFixedVersion_Err (pk : PackageKey) (f : VersionKey -> result bool) (e : error) :
  (forall vk, neverErr (f vk)) ->
  findFixedVersion sv cl pk f = Err e ->
  e = errInPlaceImpossible
  \/ exists msg, Versions cl pk = inl msg /\ e = errExternal msg.
Proof.
  intros Hf. unfold findFixedVersion.
  destruct (Versions cl pk) as [msg|vers]; simpl.
  - intros [= <-]. right. eauto.
  - intros H. left. eapply scanVersions_Err; eassumption.
Qed.

Lemma findFixedVersion_listing_fails (pk : PackageKey) (f : VersionKey -> result bool)
      (msg : extError) :
  Versions cl pk = inl msg -> findFixedVersion sv cl pk f = Err (errExternal msg).
Proof. intros H. unfold findFixedVersion. now rewrite H. Qed.

Variable res : inPlaceVulnsNodesResult.
Variable cons : list (VersionKey * semver.Set_ sv).

Lemma processVuln_Err (vk : VersionKey) (acc : InPlaceResult) (rv : ResolutionVuln)
      (e : error) :
  processVuln sv cl IsAffected opts res cons vk acc rv = Err e ->
  MatchVuln opts rv = true
  /\ Contains (AvoidPkgs opts) (vkName vk) = false
  /\ exists msg, Versions cl (PackageKey_ vk) = inl msg /\ e = errExternal msg.
Proof.
  unfold processVuln.
  destruct (MatchVuln opts rv); simpl; [|discriminate].
  destruct (Contains (AvoidPkgs opts) (vkName vk)); [discriminate|].
  destruct (findFixedVersion _ _ _ _) as [newVK|e'|p] eqn:Hf; try discriminate.
  destruct (findFixedVersion_Err _ _ (satisfies_neverErr res cons vk rv) Hf)
    as [->|[msg [Hv ->]]]; [discriminate|].
  intros [= <-]. eauto.
Qed.

Hypothesis rangeOrder_visits_all : forall (A : Type) (l : list A), Permutation (rangeOrder l) l.


End SearchErrors.

(** ** The model at work *)

Import Fixtures.

Lemma declarationOrder_visits_all (A : Type) (l : list A) :
  Permutation (declarationOrder l) l.
Proof. apply Permutation_refl. Qed.

Lemma toyCompare_consistent (s : System) : cmpConsistent (semver.Compare toySemver s).
Proof.
  intros a b. simpl. unfold CompareInt.
  destruct (Z.ltb_spec (versionRank a) (versionRank b));
    destruct (Z.ltb_spec (versionRank b) (versionRank a)); lia.
Qed.

Lemma toyCompare_transitive (s : System) : cmpTransitive (semver.Compare toySemver s).
Proof.
  intros a b c. simpl. unfold CompareInt.
  destruct (Z.ltb_spec (versionRank a) (versionRank b));
    destruct (Z.ltb_spec (versionRank b) (versionRank a));
    destruct (Z.ltb_spec (versionRank b) (versionRank c));
    destruct (Z.ltb_spec (versionRank c) (versionRank b));
    destruct (Z.ltb_spec (versionRank a) (versionRank c));
    destruct (Z.ltb_spec (versionRank c) (versionRank a)); lia.
Qed.

Lemma resA_aggregate : inPlaceVulnsNodes clientA graphA = Ok resA.
Proof. vm_compute. reflexivity. Qed.

Lemma consA_constraints : dependentConstraints toySemver declarationOrder resA = Ok consA.
Proof. vm_compute. reflexivity. Qed.

(** Scenario A: B is bumped from 1.0.0 to 1.1.0; 2.0.0 is a major bump. *)
Example scenario_A :
  ComputeInPlacePatches toySemver clientA affected declarationOrder graphA optsMinor
  = Ok (mkInPlaceResult
          [mkInPlacePatch (mkDependencyPatch (pkg "B") "1.0.0" "1.1.0") [rvB]] []).
Proof. vm_compute. reflexivity. Qed.

(** Scenario D: both vulnerabilities of D are resolved by one patch, which
    is ranked before the patch of B. *)
Example scenario_D :
  map (fun p => (DependencyPatch p,
                 map (fun rv => models.ID (Vulnerability rv)) (ResolvedVulns p)))
      (Patches resultD)
  = [(mkDependencyPatch (pkg "D") "1.0.0" "3.0.0", ["OSV-D-1"; "OSV-D-2"]);
     (mkDependencyPatch (pkg "B") "1.0.0" "1.1.0", ["OSV-B-1"])].
Proof. vm_compute. reflexivity. Qed.

Lemma resultD_returned :
  returned (ComputeInPlacePatches toySemver clientD affected declarationOrder
                                  graphD optsMajor) = Some resultD.
Proof. vm_compute. reflexivity. Qed.

(** *** C1 *)



(** *** C2 *)

(** On the chain of B, DirectDependency is A as the project requires it,
    not B as A requires it; EndDependency is the latter. *)
Lemma views_not_as_worded :
  DirectDependency chainA = Ok (concrete "A" "1.0.0", "1.0.0")
  /\ DirectDependency_spec chainA = Ok (concrete "B" "1.0.0", "^1.0.0")
  /\ DirectDependency chainA <> DirectDependency_spec chainA
  /\ EndDependency chainA <> EndDependency_spec chainA.
Proof. vm_compute. repeat split; discriminate. Qed.

Lemma DependencyChain_views_witness :
  ChainEdges chainA = edge 1 2 "^1.0.0" :: [edge 0 1 "1.0.0"]
  /\ DirectDependency chainA = viewOf chainA (edge 0 1 "1.0.0")
  /\ EndDependency chainA = viewOf chainA (edge 1 2 "^1.0.0").
Proof.
  split; [reflexivity|].
  apply (@DependencyChain_views chainA (edge 1 2 "^1.0.0") [edge 0 1 "1.0.0"]).
  reflexivity.
Defined.

(** *** C3 *)

(** Of the releases 9.0.0, 10.0.0 and 2.0.0 of E the search returns
    10.0.0, which a lexical order would place below 9.0.0; the
    requirement 11.0.0 is not a concrete version. *)
Lemma findFixedVersion_highest_witness :
  cmpConsistent (semver.Compare toySemver NPM)
  /\ cmpTransitive (semver.Compare toySemver NPM)
  /\ findFixedVersion toySemver clientA (pkg "E") (fun vk => Ok true)
     = Ok (concrete "E" "10.0.0")
  /\ forall w, In w [released "E" "9.0.0"; mkVersion (required "E" "11.0.0");
                     released "E" "10.0.0"; released "E" "2.0.0"] ->
               VersionType_ (VersionKey_ w) = Concrete ->
               semver.Compare toySemver NPM (Version (VersionKey_ w)) "10.0.0" <= 0.
Proof.
  split; [apply toyCompare_consistent|]. split; [apply toyCompare_transitive|].
  pose proof (@findFixedVersion_highest
                toySemver clientA (pkg "E") (fun _ => true)
                [released "E" "9.0.0"; mkVersion (required "E" "11.0.0");
                 released "E" "10.0.0"; released "E" "2.0.0"]
                (toyCompare_consistent NPM) (toyCompare_transitive NPM) eq_refl) as H.
  assert (Hsys : forall v, In v [released "E" "9.0.0"; mkVersion (required "E" "11.0.0");
                                 released "E" "10.0.0"; released "E" "2.0.0"] ->
                           vkSystem (VersionKey_ v) = System_ (pkg "E")).
  { intros v [<-|[<-|[<-|[<-|[]]]]]; reflexivity. }
  specialize (H Hsys).
  assert (Hrun : findFixedVersion toySemver clientA (pkg "E") (fun vk => Ok true)
                 = Ok (concrete "E" "10.0.0")) by (vm_compute; reflexivity).
  cbv beta in H. rewrite Hrun in H. split; [exact Hrun|].
  destruct H as [v [_ [_ [_ [_ Hmax]]]]].
  intros w Hw Hc. apply Hmax; auto.
Defined.

(** *** C4 and C5 *)

(** Scenario D: the two vulnerabilities of D are fixed by the same
    transition and are both in its one patch. *)
Lemma ComputeInPlacePatches_patches_distinct_witness :
  returned (ComputeInPlacePatches toySemver clientD affected declarationOrder
                                  graphD optsMajor) = Some resultD
  /\ NoDup (map DependencyPatch (Patches resultD))
  /\ exists p,
      In p (Patches resultD)
      /\ DependencyPatch p = mkDependencyPatch (pkg "D") "1.0.0" "3.0.0"
      /\ map (fun rv => models.ID (Vulnerability rv)) (ResolvedVulns p)
         = ["OSV-D-1"; "OSV-D-2"].
Proof.
  assert (Hrun : ComputeInPlacePatches toySemver clientD affected declarationOrder
                                       graphD optsMajor = Ok resultD)
    by (vm_compute; reflexivity).
  assert (Hres : inPlaceVulnsNodes clientD graphD = Ok resD)
    by (vm_compute; reflexivity).
  assert (Hcons : dependentConstraints toySemver declarationOrder resD = Ok consD)
    by (vm_compute; reflexivity).
  destruct (@ComputeInPlacePatches_patches_distinct
              toySemver clientD affected declarationOrder graphD optsMajor resultD
              resultD_returned) as [Hnd [_ Hgroups]].
  destruct (Hgroups resD consD Hres Hcons) as [Hexact Hall].
  split; [exact resultD_returned|]. split; [exact Hnd|].
  destruct (Hall Hrun (mkDependencyPatch (pkg "D") "1.0.0" "3.0.0")) as [p [Hin Hdp]];
    [vm_compute; discriminate|].
  exists p. split; [exact Hin|]. split; [exact Hdp|].
  rewrite (Hexact p Hin), Hdp. vm_compute. reflexivity.
Defined.

Lemma ComputeInPlacePatches_patches_ranked_witness :
  exists a b,
    Patches resultD = [a; b]
    /\ returned (ComputeInPlacePatches toySemver clientD affected declarationOrder
                                       graphD optsMajor) = Some resultD
    /\ adjacent (Patches resultD) a b
    /\ rankedBefore a b.
Proof.
  do 2 eexists. split; [reflexivity|]. split; [exact resultD_returned|].
  assert (Hadj : forall a b : InPlacePatch, adjacent [a; b] a b)
    by (intros a b; exists [], []; reflexivity).
  split; [apply Hadj|].
  eapply (@ComputeInPlacePatches_patches_ranked
            toySemver clientD affected declarationOrder graphD optsMajor resultD);
    [exact resultD_returned | apply Hadj].
Defined.

(** *** C6 *)

(** B is in AvoidPkgs and vulnerable, the filter of the options rejects
    the vulnerability: it is not reported unfixable. *)
Lemma avoided_filtered_not_unfixable :
  inPlaceVulnsNodes clientA graphA = Ok resA
  /\ In (concrete "B" "1.0.0", [rvB]) (vkVulns resA)
  /\ In (vkName (concrete "B" "1.0.0")) (AvoidPkgs optsAvoidBFiltered)
  /\ exists r,
      ComputeInPlacePatches toySemver clientA affected declarationOrder
                            graphA optsAvoidBFiltered = Ok r
      /\ ~ In rvB (Unfixable r).
Proof.
  split; [exact resA_aggregate|]. split; [now left|]. split; [now left|].
  eexists. split; [vm_compute; reflexivity|]. intros [].
Qed.

Lemma ComputeInPlacePatches_avoided_witness :
  (forall (A : Type) (l : list A), Permutation (declarationOrder l) l)
  /\ inPlaceVulnsNodes clientA graphA = Ok resA
  /\ ComputeInPlacePatches toySemver clientA affected declarationOrder
                           graphA optsAvoidB = Ok resultAvoidB
  /\ In rvB (Unfixable resultAvoidB).
Proof.
  assert (Hrun : ComputeInPlacePatches toySemver clientA affected declarationOrder
                                       graphA optsAvoidB = Ok resultAvoidB)
    by (vm_compute; reflexivity).
  split; [exact declarationOrder_visits_all|].
  split; [exact resA_aggregate|]. split; [exact Hrun|].
  refine (proj1 (@ComputeInPlacePatches_avoided
                   toySemver clientA affected declarationOrder graphA optsAvoidB
                   declarationOrder_visits_all resA resultAvoidB resA_aggregate Hrun)
                (concrete "B" "1.0.0") [rvB] rvB _ _ _ _).
  - now left.
  - now left.
  - now left.
  - reflexivity.
Defined.

(** *** C7 *)

(** The project and A depend on each other: the chain computed for the
    root node leaves the root and comes back to it. *)
Lemma root_chain_revisits_root :
  exists c,
    ComputeChains graphCycle [0%nat] = Ok [[c]]
    /\ visitedNodes (ChainEdges c) = [0; 1; 0]%nat
    /\ ~ NoDup (visitedNodes (ChainEdges c)).
Proof.
  eexists. split; [vm_compute; reflexivity|]. split; [reflexivity|].
  simpl. intros H. inversion H as [|? ? Hnotin _]; subst.
  apply Hnotin. right. now left.
Qed.

Lemma ComputeChains_chains_acyclic_witness :
  exists all,
    ComputeChains graphA [2%nat] = Ok all
    /\ Forall2 (fun t chains =>
                  Forall (fun c => wellFormedChain graphA t c
                                   /\ (t <> 0%nat -> NoDup (visitedNodes (ChainEdges c))))
                         chains)
               [2%nat] all.
Proof. exact (ComputeChains_chains_acyclic graphA [2%nat]). Defined.

(** *** C10 *)

Lemma inPlaceVulnsNodes_DevOnly_false_witness :
  inPlaceVulnsNodes clientA graphA = Ok resA /\ DevOnly rvB = false.
Proof.
  split; [exact resA_aggregate|].
  apply (@inPlaceVulnsNodes_DevOnly_false clientA graphA resA resA_aggregate
           (concrete "B" "1.0.0") [rvB] rvB); now left.
Defined.

(** *** C8 *)

(** Removing an optional dependency that is neither installed nor among
    the regular dependencies passes the index -1 to [slices.Delete]. *)
Lemma dropMissingOptional_absent (children deps : list VersionKey) (optVk : VersionKey) :
  (forall c, In c children -> vkName c <> vkName optVk) ->
  (forall d, In d deps -> vkName d <> vkName optVk) ->
  dropMissingOptional children deps optVk = Panic SliceBoundsOutOfRange.
Proof.
  intros Hc Hd. unfold dropMissingOptional.
  assert (Hcf : ContainsFunc children
                  (fun vk => String.eqb (vkName vk) (vkName optVk)) = false).
  { apply ContainsFunc_false. intros c Hin. apply String.eqb_neq. auto. }
  rewrite Hcf. simpl.
  assert (Hidx : IndexFunc deps (fun vk => String.eqb (vkName vk) (vkName optVk)) = -1).
  { unfold IndexFunc.
    destruct (indexFrom_range (fun vk => String.eqb (vkName vk) (vkName optVk)) deps 0)
      as [H|H]; [assumption|].
    destruct (@IndexFunc_found _ deps
                (fun vk => String.eqb (vkName vk) (vkName optVk))) as [d [Hnth Heq]].
    - unfold IndexFunc. lia.
    - apply String.eqb_eq in Heq. exfalso. apply (Hd d); [|assumption].
      eapply nth_error_In; eassumption. }
  rewrite Hidx. reflexivity.
Qed.

(** When the dependency is among the regular ones the removal succeeds. *)
Lemma dropMissingOptional_present (children deps : list VersionKey) (optVk : VersionKey) :
  (exists d, In d deps /\ vkName d = vkName optVk) ->
  exists deps', dropMissingOptional children deps optVk = Ok deps'.
Proof.
  intros [d [Hd Hname]]. unfold dropMissingOptional.
  destruct (negb _); [|eauto].
  set (f := fun vk => String.eqb (vkName vk) (vkName optVk)).
  assert (Hc : ContainsFunc deps f = true).
  { apply ContainsFunc_true. exists d. split; [assumption|].
    unfold f. now apply String.eqb_eq. }
  unfold ContainsFunc in Hc. apply Z.leb_le in Hc.
  destruct (indexFrom_range f deps 0) as [H|H]; [unfold IndexFunc in Hc; lia|].
  unfold Delete. fold (IndexFunc deps f) in H.
  replace ((0 <=? IndexFunc deps f) && (IndexFunc deps f <=? IndexFunc deps f + 1)
           && (IndexFunc deps f + 1 <=? Z.of_nat (List.length deps))) with true; [eauto|].
  symmetry. rewrite !andb_true_iff, !Z.leb_le. lia.
Qed.

Lemma dropMissingOptional_incl (children deps deps' : list VersionKey)
      (optVk : VersionKey) :
  dropMissingOptional children deps optVk = Ok deps' -> incl deps' deps.
Proof.
  unfold dropMissingOptional, Delete.
  destruct (negb _); [|intros [= <-]; apply incl_refl].
  destruct (_ && _); [|discriminate].
  intros [= <-] d Hd. apply in_app_iff in Hd. destruct Hd as [Hd|Hd].
  - rewrite <- (firstn_skipn (Z.to_nat (IndexFunc deps
        (fun vk => String.eqb (vkName vk) (vkName optVk)))) deps).
    apply in_or_app. now left.
  - rewrite <- (firstn_skipn (Z.to_nat (IndexFunc deps
        (fun vk => String.eqb (vkName vk) (vkName optVk)) + 1)) deps).
    apply in_or_app. now right.
Qed.

Lemma dropMissingOptional_neverErr (children deps : list VersionKey) (optVk : VersionKey) :
  neverErr (dropMissingOptional children deps optVk).
Proof.
  intros e. unfold dropMissingOptional, Delete.
  destruct (negb _); [|discriminate]. destruct (_ && _); discriminate.
Qed.

(** The removal loop panics as soon as one optional dependency is neither
    installed nor among the regular dependencies. *)
Lemma dropMissingOptional_loop_panics (children : list VersionKey) (optVk : VersionKey)
      (optDeps : list VersionKey) :
  In optVk optDeps ->
  (forall c, In c children -> vkName c <> vkName optVk) ->
  forall deps,
    (forall d, In d deps -> vkName d <> vkName optVk) ->
    exists p, foldM (dropMissingOptional children) optDeps deps = Panic p.
Proof.
  intros Hin Hc. induction optDeps as [|x optDeps IH]; [contradiction|].
  intros deps Hd. simpl.
  destruct (dropMissingOptional children deps x) as [deps'|e|p] eqn:Hx; simpl.
  - destruct Hin as [->|Hin].
    + rewrite (dropMissingOptional_absent _ _ _ Hc Hd) in Hx. discriminate.
    + apply IH; [assumption|]. intros d Hdin. apply Hd.
      eapply dropMissingOptional_incl; eassumption.
  - exfalso. eapply dropMissingOptional_neverErr. eassumption.
  - eauto.
Qed.

(** Whatever the semver library and the client: a requirements response
    with an optional requirement whose package is neither installed nor
    listed among the regular requirements makes the check panic. *)
Lemma dependenciesSatisfied_unlisted_optional_panics
      (sv : semver.Lib) (cl : ResolutionClient) (vk : VersionKey)
      (children : list VersionKey) (reqs : list RequirementVersion) (optVk : VersionKey) :
  Requirements cl vk = inr reqs ->
  In optVk (snd (splitRequirements reqs)) ->
  (forall c, In c children -> vkName c <> vkName optVk) ->
  (forall d, In d (fst (splitRequirements reqs)) -> vkName d <> vkName optVk) ->
  exists p, dependenciesSatisfied sv cl vk children = Panic p.
Proof.
  intros Hreqs Hopt Hc Hd. unfold dependenciesSatisfied. rewrite Hreqs. simpl.
  destruct (splitRequirements reqs) as [deps optDeps]. simpl in *.
  destruct (dropMissingOptional_loop_panics children optVk optDeps Hopt Hc deps Hd)
    as [p ->].
  simpl. eauto.
Qed.

Lemma checkDeps_never_panics (sv : semver.Lib) (sys : System)
      (children deps : list VersionKey) (p : panic) :
  checkDeps sv sys children deps <> Panic p.
Proof.
  induction deps as [|d deps IH]; simpl; [discriminate|].
  destruct (semver.ParseConstraint sv sys _); simpl; [discriminate|].
  destruct (existsb _ children); [assumption | discriminate].
Qed.

(** Without optional requirements the check returns a (bool, error)
    result. *)
Lemma dependenciesSatisfied_without_optional
      (sv : semver.Lib) (cl : ResolutionClient) (vk : VersionKey)
      (children : list VersionKey) (p : panic) :
  (forall reqs, Requirements cl vk = inr reqs -> snd (splitRequirements reqs) = []) ->
  dependenciesSatisfied sv cl vk children <> Panic p.
Proof.
  intros Hnone. unfold dependenciesSatisfied.
  destruct (Requirements cl vk) as [msg|reqs] eqn:Hreqs; simpl; [discriminate|].
  specialize (Hnone reqs eq_refl).
  destruct (splitRequirements reqs) as [deps optDeps]. simpl in Hnone. subst optDeps.
  simpl. apply checkDeps_never_panics.
Qed.

(** C8: a requirements response that lists an optional dependency once,
    as optional, with no child of that name installed, makes
    dependenciesSatisfied panic, and with it the whole computation. *)
Theorem dependenciesSatisfied_lone_optional_panics :
  Requirements clientOptionalOnly (concrete "B" "1.1.0")
  = inr [mkRequirementVersion (required "X" "^1.0.0") optional]
  /\ dependenciesSatisfied toySemver clientOptionalOnly (concrete "B" "1.1.0") []
     = Panic SliceBoundsOutOfRange
  /\ ComputeInPlacePatches toySemver clientOptionalOnly affected declarationOrder
                           graphA optsMinor
     = Panic SliceBoundsOutOfRange.
Proof. repeat split; vm_compute; reflexivity. Qed.

(** *** C9 *)

Lemma buildConstraintSet_empty (sv : semver.Lib) (sys : System) :
  buildConstraintSet sv sys [] = Panic IndexOutOfRange.
Proof. reflexivity. Qed.

Lemma collectRequirements_chainless (vulns : list ResolutionVuln) :
  (forall rv, In rv vulns -> ProblemChains rv = []) ->
  collectRequirements vulns = Ok [].
Proof.
  unfold collectRequirements. induction vulns as [|rv vulns IH]; intros H; simpl.
  - reflexivity.
  - rewrite (H rv) by now left. simpl. apply IH. intros rv' Hin. apply H. now right.
Qed.

Lemma foldM_panics {A B} (body : B -> A -> result B) (s : list A) (x : A) :
  (forall acc y, neverErr (body acc y)) ->
  In x s ->
  (forall acc, exists p, body acc x = Panic p) ->
  forall acc, exists p, foldM body s acc = Panic p.
Proof.
  intros Hne. induction s as [|y s IH]; intros Hin Hx acc; [contradiction|].
  simpl. destruct (body acc y) as [acc'|e|p] eqn:Hy; simpl.
  - destruct Hin as [->|Hin]; [|auto].
    destruct (Hx acc) as [p Hp]. congruence.
  - exfalso. exact (Hne acc y e Hy).
  - eauto.
Qed.

(** Whatever the collaborators: when all the records of some vulnerable
    version key are without a problem chain, building the constraint sets
    panics, and so does the whole computation. *)
Lemma ComputeInPlacePatches_chainless_panics
      (sv : semver.Lib) (cl : ResolutionClient)
      (IsAffected : models.Vulnerability -> VersionKey -> bool)
      (rangeOrder : forall A : Type, list A -> list A)
      (graph : Graph) (opts : RemediationOptions)
      (res : inPlaceVulnsNodesResult) (vk : VersionKey) (vulns : list ResolutionVuln) :
  (forall (A : Type) (l : list A), Permutation (rangeOrder A l) l) ->
  inPlaceVulnsNodes cl graph = Ok res ->
  In (vk, vulns) (vkVulns res) ->
  (forall rv, In rv vulns -> ProblemChains rv = []) ->
  exists p, ComputeInPlacePatches sv cl IsAffected rangeOrder graph opts = Panic p.
Proof.
  intros Hperm Hres Hkv Hnone. unfold ComputeInPlacePatches. rewrite Hres. simpl.
  assert (Hp : exists p, dependentConstraints sv rangeOrder res = Panic p).
  { unfold dependentConstraints. apply (@foldM_panics _ _ _ _ (vk, vulns)).
    - intros acc [vk' vulns'] e.
      destruct (collectRequirements vulns') as [reqs|e'|p] eqn:Hreqs; simpl.
      + destruct (buildConstraintSet _ _ _); discriminate.
      + exfalso. revert Hreqs. unfold collectRequirements.
        apply foldM_neverErr. intros a rv _. apply foldM_neverErr.
        intros a' c _. apply bind_neverErr; [apply EndDependency_neverErr|].
        intros ? _ ?. discriminate.
      + discriminate.
    - eapply Permutation_in; [symmetry; apply Hperm | assumption].
    - intros acc. rewrite (collectRequirements_chainless _ Hnone). simpl.
      assert (Hnil : rangeOrder string [] = []).
      { apply Permutation_nil. symmetry. apply Hperm. }
      rewrite Hnil. simpl. eauto. }
  destruct Hp as [p ->]. simpl. eauto.
Qed.

(** C9: the root node has no incoming edge, hence no chain; when it is
    reported vulnerable the constraint builder is handed an empty list of
    requirements and the computation panics on its first element. *)
Theorem root_vulnerable_panics :
  ComputeChains graphRootOnly [0%nat] = Ok [[]]
  /\ (exists res,
         inPlaceVulnsNodes clientRootVulnerable graphRootOnly = Ok res
         /\ map (fun kv => collectRequirements (snd kv)) (vkVulns res) = [Ok []])
  /\ ComputeInPlacePatches toySemver clientRootVulnerable affected declarationOrder
                           graphRootOnly optsMinor
     = Panic IndexOutOfRange.
Proof.
  split; [vm_compute; reflexivity|]. split; [|vm_compute; reflexivity].
  eexists. split; vm_compute; reflexivity.
Qed.

(** * Further properties *)

(** ** The chains of a node are exactly its simple paths to the root *)

Lemma linked_app_inv (n : NodeID) (es : list Edge) (e : Edge) :
  linked n (es ++ [e]) ->
  linked n es /\ (forall edge, lastEdge es = Ok edge -> To e = From edge)
  /\ (es = [] -> To e = n).
Proof.
  revert n. induction es as [|x es IH]; intros n; simpl.
  - intros [H _]. repeat split; auto. intros edge. discriminate.
  - intros [Hx Hl]. destruct (IH _ Hl) as [Hl' [Hlast Hnil]].
    repeat split; auto; [|discriminate].
    intros edge Hedge. destruct es as [|y es].
    + injection Hedge as <-. now apply Hnil.
    + apply Hlast. exact Hedge.
Qed.

Section Exactness.

Variable g : Graph.
Variable t : NodeID.

Lemma extendsTo_snoc (a b : list Edge) (edge pEdge : Edge) :
  extendsTo g a b ->
  lastEdge b = Ok edge -> From edge <> 0%nat ->
  ~ In (From edge) (map To b) -> In pEdge (parentEdges g (From edge)) ->
  extendsTo g a (b ++ [pEdge]).
Proof.
  intros H. induction H as [es|es es' edge0 pEdge0 H1 H2 H3 H4 _ IH]; intros.
  - eapply extendsTo_step; try eassumption. constructor.
  - eapply extendsTo_step; try eassumption. auto.
Qed.

Lemma chainTo_extendsTo (es : list Edge) :
  chainTo g t es -> exists e, In e (parentEdges g t) /\ extendsTo g [e] es.
Proof.
  induction 1 as [e He|es edge pEdge _ [e [He Hext]] Hlast Hnr Hnew Hp].
  - exists e. split; [assumption | constructor].
  - exists e. split; [assumption|]. eapply extendsTo_snoc; eassumption.
Qed.

(** A simple path is a sequence the traversal builds. *)
Lemma simplePath_chainTo (es : list Edge) :
  es <> [] ->
  Forall (fun e => In e (Edges g) /\ From e <> To e) es ->
  linked t es ->
  NoDup (t :: map From es) ->
  Forall (fun e => From e <> 0%nat) (removelast es) ->
  chainTo g t es.
Proof.
  induction es as [|e es IH] using rev_ind; [congruence|].
  intros _ Hall Hl Hnd Hnr.
  apply Forall_app in Hall. destruct Hall as [Hall He].
  inversion He as [|? ? [Hin Hself] _]; subst.
  destruct (linked_app_inv _ _ _ Hl) as [Hl' [Hlast Hnil]].
  rewrite removelast_last in Hnr.
  destruct es as [|x es'] eqn:Hes.
  - apply chainTo_seed. apply In_parentEdges. repeat split; auto.
  - rewrite <- Hes in *.
    assert (Hne : es <> []) by (rewrite Hes; discriminate).
    destruct (lastEdge_nonempty Hne) as [edge Hedge].
    destruct (lastEdge_Ok _ Hedge) as [pre Hpre].
    assert (Hnd' : NoDup (t :: map From es)).
    { rewrite map_app in Hnd. simpl in Hnd.
      change (t :: map From es ++ [From e]) with ((t :: map From es) ++ [From e]) in Hnd.
      apply NoDup_app_remove_r in Hnd. assumption. }
    assert (Hc : chainTo g t es).
    { apply IH; auto. rewrite Hpre, removelast_last.
      rewrite Hpre in Hnr. apply Forall_app in Hnr. tauto. }
    eapply chainTo_step; try eassumption.
    + rewrite Forall_forall in Hnr. apply Hnr. rewrite Hpre.
      apply in_or_app. right. now left.
    + destruct (linked_visitedNodes _ _ Hl' Hedge) as [H1 H2].
      rewrite H2 in H1. rewrite H1 in Hnd'.
      intros Hmet. apply NoDup_remove_2 in Hnd'. rewrite app_nil_r in Hnd'. auto.
    + apply In_parentEdges. repeat split; auto.
Qed.

Lemma simplePathToRoot_chainTo (es : list Edge) :
  simplePathToRoot g t es -> chainTo g t es.
Proof.
  intros [Hall [Hl [[edge [Hlast Hroot]] Hnd]]].
  destruct (lastEdge_Ok _ Hlast) as [pre Hpre].
  assert (Hne : es <> []) by (rewrite Hpre; now destruct pre).
  destruct (linked_visitedNodes _ _ Hl Hlast) as [_ Hv]. rewrite Hv in Hnd.
  apply simplePath_chainTo; auto.
  rewrite Hpre, removelast_last. apply Forall_forall. intros x Hx Hx0.
  rewrite Hpre, map_app in Hnd. simpl in Hnd. rewrite Hroot in Hnd.
  inversion Hnd as [|? ? _ Hnd']; subst.
  apply NoDup_remove_2 in Hnd'. rewrite app_nil_r in Hnd'.
  apply Hnd'. rewrite <- Hx0. now apply in_map.
Qed.

Lemma extendsTo_inv (es es' : list Edge) :
  extendsTo g es es' ->
  es' = es
  \/ exists edge pEdge,
      lastEdge es = Ok edge /\ From edge <> 0%nat
      /\ ~ In (From edge) (map To es)
      /\ In pEdge (parentEdges g (From edge))
      /\ extendsTo g (es ++ [pEdge]) es'.
Proof. destruct 1; [now left | right; eauto 10]. Qed.

(** The loop emits every complete sequence built from a queued chain. *)
Lemma processQueue_complete (fuel : nat) :
  forall q out r,
    processQueue g fuel q out = Some (Ok r) ->
    Forall (fun c => ChainGraph c = g) q ->
    incl out r
    /\ forall c es edge,
        In c q -> extendsTo g (ChainEdges c) es ->
        lastEdge es = Ok edge -> From edge = 0%nat ->
        In (mkDependencyChain g es) r.
Proof.
  induction fuel as [|fuel IH]; intros q out r Hrun Hq.
  - destruct q as [|c rest]; simpl in Hrun; [|discriminate].
    injection Hrun as <-. split; [apply incl_refl | intros ? ? ? []].
  - destruct q as [|c rest]; simpl in Hrun.
    { injection Hrun as <-. split; [apply incl_refl | intros ? ? ? []]. }
    pose proof (Forall_inv Hq) as Hc. pose proof (Forall_inv_tail Hq) as Hrest.
    simpl in Hc.
    destruct (lastEdge (ChainEdges c)) as [edge0| |] eqn:Hlast0; try discriminate.
    destruct (Nat.eqb (From edge0) 0) eqn:Hroot0.
    + apply Nat.eqb_eq in Hroot0.
      destruct (IH _ _ _ Hrun Hrest) as [Hout Hcompl]. split.
      * intros x Hx. apply Hout. apply in_or_app. now left.
      * intros c' es edge [<-|Hin] Hext Hlast Hroot; [|eauto].
        destruct (extendsTo_inv Hext)
          as [->|[edge1 [pEdge1 [Hl1 [Hnr1 [Hnew1 [Hp1 Hext1]]]]]]].
        -- apply Hout. apply in_or_app. right. left.
           destruct c as [cg ces]. simpl in *. now rewrite Hc.
        -- rewrite Hlast0 in Hl1. injection Hl1 as <-. contradiction.
    + apply Nat.eqb_neq in Hroot0.
      rewrite (@extendChain_guard g c (From edge0)) in Hrun
        by (intros pe Hpe; apply In_parentEdges in Hpe; tauto).
      assert (Hkids : Forall (fun c' => ChainGraph c' = g)
                        (map (fun pe => mkDependencyChain g (ChainEdges c ++ [pe]))
                             (parentEdges g (From edge0)))).
      { apply Forall_forall. intros c' Hc'. apply in_map_iff in Hc'.
        destruct Hc' as [pe [<- _]]. reflexivity. }
      destruct (ContainsFunc (ChainEdges c) (fun e => Nat.eqb (To e) (From edge0)))
        eqn:Hguard.
      * rewrite app_nil_r in Hrun.
        destruct (IH _ _ _ Hrun Hrest) as [Hout Hcompl]. split; [assumption|].
        intros c' es edge [<-|Hin] Hext Hlast Hroot; [|eauto].
        destruct (extendsTo_inv Hext)
          as [->|[edge1 [pEdge1 [Hl1 [Hnr1 [Hnew1 [Hp1 Hext1]]]]]]].
        -- rewrite Hlast0 in Hlast. injection Hlast as <-. contradiction.
        -- rewrite Hlast0 in Hl1. injection Hl1 as <-.
           exfalso. apply ContainsFunc_true in Hguard.
           destruct Hguard as [e [He Heq]]. apply Nat.eqb_eq in Heq.
           apply Hnew1. rewrite <- Heq. now apply in_map.
      * assert (Hq' : Forall (fun c' => ChainGraph c' = g)
                        (rest ++ map (fun pe => mkDependencyChain g (ChainEdges c ++ [pe]))
                                     (parentEdges g (From edge0))))
          by (apply Forall_app; auto).
        destruct (IH _ _ _ Hrun Hq') as [Hout Hcompl]. split; [assumption|].
        intros c' es edge [<-|Hin] Hext Hlast Hroot.
        -- destruct (extendsTo_inv Hext)
             as [->|[edge1 [pEdge1 [Hl1 [Hnr1 [Hnew1 [Hp1 Hext1]]]]]]].
           ++ rewrite Hlast0 in Hlast. injection Hlast as <-. contradiction.
           ++ rewrite Hlast0 in Hl1. injection Hl1 as <-.
              apply (Hcompl (mkDependencyChain g (ChainEdges c ++ [pEdge1])) es edge);
                auto.
              apply in_or_app. right. apply in_map_iff. eauto.
        -- apply (Hcompl c' es edge); auto. apply in_or_app. now left.
Qed.

End Exactness.

Lemma computeChainsFuel_each (g : Graph) (fuel : nat) (nodes : list NodeID) :
  forall all,
    computeChainsFuel g fuel nodes = Some (Ok all) ->
    Forall2 (fun t chains => chainsOfNode g fuel t = Some (Ok chains)) nodes all.
Proof.
  induction nodes as [|t nodes IH]; intros all; simpl.
  - intros [= <-]. constructor.
  - destruct (chainsOfNode g fuel t) as [[chains| |]|] eqn:Ht; try discriminate.
    destruct (computeChainsFuel g fuel nodes) as [[rest| |]|]; try discriminate.
    intros [= <-]. constructor; auto.
Qed.

Lemma ComputeChains_each (g : Graph) (nodes : list NodeID) :
  exists all,
    ComputeChains g nodes = Ok all
    /\ Forall2 (fun t chains => chainsOfNode g (chainFuel g) t = Some (Ok chains)
                                /\ Forall (emitted g t) chains)
               nodes all.
Proof.
  destruct (chainFuel_enough g nodes) as [all [Hall Hem]].
  exists all. unfold ComputeChains. rewrite Hall. split; [reflexivity|].
  pose proof (computeChainsFuel_each _ _ _ Hall) as Heach.
  clear Hall. revert all Hem Heach.
  induction nodes as [|t nodes IH]; intros all Hem Heach;
    inversion Hem; subst; inversion Heach; subst; constructor; auto.
Qed.

Lemma chainsOfNode_complete (g : Graph) (fuel : nat) (t : NodeID)
      (chains : list DependencyChain) (es : list Edge) :
  chainsOfNode g fuel t = Some (Ok chains) ->
  simplePathToRoot g t es ->
  In (mkDependencyChain g es) chains.
Proof.
  intros Hrun Hpath. pose proof (simplePathToRoot_chainTo Hpath) as Hc.
  destruct Hpath as [_ [_ [[edge [Hlast Hroot]] _]]].
  destruct (chainTo_extendsTo Hc) as [e [He Hext]].
  unfold chainsOfNode in Hrun.
  assert (Hq : Forall (fun c => ChainGraph c = g) (seedChains g t)).
  { apply Forall_forall. intros c Hin. unfold seedChains in Hin.
    apply in_map_iff in Hin. destruct Hin as [pe [<- _]]. reflexivity. }
  destruct (@processQueue_complete g fuel _ _ _ Hrun Hq) as [_ Hcompl].
  apply (Hcompl (mkDependencyChain g [e]) es edge); auto.
  unfold seedChains. apply in_map_iff. eauto.
Qed.

(** X1: for every graph and every list of target nodes, the chains
    ComputeChains returns for a target other than the root are exactly
    the simple paths of the graph from that node up to the root: each
    appears among them, and they contain nothing else. *)
Theorem ComputeChains_exact (g : Graph) (nodes : list NodeID) :
  exists all,
    ComputeChains g nodes = Ok all
    /\ Forall2 (fun t chains =>
                  t <> 0%nat ->
                  forall c, In c chains
                            <-> ChainGraph c = g /\ simplePathToRoot g t (ChainEdges c))
               nodes all.
Proof.
  destruct (ComputeChains_each g nodes) as [all [Hall Heach]].
  exists all. split; [assumption|].
  eapply Forall2_impl; [|exact Heach].
  intros t chains [Hrun Hem] Ht c. split.
  - intros Hin. rewrite Forall_forall in Hem. specialize (Hem c Hin).
    pose proof (emitted_simple_path Hem Ht) as Hnd.
    destruct (emitted_wellFormed Hem) as [Hg [Hall' [Hl [Hlast _]]]].
    repeat split; assumption.
  - intros [Hg Hpath].
    pose proof (@chainsOfNode_complete _ _ _ _ _ Hrun Hpath) as Hin.
    destruct c as [cg ces]. simpl in *. now rewrite Hg.
Qed.

(** ** Order of the chains *)

Section BreadthFirst.

Variable g : Graph.

Lemma shortestFirst_app (l1 l2 : list DependencyChain) :
  shortestFirst l1 -> shortestFirst l2 ->
  (forall a b, In a l1 -> In b l2 -> (chainLength a <= chainLength b)%nat) ->
  shortestFirst (l1 ++ l2).
Proof.
  intros H1 H2 H12. induction l1 as [|x l1 IH]; simpl; [assumption|].
  inversion H1; subst. constructor.
  - apply IH; [assumption | intros; apply H12; [now right | assumption]].
  - apply Forall_app. split; [assumption|].
    apply Forall_forall. intros b Hb. apply H12; [now left | assumption].
Qed.

Lemma shortestFirst_app_inv (l1 l2 : list DependencyChain) :
  shortestFirst (l1 ++ l2) ->
  shortestFirst l1 /\ shortestFirst l2
  /\ forall a b, In a l1 -> In b l2 -> (chainLength a <= chainLength b)%nat.
Proof.
  induction l1 as [|x l1 IH]; simpl; intros H.
  - repeat split; [constructor | assumption | intros ? ? []].
  - inversion H as [|? ? Hs Hx]; subst. destruct (IH Hs) as [H1 [H2 H12]].
    apply Forall_app in Hx. destruct Hx as [Hx1 Hx2].
    repeat split; [constructor; assumption | assumption|].
    intros a b [<-|Ha] Hb; [|auto]. rewrite Forall_forall in Hx2. auto.
Qed.

(** The queue holds chains of at most two consecutive lengths, in order,
    after the chains already emitted. *)
Lemma processQueue_shortestFirst (fuel : nat) :
  forall q out r,
    processQueue g fuel q out = Some (Ok r) ->
    shortestFirst (out ++ q) ->
    (forall c d, In c q -> hd_error q = Some d ->
                 (chainLength c <= S (chainLength d))%nat) ->
    shortestFirst r.
Proof.
  induction fuel as [|fuel IH]; intros q out r Hrun Hs Hb.
  - destruct q as [|c rest]; simpl in Hrun; [|discriminate].
    injection Hrun as <-. now rewrite app_nil_r in Hs.
  - destruct q as [|c rest]; simpl in Hrun.
    { injection Hrun as <-. now rewrite app_nil_r in Hs. }
    destruct (lastEdge (ChainEdges c)) as [edge| |]; try discriminate.
    destruct (shortestFirst_app_inv _ _ Hs) as [Hout [Hq Hoq]].
    inversion Hq as [|? ? Hrest Hc]; subst. rewrite Forall_forall in Hc.
    assert (Hb' : forall x d, In x rest -> hd_error rest = Some d ->
                              (chainLength x <= S (chainLength d))%nat).
    { intros x d Hx Hd. destruct rest as [|y rest']; [contradiction|].
      injection Hd as <-.
      assert (chainLength c <= chainLength y)%nat by (apply Hc; now left).
      assert (chainLength x <= S (chainLength c))%nat
        by (apply (Hb x c); [now right | reflexivity]).
      lia. }
    destruct (Nat.eqb (From edge) 0).
    + apply (IH _ _ _ Hrun); [|assumption].
      rewrite <- app_assoc. exact Hs.
    + rewrite (@extendChain_guard g c (From edge)) in Hrun
        by (intros pe Hpe; apply In_parentEdges in Hpe; tauto).
      set (kids := if ContainsFunc (ChainEdges c) (fun e => Nat.eqb (To e) (From edge))
                   then []
                   else map (fun pe => mkDependencyChain g (ChainEdges c ++ [pe]))
                            (parentEdges g (From edge))) in *.
      assert (Hkids : Forall (fun x => chainLength x = S (chainLength c)) kids).
      { unfold kids. destruct (ContainsFunc _ _); [constructor|].
        apply Forall_forall. intros x Hx. apply in_map_iff in Hx.
        destruct Hx as [pe [<- _]]. unfold chainLength. simpl.
        rewrite length_app. simpl. lia. }
      clearbody kids. rewrite Forall_forall in Hkids.
      apply (IH _ _ _ Hrun).
      * rewrite app_assoc. apply shortestFirst_app.
        -- apply shortestFirst_app; [assumption | assumption|].
           intros a b Ha Hb0. apply Hoq; [assumption | now right].
        -- clear - Hkids. induction kids as [|k kids IHk]; constructor.
           ++ apply IHk. intros x Hx. apply Hkids. now right.
           ++ apply Forall_forall. intros x Hx.
              rewrite (Hkids k) by now left. rewrite (Hkids x) by now right. lia.
        -- intros a b Ha Hb0. rewrite (Hkids b Hb0).
           apply in_app_iff in Ha. destruct Ha as [Ha|Ha].
           ++ assert (chainLength a <= chainLength c)%nat
                by (apply Hoq; [assumption | now left]). lia.
           ++ apply (Hb a c); [now right | reflexivity].
      * intros x d Hx Hd. destruct rest as [|y rest']; simpl in *.
        -- destruct kids as [|k kids']; [contradiction|].
           injection Hd as <-. rewrite (Hkids x Hx).
           rewrite (Hkids k) by now left. lia.
        -- injection Hd as <-.
           assert (chainLength c <= chainLength y)%nat by (apply Hc; now left).
           destruct Hx as [<-|Hx]; [lia|].
           apply in_app_iff in Hx. destruct Hx as [Hx|Hx].
           ++ assert (chainLength x <= S (chainLength c))%nat
                by (apply (Hb x c); [right; now right | reflexivity]). lia.
           ++ rewrite (Hkids x Hx). lia.
Qed.

(** X2: the chains ComputeChains returns for a node are in order of
    length, shortest first (the traversal is breadth-first), so the first
    chain of a node is a shortest path from it to the root. *)
Theorem ComputeChains_shortest_first (nodes : list NodeID) :
  exists all,
    ComputeChains g nodes = Ok all /\ Forall shortestFirst all.
Proof.
  destruct (ComputeChains_each g nodes) as [all [Hall Heach]].
  exists all. split; [assumption|].
  clear Hall. induction Heach as [|t chains nodes' all' [Hrun _] _ IH];
    constructor; [|assumption].
  unfold chainsOfNode in Hrun.
  apply (processQueue_shortestFirst _ _ _ Hrun).
  - simpl. unfold seedChains.
    induction (parentEdges g t) as [|pe pes IHp]; simpl; constructor;
      [assumption|].
    apply Forall_forall. intros x Hx. apply in_map_iff in Hx.
    destruct Hx as [pe' [<- _]]. unfold chainLength. simpl. lia.
  - intros c d Hc Hd. unfold seedChains in *.
    apply in_map_iff in Hc. destruct Hc as [pe [<- _]].
    destruct (parentEdges g t) as [|pe0 pes]; [discriminate|].
    injection Hd as <-. unfold chainLength. simpl. lia.
Qed.

End BreadthFirst.

(** ** Views and classification of computed chains *)

Lemma nth_error_last {A : Type} (v : A) (vers : list A) :
  nth_error (v :: vers) (Nat.pred (List.length (v :: vers))) = Some (last vers v).
Proof.
  destruct (@exists_last _ (v :: vers)) as [pre [e Hpre]]; [discriminate|].
  assert (H : last (v :: vers) v = e) by (rewrite Hpre; apply last_last).
  assert (H' : last (v :: vers) v = last vers v) by (destruct vers; reflexivity).
  rewrite <- H', H, Hpre, length_app. simpl.
  replace (Nat.pred (List.length pre + 1)) with (List.length pre) by lia.
  rewrite nth_error_app2 by lia. now rewrite Nat.sub_diag.
Qed.

(** The two ends of a chain of the output. *)
Lemma emitted_ends (g : Graph) (t : NodeID) (c : DependencyChain) :
  emitted g t c ->
  exists first rest,
    ChainGraph c = g
    /\ ChainEdges c = first :: rest
    /\ In first (Edges g) /\ To first = t
    /\ In (last rest first) (Edges g) /\ From (last rest first) = 0%nat.
Proof.
  intros Hem. destruct (emitted_wellFormed Hem) as [Hg [Hall [Hl [[edge [Hlast Hroot]] _]]]].
  destruct (ChainEdges c) as [|first rest] eqn:Hes; [discriminate|].
  exists first, rest. rewrite lastEdge_cons in Hlast. injection Hlast as <-.
  rewrite Forall_forall in Hall. simpl in Hl.
  repeat split; auto.
  - apply Hall. now left.
  - tauto.
  - apply Hall. destruct rest as [|x rest']; [now left|].
    right.
    destruct (@exists_last _ (x :: rest')) as [pre [e Hpre]]; [discriminate|].
    rewrite Hpre. rewrite last_last. apply in_or_app. right. now left.
Qed.

(** X3: on every chain ComputeChains returns for a node [t],
    EndDependency is the view through an edge of the graph that ends at
    [t], and DirectDependency the view through an edge of the graph that
    leaves the root. *)
Theorem ComputeChains_views (g : Graph) (nodes : list NodeID) :
  exists all,
    ComputeChains g nodes = Ok all
    /\ Forall2 (fun t chains =>
                  Forall (fun c =>
                            exists first direct,
                              In first (Edges g) /\ To first = t
                              /\ EndDependency c = viewOf c first
                              /\ In direct (Edges g) /\ From direct = 0%nat
                              /\ DirectDependency c = viewOf c direct)
                         chains)
               nodes all.
Proof.
  destruct (ComputeChains_emitted g nodes) as [all [Hall Hem]].
  exists all. split; [assumption|].
  eapply Forall2_impl; [|exact Hem]. intros t chains Hchains.
  eapply Forall_impl; [|exact Hchains]. intros c Hc.
  destruct (emitted_ends Hc) as [first [rest [Hg [Hes [Hin [Hto [Hlin Hfrom]]]]]]].
  exists first, (last rest first). repeat split; auto.
  - unfold EndDependency, viewOf. now rewrite Hes.
  - unfold DirectDependency, viewOf. now rewrite Hes, lastEdge_cons.
Qed.

Section Classification.

Variable MatchingVersions : VersionKey -> extError + list Version_.
Variable IsAffected : models.Vulnerability -> VersionKey -> bool.
Variable OSVEcosystem : System -> option Ecosystem.
Variable IsDevGroup : Ecosystem -> list string -> bool.

(** X4: on a chain ComputeChains returns for a node [t] of the graph,
    chainConstrains asks the client for the versions of the package of
    [t] that match the requirement of an edge ending at [t]; it answers
    true when the client fails, and otherwise whether the last version
    listed is affected; it panics when the client lists no version. *)
Theorem chainConstrains_on_computed_chain (g : Graph) (nodes : list NodeID)
        (vuln : models.Vulnerability) :
  exists all,
    ComputeChains g nodes = Ok all
    /\ Forall2 (fun t chains =>
                  forall c node,
                    In c chains -> nth_error (Nodes g) t = Some node ->
                    exists e,
                      In e (Edges g) /\ To e = t
                      /\ chainConstrains MatchingVersions IsAffected c vuln
                         = match MatchingVersions
                                   (mkVersionKey (PackageKey_ (NodeVersion node))
                                                 Requirement (Requirement_ e)) with
                           | inl _ => Ok true
                           | inr [] => Panic IndexOutOfRange
                           | inr (v :: vers) =>
                               Ok (IsAffected vuln (VersionKey_ (last vers v)))
                           end)
               nodes all.
Proof.
  destruct (ComputeChains_emitted g nodes) as [all [Hall Hem]].
  exists all. split; [assumption|].
  eapply Forall2_impl; [|exact Hem]. intros t chains Hchains c node Hin Hnode.
  rewrite Forall_forall in Hchains. specialize (Hchains c Hin).
  destruct (emitted_ends Hchains) as [first [rest [Hg [Hes [Hfin [Hto _]]]]]].
  exists first. repeat split; auto.
  unfold chainConstrains, EndDependency, nodeVersion, index.
  rewrite Hes, Hg. simpl. rewrite Hto, Hnode. simpl.
  destruct (MatchingVersions _) as [msg|[|v vers]]; try reflexivity.
  unfold index. now rewrite nth_error_last.
Qed.

(** X5: on a chain ComputeChains returns, ChainIsDev classifies the
    package of a direct dependency of the root (the target of an edge
    leaving node 0): not dev when the system of that package has no OSV
    ecosystem, and otherwise as the ecosystem classifies the groups the
    manifest declares for that package, none when it declares none. *)
Theorem ChainIsDev_on_computed_chain (g : Graph) (nodes : list NodeID) (m : Manifest) :
  exists all,
    ComputeChains g nodes = Ok all
    /\ Forall2 (fun t chains =>
                  forall c, In c chains ->
                    exists e,
                      In e (Edges g) /\ From e = 0%nat
                      /\ forall node, nth_error (Nodes g) (To e) = Some node ->
                           ChainIsDev OSVEcosystem IsDevGroup c m
                           = Ok match OSVEcosystem (vkSystem (NodeVersion node)) with
                                | None => false
                                | Some ecosystem =>
                                    IsDevGroup ecosystem
                                      (mapSlice PackageKey_eqb (Groups m)
                                                (PackageKey_ (NodeVersion node)))
                                end)
               nodes all.
Proof.
  destruct (ComputeChains_emitted g nodes) as [all [Hall Hem]].
  exists all. split; [assumption|].
  eapply Forall2_impl; [|exact Hem]. intros t chains Hchains c Hin.
  rewrite Forall_forall in Hchains. specialize (Hchains c Hin).
  destruct (emitted_ends Hchains) as [first [rest [Hg [Hes [_ [_ [Hlin Hfrom]]]]]]].
  exists (last rest first). repeat split; auto.
  intros node Hnode.
  unfold ChainIsDev, DirectDependency, nodeVersion, index.
  rewrite Hes, lastEdge_cons, Hg. simpl. rewrite Hnode. simpl.
  unfold vkSystem. destruct (OSVEcosystem _); reflexivity.
Qed.

End Classification.

(** ** The candidate search and its predicate *)

Section SearchMore.

Variable sv : semver.Lib.

Lemma scanVersions_ext (f f' : VersionKey -> result bool) (l : list Version_) :
  (forall v, In v l -> VersionType_ (VersionKey_ v) = Concrete ->
             f (VersionKey_ v) = f' (VersionKey_ v)) ->
  scanVersions f l = scanVersions f' l.
Proof.
  induction l as [|v l IH]; intros H; simpl; [reflexivity|].
  assert (IH' : scanVersions f l = scanVersions f' l)
    by (apply IH; intros; apply H; [now right | assumption]).
  destruct (VersionType_eqb (VersionType_ (VersionKey_ v)) Concrete) eqn:Hc;
    [|assumption].
  apply VersionType_eqb_eq in Hc. rewrite <- (H v) by (auto; now left).
  destruct (f (VersionKey_ v)) as [[|]| |]; simpl; auto.
Qed.

(** X6: findFixedVersion asks the predicate about versions the client
    lists as Concrete only: two predicates that agree on them give the
    same outcome, whatever they do (return, fail, panic) elsewhere. *)
Theorem findFixedVersion_concrete_only (cl : ResolutionClient) (pk : PackageKey)
        (f f' : VersionKey -> result bool) :
  (forall vers v, Versions cl pk = inr vers -> In v vers ->
                  VersionType_ (VersionKey_ v) = Concrete ->
                  f (VersionKey_ v) = f' (VersionKey_ v)) ->
  findFixedVersion sv cl pk f = findFixedVersion sv cl pk f'.
Proof.
  intros H. unfold findFixedVersion.
  destruct (Versions cl pk) as [msg|vers] eqn:Hv; simpl; [reflexivity|].
  apply scanVersions_ext. intros v Hin. apply (H vers); [reflexivity|].
  apply in_rev in Hin. eapply Permutation_in; [apply SortFunc_Permutation | exact Hin].
Qed.

(** The search on a listing, by the comparison of one system. *)
Lemma findFixedVersion_selects (cl : ResolutionClient) (pk : PackageKey)
      (p : VersionKey -> bool) (vers : list Version_) :
  cmpConsistent (semver.Compare sv (System_ pk)) ->
  cmpTransitive (semver.Compare sv (System_ pk)) ->
  Versions cl pk = inr vers ->
  (forall v, In v vers -> vkSystem (VersionKey_ v) = System_ pk) ->
  match findFixedVersion sv cl pk (fun vk => Ok (p vk)) with
  | Ok vk =>
      exists v, In v vers /\ VersionKey_ v = vk
                /\ isConcrete v = true /\ p vk = true
                /\ forall w, In w vers -> isConcrete w = true ->
                             p (VersionKey_ w) = true ->
                             semver.Compare sv (System_ pk)
                                            (Version (VersionKey_ w)) (Version vk) <= 0
  | Err e =>
      e = errInPlaceImpossible
      /\ forall w, In w vers -> isConcrete w = true -> p (VersionKey_ w) = false
  | Panic _ => False
  end.
Proof.
  intros Hc Ht Hvers Hsys. unfold findFixedVersion. rewrite Hvers. simpl.
  set (cmp := fun a b : Version_ =>
                semver.Compare sv (System_ pk)
                               (Version (VersionKey_ a)) (Version (VersionKey_ b))).
  assert (Hext : SortFunc vers (compareVersions sv) = SortFunc vers cmp).
  { apply SortFunc_ext. intros a b Ha _. unfold compareVersions, cmp.
    now rewrite (Hsys a Ha). }
  rewrite Hext.
  assert (Hcc : cmpConsistent cmp) by (intros a b; apply Hc).
  assert (Htt : cmpTransitive cmp) by (intros a b c; apply Ht).
  pose proof (scanVersions_highest p Hcc
                (SortFunc_rev_descending vers Hcc Htt)) as Hscan.
  assert (Hin : forall v, In v (rev (SortFunc vers cmp)) <-> In v vers).
  { intros v. rewrite <- in_rev. split; apply Permutation_in;
      [|symmetry]; apply SortFunc_Permutation. }
  destruct (scanVersions _ _) as [vk|e|pn]; [| |assumption].
  - destruct Hscan as [v [Hv [Hvk [Hcv [Hpv Hmax]]]]].
    exists v. subst vk. repeat split; auto; [now apply Hin|].
    intros w Hw Hcw Hpw. apply (Hmax w); auto. now apply Hin.
  - destruct Hscan as [He Hnone]. split; [assumption|].
    intros w Hw Hcw. apply Hnone; [now apply Hin | assumption].
Qed.

(** X7: the order in which the client lists the versions does not matter:
    when the comparison of the package's system orders the version
    strings and no two listed versions are equivalent under it, two
    clients listing the same versions in different orders get the same
    outcome from findFixedVersion. *)
Theorem findFixedVersion_listing_order (cl1 cl2 : ResolutionClient) (pk : PackageKey)
        (p : VersionKey -> bool) (vers1 vers2 : list Version_) :
  cmpConsistent (semver.Compare sv (System_ pk)) ->
  cmpTransitive (semver.Compare sv (System_ pk)) ->
  Versions cl1 pk = inr vers1 ->
  Versions cl2 pk = inr vers2 ->
  Permutation vers1 vers2 ->
  (forall v, In v vers1 -> vkSystem (VersionKey_ v) = System_ pk) ->
  (forall v w, In v vers1 -> In w vers1 ->
               semver.Compare sv (System_ pk)
                              (Version (VersionKey_ v)) (Version (VersionKey_ w)) <= 0 ->
               semver.Compare sv (System_ pk)
                              (Version (VersionKey_ w)) (Version (VersionKey_ v)) <= 0 ->
               v = w) ->
  findFixedVersion sv cl1 pk (fun vk => Ok (p vk))
  = findFixedVersion sv cl2 pk (fun vk => Ok (p vk)).
Proof.
  intros Hc Ht Hv1 Hv2 Hperm Hsys Hanti.
  assert (Hsys2 : forall v, In v vers2 -> vkSystem (VersionKey_ v) = System_ pk).
  { intros v Hin. apply Hsys. eapply Permutation_in; [symmetry|]; eassumption. }
  pose proof (findFixedVersion_selects cl1 pk p Hc Ht Hv1 Hsys) as H1.
  pose proof (findFixedVersion_selects cl2 pk p Hc Ht Hv2 Hsys2) as H2.
  assert (Hin12 : forall v, In v vers2 -> In v vers1)
    by (intros v Hin; eapply Permutation_in; [symmetry|]; eassumption).
  assert (Hin21 : forall v, In v vers1 -> In v vers2)
    by (intros v Hin; eapply Permutation_in; eassumption).
  destruct (findFixedVersion sv cl1 pk _) as [vk1|e1|p1];
    destruct (findFixedVersion sv cl2 pk _) as [vk2|e2|p2]; try contradiction.
  - destruct H1 as [v1 [Hi1 [<- [Hc1 [Hp1 Hm1]]]]].
    destruct H2 as [v2 [Hi2 [<- [Hc2 [Hp2 Hm2]]]]].
    f_equal. f_equal. apply Hanti; auto.
  - destruct H1 as [v1 [Hi1 [<- [Hc1 [Hp1 _]]]]]. destruct H2 as [_ Hnone].
    rewrite (Hnone v1) in Hp1; auto. discriminate.
  - destruct H2 as [v2 [Hi2 [<- [Hc2 [Hp2 _]]]]]. destruct H1 as [_ Hnone].
    rewrite (Hnone v2) in Hp2; auto. discriminate.
  - destruct H1 as [-> _]. destruct H2 as [-> _]. reflexivity.
Qed.

End SearchMore.

(** ** The constraint set builder *)

Lemma latestAsWildcard_idempotent (v : string) :
  latestAsWildcard (latestAsWildcard v) = latestAsWildcard v.
Proof.
  unfold latestAsWildcard. destruct (String.eqb v "latest") eqn:H; [reflexivity|].
  now rewrite H.
Qed.

Lemma foldM_map {A B C} (body : B -> A -> result B) (f : C -> A) (s : list C) :
  forall acc, foldM body (map f s) acc = foldM (fun a x => body a (f x)) s acc.
Proof.
  induction s as [|x s IH]; intros acc; simpl; [reflexivity|].
  destruct (body acc (f x)); simpl; auto.
Qed.

Lemma foldM_ext {A B} (body body' : B -> A -> result B) (s : list A) :
  (forall a x, In x s -> body a x = body' a x) ->
  forall acc, foldM body s acc = foldM body' s acc.
Proof.
  induction s as [|x s IH]; intros H acc; simpl; [reflexivity|].
  rewrite (H acc x) by now left.
  destruct (body' acc x); simpl; auto. apply IH. intros; apply H; now right.
Qed.

Section Builder.

Variable sv : semver.Lib.

(** X8: buildConstraintSet reads the requirement 'latest' as the wildcard
    '*': writing '*' for every 'latest' of the list leaves its outcome
    unchanged. *)
Theorem buildConstraintSet_latest (sys : System) (requiredVers : list string) :
  buildConstraintSet sv sys (map latestAsWildcard requiredVers)
  = buildConstraintSet sv sys requiredVers.
Proof.
  unfold buildConstraintSet. destruct requiredVers as [|v reqs]; [reflexivity|].
  simpl. rewrite latestAsWildcard_idempotent.
  destruct (semver.ParseConstraint sv sys (latestAsWildcard v)); simpl;
    [reflexivity|].
  rewrite foldM_map. apply foldM_ext. intros a x _.
  now rewrite latestAsWildcard_idempotent.
Qed.

Lemma intersectAll_outcome (sys : System) (reqs : list string) :
  forall cSet,
    match foldM (fun cSet req =>
                   c <- call (semver.ParseConstraint sv sys (latestAsWildcard req)) ;;
                   call (semver.Intersect sv cSet (semver.ConstraintSet sv c)))
                reqs cSet with
    | Ok _ =>
        Forall (fun r => exists c,
                    semver.ParseConstraint sv sys (latestAsWildcard r) = inr c) reqs
    | Err e =>
        exists msg,
          e = errExternal msg
          /\ ((exists r, In r reqs
                         /\ semver.ParseConstraint sv sys (latestAsWildcard r) = inl msg)
              \/ exists s t, semver.Intersect sv s t = inl msg)
    | Panic _ => False
    end.
Proof.
  induction reqs as [|r reqs IH]; intros cSet; simpl; [constructor|].
  destruct (semver.ParseConstraint sv sys (latestAsWildcard r)) as [msg|c] eqn:Hp; simpl.
  - exists msg. split; [reflexivity|]. left. exists r. auto.
  - destruct (semver.Intersect sv cSet (semver.ConstraintSet sv c)) as [msg|s] eqn:Hi;
      simpl.
    + exists msg. split; [reflexivity|]. right. eauto.
    + specialize (IH s). destruct (foldM _ reqs s) as [s'|e|p].
      * constructor; eauto.
      * destruct IH as [msg [-> [[r' [Hr' Hp']]|Hint]]]; exists msg;
          (split; [reflexivity|]); [left; exists r'; auto | right; assumption].
      * assumption.
Qed.

(** X9: on a list of at least one requirement buildConstraintSet does not
    panic; it returns a set only when every requirement of the list
    parses, and the error it returns otherwise is the error of the parse
    of one of them or of an intersection.  (On the empty list it panics.) *)
Theorem buildConstraintSet_outcome (sys : System) (requiredVers : list string) :
  requiredVers <> [] ->
  match buildConstraintSet sv sys requiredVers with
  | Ok _ =>
      Forall (fun r => exists c,
                  semver.ParseConstraint sv sys (latestAsWildcard r) = inr c)
             requiredVers
  | Err e =>
      exists msg,
        e = errExternal msg
        /\ ((exists r, In r requiredVers
                       /\ semver.ParseConstraint sv sys (latestAsWildcard r) = inl msg)
            \/ exists s t, semver.Intersect sv s t = inl msg)
  | Panic _ => False
  end.
Proof.
  intros Hne. destruct requiredVers as [|v reqs]; [congruence|].
  unfold buildConstraintSet. simpl.
  destruct (semver.ParseConstraint sv sys (latestAsWildcard v)) as [msg|c] eqn:Hp; simpl.
  - exists msg. split; [reflexivity|]. left. exists v. auto.
  - pose proof (intersectAll_outcome sys reqs (semver.ConstraintSet sv c)) as H.
    destruct (foldM _ reqs _) as [s'|e|p].
    + constructor; eauto.
    + destruct H as [msg [-> [[r' [Hr' Hp']]|Hint]]]; exists msg;
        (split; [reflexivity|]); [left; exists r'; auto | right; assumption].
    + assumption.
Qed.

End Builder.

(** ** The dependency satisfaction checker *)

Lemma splitRequirements_spec (reqs : list RequirementVersion) :
  splitRequirements reqs
  = (map ReqVersionKey (filter (fun r => dep.IsRegular (ReqType r)) reqs),
     map ReqVersionKey (filter isOptionalOnly reqs)).
Proof.
  unfold splitRequirements.
  assert (H : forall acc,
             fold_left
               (fun (acc : list VersionKey * list VersionKey) v =>
                  if dep.IsRegular (ReqType v)
                  then (fst acc ++ [ReqVersionKey v], snd acc)
                  else if dep.HasOpt (ReqType v)
                       then (fst acc, snd acc ++ [ReqVersionKey v])
                       else acc) reqs acc
             = (fst acc ++ map ReqVersionKey
                               (filter (fun r => dep.IsRegular (ReqType r)) reqs),
                snd acc ++ map ReqVersionKey (filter isOptionalOnly reqs))).
  { induction reqs as [|r reqs IH]; intros [d o]; simpl.
    - now rewrite !app_nil_r.
    - rewrite IH. unfold isOptionalOnly at 2.
      destruct (dep.IsRegular (ReqType r)); simpl.
      + now rewrite <- app_assoc.
      + destruct (dep.HasOpt (ReqType r)); simpl; [now rewrite <- app_assoc|].
        reflexivity. }
  apply H.
Qed.

Lemma indexFrom_map {A B} (f : B -> bool) (g : A -> B) (s : list A) (i : Z) :
  indexFrom f i (map g s) = indexFrom (fun x => f (g x)) i s.
Proof.
  revert i. induction s as [|x s IH]; intros i; simpl; [reflexivity|].
  destruct (f (g x)); auto.
Qed.

Lemma Delete_map {A B} (g : A -> B) (s : list A) (i j : Z) :
  Delete (map g s) i j
  = match Delete s i j with
    | Ok s' => Ok (map g s')
    | Err e => Err e
    | Panic p => Panic p
    end.
Proof.
  unfold Delete. rewrite length_map.
  destruct (_ && _); [|reflexivity].
  now rewrite map_app, firstn_map, skipn_map.
Qed.

Lemma vkName_wildcardKey (k : VersionKey) : vkName (wildcardKey k) = vkName k.
Proof. reflexivity. Qed.

Section Checker.

Variable sv : semver.Lib.

Lemma dropMissingOptional_wildcard (children deps : list VersionKey) (o : VersionKey) :
  dropMissingOptional children (map wildcardKey deps) (wildcardKey o)
  = match dropMissingOptional children deps o with
    | Ok deps' => Ok (map wildcardKey deps')
    | Err e => Err e
    | Panic p => Panic p
    end.
Proof.
  unfold dropMissingOptional. rewrite vkName_wildcardKey.
  destruct (negb _); [|reflexivity].
  unfold IndexFunc. rewrite indexFrom_map. apply Delete_map.
Qed.

Lemma dropAll_wildcard (children opts : list VersionKey) :
  forall deps,
    foldM (dropMissingOptional children) (map wildcardKey opts) (map wildcardKey deps)
    = match foldM (dropMissingOptional children) opts deps with
      | Ok deps' => Ok (map wildcardKey deps')
      | Err e => Err e
      | Panic p => Panic p
      end.
Proof.
  induction opts as [|o opts IH]; intros deps; simpl; [reflexivity|].
  rewrite dropMissingOptional_wildcard.
  destruct (dropMissingOptional children deps o); simpl; auto.
Qed.

Lemma checkDeps_wildcard (sys : System) (children deps : list VersionKey) :
  checkDeps sv sys children (map wildcardKey deps) = checkDeps sv sys children deps.
Proof.
  induction deps as [|d deps IH]; simpl; [reflexivity|].
  rewrite latestAsWildcard_idempotent.
  destruct (semver.ParseConstraint sv sys _); simpl; [reflexivity|].
  now rewrite IH.
Qed.

Lemma filter_map_wildcard (f : RequirementVersion -> bool) (reqs : list RequirementVersion) :
  (forall r, f (wildcardRequirement r) = f r) ->
  map ReqVersionKey (filter f (map wildcardRequirement reqs))
  = map wildcardKey (map ReqVersionKey (filter f reqs)).
Proof.
  intros Hf. induction reqs as [|r reqs IH]; simpl; [reflexivity|].
  rewrite Hf. destruct (f r); simpl; now rewrite IH.
Qed.

(** X10: dependenciesSatisfied reads the requirement 'latest' as the
    wildcard '*': a response in which every 'latest' is written '*' gets
    the same outcome. *)
Theorem dependenciesSatisfied_latest (cl cl' : ResolutionClient) (vk : VersionKey)
        (children : list VersionKey) (reqs : list RequirementVersion) :
  Requirements cl vk = inr reqs ->
  Requirements cl' vk = inr (map wildcardRequirement reqs) ->
  dependenciesSatisfied sv cl' vk children = dependenciesSatisfied sv cl vk children.
Proof.
  intros H H'. unfold dependenciesSatisfied. rewrite H, H'. simpl.
  rewrite !splitRequirements_spec.
  rewrite !filter_map_wildcard by reflexivity.
  rewrite dropAll_wildcard.
  destruct (foldM _ _ _) as [deps'| |]; simpl; try reflexivity.
  apply checkDeps_wildcard.
Qed.

(** X12: requirements that are neither regular nor optional (development
    or test requirements) play no part in dependenciesSatisfied: a
    response without them gets the same outcome. *)
Theorem dependenciesSatisfied_reads_regular_and_optional
        (cl cl' : ResolutionClient) (vk : VersionKey)
        (children : list VersionKey) (reqs : list RequirementVersion) :
  Requirements cl vk = inr reqs ->
  Requirements cl' vk = inr (filter isRead reqs) ->
  dependenciesSatisfied sv cl' vk children = dependenciesSatisfied sv cl vk children.
Proof.
  intros H H'. unfold dependenciesSatisfied. rewrite H, H'. simpl.
  rewrite !splitRequirements_spec.
  assert (Hsub : forall (f g : RequirementVersion -> bool) l,
             (forall x, f x = true -> g x = true) ->
             filter f (filter g l) = filter f l).
  { intros f g l Hfg. induction l as [|x l IH]; simpl; [reflexivity|].
    destruct (g x) eqn:Hg; simpl.
    - now rewrite IH.
    - destruct (f x) eqn:Hf; [|assumption]. rewrite (Hfg x Hf) in Hg. discriminate. }
  assert (H1 : filter (fun r => dep.IsRegular (ReqType r)) (filter isRead reqs)
               = filter (fun r => dep.IsRegular (ReqType r)) reqs).
  { apply Hsub. intros x Hx. unfold isRead. now rewrite Hx. }
  assert (H2 : filter isOptionalOnly (filter isRead reqs) = filter isOptionalOnly reqs).
  { apply Hsub. intros x Hx. unfold isOptionalOnly in Hx. unfold isRead.
    apply andb_true_iff in Hx. destruct Hx as [_ ->]. apply orb_true_r. }
  now rewrite H1, H2.
Qed.

End Checker.

Section CheckerMeaning.

Variable sv : semver.Lib.

Lemma checkDeps_true (sys : System) (children deps : list VersionKey) :
  checkDeps sv sys children deps = Ok true ->
  Forall (metBy sv sys children) deps.
Proof.
  induction deps as [|d deps IH]; simpl; intros H; [constructor|].
  destruct (semver.ParseConstraint sv sys (latestAsWildcard (Version d)))
    as [msg|constr] eqn:Hp; simpl in H; [discriminate|].
  destruct (existsb _ children) eqn:He; [|discriminate].
  constructor; [|auto].
  apply existsb_exists in He. destruct He as [child [Hin Hm]].
  apply andb_true_iff in Hm. destruct Hm as [Hn Hm]. apply String.eqb_eq in Hn.
  exists constr. split; [assumption|]. exists child. auto.
Qed.

Lemma checkDeps_false (sys : System) (children deps : list VersionKey) :
  checkDeps sv sys children deps = Ok false ->
  exists d constr,
    In d deps
    /\ semver.ParseConstraint sv sys (latestAsWildcard (Version d)) = inr constr
    /\ forall child, In child children -> vkName child = vkName d ->
                     semver.ConstraintMatch sv constr (Version child) = false.
Proof.
  induction deps as [|d deps IH]; simpl; intros H; [discriminate|].
  destruct (semver.ParseConstraint sv sys (latestAsWildcard (Version d)))
    as [msg|constr] eqn:Hp; simpl in H; [discriminate|].
  destruct (existsb _ children) eqn:He.
  - destruct (IH H) as [d' [c' [Hin Hrest]]]. exists d', c'. auto.
  - exists d, constr. repeat split; auto.
    intros child Hin Hn.
    destruct (semver.ConstraintMatch sv constr (Version child)) eqn:Hm; [|reflexivity].
    assert (Ht : existsb (fun child => String.eqb (vkName child) (vkName d)
                            && semver.ConstraintMatch sv constr (Version child))
                         children = true).
    { apply existsb_exists. exists child. split; [assumption|].
      rewrite Hm, Hn, String.eqb_refl. reflexivity. }
    congruence.
Qed.

(** A removal takes away one requirement of the name of an optional
    requirement whose package is not installed, and nothing else. *)
Lemma dropMissingOptional_keeps (children deps deps' : list VersionKey) (o : VersionKey) :
  dropMissingOptional children deps o = Ok deps' ->
  forall d, In d deps ->
            In d deps' \/ (vkName d = vkName o /\ ~ installed children (vkName o)).
Proof.
  unfold dropMissingOptional.
  destruct (ContainsFunc children _) eqn:Hc; simpl; [intros [= <-]; auto|].
  unfold Delete.
  set (f := fun vk => String.eqb (vkName vk) (vkName o)).
  destruct (_ && _) eqn:Hb; [|discriminate].
  apply andb_true_iff in Hb. destruct Hb as [Hb _].
  apply andb_true_iff in Hb. destruct Hb as [Hb _]. apply Z.leb_le in Hb.
  destruct (IndexFunc_found deps f Hb) as [x [Hnth Hfx]].
  unfold f in Hfx. apply String.eqb_eq in Hfx.
  destruct (nth_error_split _ _ Hnth) as [l1 [l2 [Hdeps Hlen]]].
  replace (Z.to_nat (IndexFunc deps f + 1)) with (S (Z.to_nat (IndexFunc deps f)))
    by lia.
  rewrite <- Hlen.
  assert (Hf : firstn (List.length l1) deps = l1).
  { rewrite Hdeps, firstn_app, firstn_all, Nat.sub_diag. simpl.
    apply app_nil_r. }
  assert (Hs : skipn (S (List.length l1)) deps = l2).
  { rewrite Hdeps, skipn_app, skipn_all2 by lia.
    replace (S (List.length l1) - List.length l1)%nat with 1%nat by lia.
    reflexivity. }
  rewrite Hf, Hs. intros [= <-] d Hd.
  simpl. rewrite Hdeps in Hd. apply in_app_iff in Hd.
  destruct Hd as [Hd|[<-|Hd]].
  - left. apply in_or_app. now left.
  - right. split; [assumption|]. intros [child [Hin Hn]].
    rewrite ContainsFunc_false in Hc. specialize (Hc child Hin). simpl in Hc.
    rewrite Hn, String.eqb_refl in Hc. discriminate.
  - left. apply in_or_app. now right.
Qed.

Lemma dropAll_keeps (children opts : list VersionKey) :
  forall deps deps',
    foldM (dropMissingOptional children) opts deps = Ok deps' ->
    forall d, In d deps ->
              In d deps'
              \/ exists o, In o opts /\ vkName d = vkName o
                           /\ ~ installed children (vkName o).
Proof.
  induction opts as [|o opts IH]; intros deps deps'; simpl.
  - intros [= <-]. auto.
  - destruct (dropMissingOptional children deps o) as [deps1| |] eqn:Ho; simpl;
      try discriminate.
    intros Hrest d Hd.
    destruct (dropMissingOptional_keeps _ _ _ Ho d Hd) as [Hin|[Hn Hni]].
    + destruct (IH _ _ Hrest d Hin) as [H|[o' [Ho' H]]]; [now left|].
      right. exists o'. split; [now right | assumption].
    + right. exists o. split; [now left | auto].
Qed.

Lemma dropAll_incl (children opts : list VersionKey) :
  forall deps deps',
    foldM (dropMissingOptional children) opts deps = Ok deps' -> incl deps' deps.
Proof.
  induction opts as [|o opts IH]; intros deps deps'; simpl.
  - intros [= <-]. apply incl_refl.
  - destruct (dropMissingOptional children deps o) as [deps1| |] eqn:Ho; simpl;
      try discriminate.
    intros Hrest. eapply incl_tran; [eapply IH; eassumption|].
    eapply dropMissingOptional_incl; eassumption.
Qed.

Variable cl : ResolutionClient.

(** X11: when dependenciesSatisfied answers true, every regular
    requirement of the candidate is met by a child already present (same
    package name, version matching the parsed requirement), or else its
    package is not installed and the candidate also lists it as
    optional: nothing new has to be installed. *)
Theorem dependenciesSatisfied_true_sound (vk : VersionKey) (children : list VersionKey)
        (reqs : list RequirementVersion) :
  Requirements cl vk = inr reqs ->
  dependenciesSatisfied sv cl vk children = Ok true ->
  forall r,
    In r reqs -> dep.IsRegular (ReqType r) = true ->
    metBy sv (vkSystem vk) children (ReqVersionKey r)
    \/ (~ installed children (vkName (ReqVersionKey r))
        /\ exists o, In o reqs /\ isOptionalOnly o = true
                     /\ vkName (ReqVersionKey o) = vkName (ReqVersionKey r)).
Proof.
  intros Hreqs Hrun r Hr Hreg. unfold dependenciesSatisfied in Hrun.
  rewrite Hreqs in Hrun. simpl in Hrun. rewrite splitRequirements_spec in Hrun.
  destruct (foldM _ _ _) as [deps'| |] eqn:Hdrop; simpl in Hrun; try discriminate.
  assert (Hd : In (ReqVersionKey r)
                  (map ReqVersionKey
                       (filter (fun r => dep.IsRegular (ReqType r)) reqs))).
  { apply in_map. apply filter_In. auto. }
  destruct (dropAll_keeps _ _ _ Hdrop _ Hd) as [Hin|[o [Ho [Hn Hni]]]].
  - left. pose proof (checkDeps_true _ _ _ Hrun) as Hall.
    rewrite Forall_forall in Hall. auto.
  - right. rewrite Hn. split; [assumption|].
    apply in_map_iff in Ho. destruct Ho as [ro [<- Hro]].
    apply filter_In in Hro. exists ro. tauto.
Qed.

(** X13: when dependenciesSatisfied answers false, some regular
    requirement of the candidate parses and no child of its package name
    has a version matching it. *)
Theorem dependenciesSatisfied_false_sound (vk : VersionKey) (children : list VersionKey)
        (reqs : list RequirementVersion) :
  Requirements cl vk = inr reqs ->
  dependenciesSatisfied sv cl vk children = Ok false ->
  exists r constr,
    In r reqs /\ dep.IsRegular (ReqType r) = true
    /\ semver.ParseConstraint sv (vkSystem vk)
                              (latestAsWildcard (Version (ReqVersionKey r)))
       = inr constr
    /\ forall child, In child children ->
                     vkName child = vkName (ReqVersionKey r) ->
                     semver.ConstraintMatch sv constr (Version child) = false.
Proof.
  intros Hreqs Hrun. unfold dependenciesSatisfied in Hrun.
  rewrite Hreqs in Hrun. simpl in Hrun. rewrite splitRequirements_spec in Hrun.
  destruct (foldM _ _ _) as [deps'| |] eqn:Hdrop; simpl in Hrun; try discriminate.
  destruct (checkDeps_false _ _ _ Hrun) as [d [constr [Hd [Hp Hnone]]]].
  apply (dropAll_incl _ _ _ Hdrop) in Hd.
  apply in_map_iff in Hd. destruct Hd as [r [<- Hr]]. apply filter_In in Hr.
  exists r, constr. tauto.
Qed.

End CheckerMeaning.

Lemma updateAt_flat_map {A B : Type} (g : A -> list B) (f : A -> A) (extra : list B)
      (s : list A) :
  (forall x, g (f x) = g x ++ extra) ->
  forall i x, nth_error s i = Some x ->
              Permutation (flat_map g (updateAt i f s)) (flat_map g s ++ extra).
Proof.
  intros Hg. induction s as [|y s IH]; intros [|i] x; simpl; try discriminate.
  - intros _. rewrite Hg. rewrite <- !app_assoc.
    apply Permutation_app_head. apply Permutation_app_comm.
  - intros H. rewrite <- app_assoc. apply Permutation_app_head. eapply IH; eassumption.
Qed.

Lemma recordPatch_accounted (acc : InPlaceResult) (dp : DependencyPatch_)
      (rv : ResolutionVuln) :
  Permutation (accounted (recordPatch acc dp rv)) (accounted acc ++ [rv]).
Proof.
  unfold accounted. rewrite recordPatch_Unfixable. rewrite <- app_assoc.
  apply Permutation_app_head. unfold recordPatch.
  destruct (0 <=? IndexFunc _ _) eqn:Hidx; simpl.
  - apply Z.leb_le in Hidx. destruct (IndexFunc_found _ _ Hidx) as [ipp [Hnth _]].
    eapply updateAt_flat_map; [|eassumption]. reflexivity.
  - rewrite flat_map_app. simpl. reflexivity.
Qed.

Lemma addUnfixable_accounted (acc : InPlaceResult) (rv : ResolutionVuln) :
  Permutation (accounted (addUnfixable acc rv)) (accounted acc ++ [rv]).
Proof.
  unfold accounted, addUnfixable. simpl. rewrite <- !app_assoc.
  apply Permutation_app_head. apply Permutation_app_comm.
Qed.

Section Candidates.

Variable sv : semver.Lib.
Variable cl : ResolutionClient.


Lemma scanVersions_impossible (f : VersionKey -> result bool) (l : list Version_) :
  (forall vk, neverErr (f vk)) ->
  scanVersions f l = Err errInPlaceImpossible ->
  forall v, In v l -> isConcrete v = true -> f (VersionKey_ v) = Ok false.
Proof.
  intros Hf. induction l as [|w l IH]; simpl; [contradiction|].
  unfold isConcrete in *.
  destruct (VersionType_eqb (VersionType_ (VersionKey_ w)) Concrete) eqn:Hc.
  - destruct (f (VersionKey_ w)) as [[|]|e|p] eqn:Hfw; simpl; try discriminate.
    + intros H v [<-|Hv] Hcv; auto.
    + intros _. exfalso. exact (Hf _ e Hfw).
  - intros H v [<-|Hv] Hcv; [congruence | auto].
Qed.


Lemma findFixedVersion_impossible (pk : PackageKey) (f : VersionKey -> result bool) :
  (forall vk, neverErr (f vk)) ->
  findFixedVersion sv cl pk f = Err errInPlaceImpossible ->
  exists vers, Versions cl pk = inr vers
               /\ forall v, In v vers -> isConcrete v = true ->
                            f (VersionKey_ v) = Ok false.
Proof.
  intros Hf. unfold findFixedVersion. destruct (Versions cl pk) as [msg|vers]; simpl;
    [discriminate|].
  intros H. exists vers. split; [reflexivity|]. intros v Hv.
  apply (@scanVersions_impossible _ _ Hf H). apply -> in_rev.
  eapply Permutation_in; [symmetry; apply SortFunc_Permutation | assumption].
Qed.

Variable IsAffected : models.Vulnerability -> VersionKey -> bool.
Variable rangeOrder : forall A : Type, list A -> list A.
Variable opts : RemediationOptions.



End Candidates.

Lemma filter_Permutation {A : Type} (f : A -> bool) (l l' : list A) :
  Permutation l l' -> Permutation (filter f l) (filter f l').
Proof.
  induction 1 as [|x l l' _ IH|x y l|l l' l'' _ IH1 _ IH2]; simpl.
  - constructor.
  - destruct (f x); [constructor|]; assumption.
  - destruct (f x), (f y); try reflexivity. constructor.
  - etransitivity; eassumption.
Qed.

Section Outcome.

Variable sv : semver.Lib.
Variable cl : ResolutionClient.
Variable IsAffected : models.Vulnerability -> VersionKey -> bool.
Variable rangeOrder : forall A : Type, list A -> list A.
Variable graph : Graph.
Variable opts : RemediationOptions.



Hypothesis rangeOrder_visits_all : forall (A : Type) (l : list A), Permutation (rangeOrder l) l.

Lemma searchPatches_unfixable (res : inPlaceVulnsNodesResult)
      (cons : list (VersionKey * semver.Set_ sv)) (found : InPlaceResult) :
  searchPatches sv cl IsAffected rangeOrder opts res cons = Ok found ->
  forall rv,
    In rv (Unfixable found) ->
    exists vk vulns,
      In (vk, vulns) (vkVulns res) /\ In rv vulns /\ MatchVuln opts rv = true
      /\ (In (vkName vk) (AvoidPkgs opts)
          \/ findFixedVersion sv cl (PackageKey_ vk)
               (satisfies sv cl IsAffected opts res cons vk rv)
             = Err errInPlaceImpossible).
Proof.
  apply (@searchPatches_inv sv cl IsAffected rangeOrder opts res cons
           (fun acc =>
              forall rv,
                In rv (Unfixable acc) ->
                exists vk vulns,
                  In (vk, vulns) (vkVulns res) /\ In rv vulns
                  /\ MatchVuln opts rv = true
                  /\ (In (vkName vk) (AvoidPkgs opts)
                      \/ findFixedVersion sv cl (PackageKey_ vk)
                           (satisfies sv cl IsAffected opts res cons vk rv)
                         = Err errInPlaceImpossible))).
  - simpl. intros rv [].
  - intros vk vulns rv acc acc' Hkv Hrv Hacc Hstep.
    apply (Permutation_in _ (rangeOrder_visits_all (vkVulns res))) in Hkv.
    destruct (processVuln_Ok _ _ _ _ _ _ _ _ _ Hstep)
      as [[_ ->]|[[Hm [Ha ->]]|[[Hm [_ [Hf ->]]]|[_ [_ [newVK [_ ->]]]]]]];
      try exact Hacc.
    + simpl. intros rv0 Hin. apply in_app_iff in Hin.
      destruct Hin as [Hin|[<-|[]]]; [auto|].
      exists vk, vulns. apply Contains_In in Ha. auto.
    + simpl. intros rv0 Hin. apply in_app_iff in Hin.
      destruct Hin as [Hin|[<-|[]]]; [auto|].
      exists vk, vulns. auto.
    + rewrite recordPatch_Unfixable. assumption.
Qed.

(** X15: a vulnerability is reported unfixable only for a reason.  It
    is a record of the aggregate that passes the filter, and either its
    package is in the avoid-list, or the versions of the package were
    listed and the candidate test rejected every concrete one. *)
Theorem ComputeInPlacePatches_unfixable_justified (r : InPlaceResult) :
  ComputeInPlacePatches sv cl IsAffected rangeOrder graph opts = Ok r ->
  exists res cons,
    inPlaceVulnsNodes cl graph = Ok res
    /\ dependentConstraints sv rangeOrder res = Ok cons
    /\ forall rv,
        In rv (Unfixable r) ->
        exists vk vulns,
          In (vk, vulns) (vkVulns res) /\ In rv vulns /\ MatchVuln opts rv = true
          /\ (In (vkName vk) (AvoidPkgs opts)
              \/ exists vers,
                  Versions cl (PackageKey_ vk) = inr vers
                  /\ forall v, In v vers -> isConcrete v = true ->
                               satisfies sv cl IsAffected opts res cons vk rv
                                         (VersionKey_ v)
                               = Ok false).
Proof.
  intros Hc.
  destruct (@ComputeInPlacePatches_Ok _ _ _ _ _ _ _ Hc) as [res [cons [found [Hres [Hcons [Hs ->]]]]]].
  exists res, cons. split; [assumption|]. split; [assumption|]. simpl.
  intros rv Hrv.
  edestruct searchPatches_unfixable as [vk [vulns [Hkv [Hin [Hm Hwhy]]]]];
    [exact Hs | exact Hrv |].
  exists vk, vulns. repeat split; try assumption.
  destruct Hwhy as [Ha|Hf]; [now left | right].
  eapply findFixedVersion_impossible; [|eassumption].
  intros newVK. apply satisfies_neverErr.
Qed.

Lemma processVuln_accounted (res : inPlaceVulnsNodesResult)
      (cons : list (VersionKey * semver.Set_ sv)) (vk : VersionKey)
      (acc acc' : InPlaceResult) (rv : ResolutionVuln) :
  processVuln sv cl IsAffected opts res cons vk acc rv = Ok acc' ->
  Permutation (accounted acc') (accounted acc ++ filter (MatchVuln opts) [rv]).
Proof.
  intros Hstep. simpl.
  destruct (processVuln_Ok _ _ _ _ _ _ _ _ _ Hstep)
    as [[Hm ->]|[[Hm [_ ->]]|[[Hm [_ [_ ->]]]|[Hm [_ [newVK [_ ->]]]]]]];
    rewrite Hm.
  - now rewrite app_nil_r.
  - apply addUnfixable_accounted.
  - apply addUnfixable_accounted.
  - apply recordPatch_accounted.
Qed.

Lemma processVulns_accounted (res : inPlaceVulnsNodesResult)
      (cons : list (VersionKey * semver.Set_ sv)) (vk : VersionKey)
      (vulns : list ResolutionVuln) :
  forall acc acc',
    foldM (processVuln sv cl IsAffected opts res cons vk) vulns acc = Ok acc' ->
    Permutation (accounted acc') (accounted acc ++ filter (MatchVuln opts) vulns).
Proof.
  induction vulns as [|rv vulns IH]; intros acc acc'.
  - simpl. intros [= <-]. now rewrite app_nil_r.
  - change (foldM (processVuln sv cl IsAffected opts res cons vk) (rv :: vulns) acc)
      with (bind (processVuln sv cl IsAffected opts res cons vk acc rv)
                 (foldM (processVuln sv cl IsAffected opts res cons vk) vulns)).
    destruct (processVuln sv cl IsAffected opts res cons vk acc rv)
      as [acc1| |] eqn:H1; simpl bind; try discriminate.
    intros H. etransitivity; [apply IH; eassumption|].
    change (rv :: vulns) with ([rv] ++ vulns). rewrite filter_app, app_assoc.
    apply Permutation_app_tail. eapply processVuln_accounted. eassumption.
Qed.

Lemma searchLoop_accounted (res : inPlaceVulnsNodesResult)
      (cons : list (VersionKey * semver.Set_ sv))
      (kvs : list (VersionKey * list ResolutionVuln)) :
  forall acc acc',
    foldM (fun acc (kv : VersionKey * list ResolutionVuln) =>
             foldM (processVuln sv cl IsAffected opts res cons (fst kv)) (snd kv) acc)
          kvs acc = Ok acc' ->
    Permutation (accounted acc')
                (accounted acc ++ filter (MatchVuln opts) (flat_map snd kvs)).
Proof.
  induction kvs as [|kv kvs IH]; intros acc acc'; simpl.
  - intros [= <-]. now rewrite app_nil_r.
  - destruct (foldM _ (snd kv) acc) as [acc1| |] eqn:H1; simpl; try discriminate.
    intros H. etransitivity; [apply IH; eassumption|].
    rewrite filter_app, app_assoc. apply Permutation_app_tail.
    eapply processVulns_accounted. eassumption.
Qed.

(** X16: no vulnerability is lost and none is counted twice.  The
    unfixable vulnerabilities together with those the patches resolve are,
    up to order, exactly the records of the aggregate that pass the
    filter of the options, each as many times as it occurs there. *)
Theorem ComputeInPlacePatches_accounts_for_all (res : inPlaceVulnsNodesResult)
        (r : InPlaceResult) :
  inPlaceVulnsNodes cl graph = Ok res ->
  ComputeInPlacePatches sv cl IsAffected rangeOrder graph opts = Ok r ->
  Permutation (accounted r) (considered opts res).
Proof.
  intros Hres Hc.
  destruct (@ComputeInPlacePatches_Ok _ _ _ _ _ _ _ Hc) as [res' [cons [found [Hres' [_ [Hs ->]]]]]].
  rewrite Hres in Hres'. injection Hres' as <-.
  unfold accounted, considered. simpl.
  pose proof (@searchLoop_accounted _ _ _ _ _ Hs) as Hperm.
  unfold accounted in Hperm. simpl in Hperm.
  etransitivity.
  { apply Permutation_app_head. apply Permutation_flat_map.
    apply SortFunc_Permutation. }
  etransitivity; [exact Hperm|].
  apply filter_Permutation. apply Permutation_flat_map. apply rangeOrder_visits_all.
Qed.

End Outcome.

(** ** Loops, with the part of the slice already visited *)

Lemma foldM_prefix {A B} (P : list A -> B -> Prop) (body : B -> A -> result B)
      (s : list A) :
  (forall pre x acc acc',
      P pre acc -> body acc x = Ok acc' -> (exists suf, s = pre ++ x :: suf) ->
      P (pre ++ [x]) acc') ->
  forall acc r, P [] acc -> foldM body s acc = Ok r -> P s r.
Proof.
  intros Hstep.
  assert (Hgen : forall rest pre acc r,
             s = pre ++ rest -> P pre acc -> foldM body rest acc = Ok r -> P s r).
  { induction rest as [|x rest IH]; intros pre acc r Hs Hp; simpl.
    - intros [= <-]. rewrite app_nil_r in Hs. now rewrite Hs.
    - destruct (body acc x) as [acc'| |] eqn:Hb; simpl; try discriminate.
      apply (IH (pre ++ [x])).
      + rewrite <- app_assoc. exact Hs.
      + eapply Hstep; eauto. }
  intros acc r. apply (Hgen s []). reflexivity.
Qed.

Lemma foldM_total {A B} (body : B -> A -> result B) (s : list A) :
  (forall acc x, In x s -> exists acc', body acc x = Ok acc') ->
  forall acc, exists r, foldM body s acc = Ok r.
Proof.
  induction s as [|x s IH]; intros Hbody acc; simpl; [eauto|].
  destruct (Hbody acc x (or_introl eq_refl)) as [acc' ->]. simpl.
  apply IH. intros a y Hy. apply Hbody. now right.
Qed.

Lemma index_Ok {A} (s : list A) (i : nat) (a : A) :
  index s i = Ok a <-> nth_error s i = Some a.
Proof.
  unfold index. destruct (nth_error s i); split; intros H; try discriminate;
    injection H as <-; reflexivity.
Qed.

Lemma index_in_range {A} (s : list A) (i : nat) :
  (i < List.length s)%nat -> exists a, index s i = Ok a.
Proof.
  intros H. unfold index. destruct (nth_error s i) eqn:Hn; [eauto|].
  apply nth_error_None in Hn. lia.
Qed.

Lemma nodeVersion_in_range (g : Graph) (n : NodeID) :
  (n < List.length (Nodes g))%nat -> exists v, nodeVersion g n = Ok v.
Proof.
  intros H. unfold nodeVersion. destruct (index_in_range _ H) as [node ->]. simpl. eauto.
Qed.

Lemma In_enumerate {A} (s : list A) (i : nat) (x : A) :
  In (i, x) (enumerate s) <-> nth_error s i = Some x.
Proof.
  unfold enumerate.
  assert (Hgen : forall (l : list A) k i x,
             In (i, x) (combine (seq k (List.length l)) l)
             <-> (k <= i)%nat /\ nth_error l (i - k) = Some x).
  { induction l as [|y l IH]; intros k j z; simpl.
    - split; [intros [] | intros [_ H]]. destruct (j - k)%nat; discriminate.
    - rewrite IH. split.
      + intros [[= <- <-]|[Hle Hn]].
        * rewrite Nat.sub_diag. auto.
        * split; [lia|]. replace (j - k)%nat with (S (j - S k)) by lia. exact Hn.
      + intros [Hle Hn]. destruct (j - k)%nat as [|d] eqn:Hd.
        * left. injection Hn as <-. f_equal. lia.
        * right. split; [lia|]. replace (j - S k)%nat with d by lia. exact Hn. }
  rewrite Hgen. rewrite Nat.sub_0_r. split; [tauto | split; [lia | assumption]].
Qed.

Lemma In_vulnerableNodeIDs (nodeVulns : list (list models.Vulnerability)) (n : NodeID) :
  In n (vulnerableNodeIDs nodeVulns) <-> vulnerable nodeVulns n.
Proof.
  unfold vulnerableNodeIDs, vulnerable. rewrite in_map_iff. split.
  - intros [[i vs] [<- Hin]]. apply filter_In in Hin. destruct Hin as [Hin Hlen].
    simpl in *. apply In_enumerate in Hin. exists vs. split; [assumption|].
    intros ->. discriminate.
  - intros [vs [Hn Hne]]. exists (n, vs). split; [reflexivity|].
    apply filter_In. split; [now apply In_enumerate|]. simpl.
    destruct vs; [contradiction | reflexivity].
Qed.

Lemma nonempty_length {A} (vs : list A) :
  (0 <? List.length vs)%nat = true <-> vs <> [].
Proof.
  destruct vs; simpl; split; intros H; try discriminate; try reflexivity;
    contradiction.
Qed.

Section Aggregate.

Variable cl : ResolutionClient.
Variable graph : Graph.

(** The three loops of [inPlaceVulnsNodes], once the vulnerabilities of
    the nodes are known. *)
Lemma inPlaceVulnsNodes_Ok (nodeVulns : list (list models.Vulnerability))
      (res : inPlaceVulnsNodesResult) :
  FindVulns cl graph = inr nodeVulns ->
  inPlaceVulnsNodes cl graph = Ok res ->
  exists nodeChains vv,
    foldM (fun m e =>
             vs <- index nodeVulns (From e) ;;
             if (0 <? List.length vs)%nat
             then v <- nodeVersion graph (To e) ;;
                  Ok (mapAppend Nat.eqb m (From e) v)
             else Ok m)
          (Edges graph) [] = Ok (nodeDependencies res)
    /\ ComputeChains graph (vulnerableNodeIDs nodeVulns) = Ok nodeChains
    /\ foldM (fun (acc : list (VersionKey * list ResolutionVuln)
                         * list (VersionKey * list NodeID)) inID =>
                let '(vkv, vkn) := acc in
                let '(i, nID) := inID in
                chains <- index nodeChains i ;;
                vk <- nodeVersion graph nID ;;
                vulns <- index nodeVulns nID ;;
                Ok (fold_left (mergeVuln vk chains) vulns vkv,
                    mapAppend VersionKey_eqb vkn vk nID))
             (enumerate (vulnerableNodeIDs nodeVulns)) ([], []) = Ok vv
    /\ vkVulns res = fst vv /\ vkNodes res = snd vv.
Proof.
  intros Hfind. unfold inPlaceVulnsNodes. rewrite Hfind. simpl.
  destruct (foldM _ (Edges graph) []) as [deps| |] eqn:Hdeps; simpl; try discriminate.
  destruct (ComputeChains graph (vulnerableNodeIDs nodeVulns)) as [nodeChains| |] eqn:Hch;
    simpl; try discriminate.
  destruct (foldM _ (enumerate (vulnerableNodeIDs nodeVulns)) ([], []))
    as [vv| |] eqn:Hvv; simpl; try discriminate.
  intros [= <-]. simpl. exists nodeChains, vv. auto.
Qed.

(** X19: nodeDependencies lists, for a node that carries a
    vulnerability, the versions of the nodes its outgoing edges lead to,
    and nothing for any other node. *)
Theorem inPlaceVulnsNodes_nodeDependencies
        (nodeVulns : list (list models.Vulnerability)) (res : inPlaceVulnsNodesResult) :
  FindVulns cl graph = inr nodeVulns ->
  inPlaceVulnsNodes cl graph = Ok res ->
  forall n v,
    In v (mapSlice Nat.eqb (nodeDependencies res) n)
    <-> vulnerable nodeVulns n
        /\ exists e, In e (Edges graph) /\ From e = n
                     /\ nodeVersion graph (To e) = Ok v.
Proof.
  intros Hfind Hrun.
  destruct (inPlaceVulnsNodes_Ok Hfind Hrun) as [_ [_ [Hdeps _]]].
  revert Hdeps. generalize (nodeDependencies res). intros deps Hdeps.
  assert (Hinv : forall n v,
             In v (mapSlice Nat.eqb deps n)
             <-> vulnerable nodeVulns n
                 /\ exists e, In e (Edges graph) /\ From e = n
                              /\ nodeVersion graph (To e) = Ok v);
    [|exact Hinv].
  revert Hdeps.
  apply (@foldM_prefix _ _
           (fun pre m =>
              forall n v,
                In v (mapSlice Nat.eqb m n)
                <-> vulnerable nodeVulns n
                    /\ exists e, In e pre /\ From e = n
                                 /\ nodeVersion graph (To e) = Ok v)).
  - intros pre e m m' Hm Hbody _ n v.
    destruct (index nodeVulns (From e)) as [vs| |] eqn:Hvs; simpl in Hbody;
      try discriminate.
    apply index_Ok in Hvs.
    destruct (0 <? List.length vs)%nat eqn:Hlen.
    + destruct (nodeVersion graph (To e)) as [w| |] eqn:Hw; simpl in Hbody;
        try discriminate.
      injection Hbody as <-. rewrite (mapSlice_mapAppend Nat.eqb Nat_eqb_eq).
      destruct (Nat.eqb n (From e)) eqn:Hn.
      * apply Nat.eqb_eq in Hn. subst n. rewrite in_app_iff, Hm. split.
        -- intros [[Hv [e' [He' Hrest]]]|[<-|[]]].
           ++ split; [assumption|]. exists e'. rewrite in_app_iff. tauto.
           ++ split; [exists vs; split; [assumption | now apply nonempty_length]|].
              exists e. rewrite in_app_iff. simpl. auto.
        -- intros [Hv [e' [He' [Hfrom Hver]]]]. apply in_app_iff in He'.
           destruct He' as [He'|[<-|[]]].
           ++ left. split; [assumption|]. exists e'. auto.
           ++ right. left. congruence.
      * rewrite Hm. apply Nat.eqb_neq in Hn. split.
        -- intros [Hv [e' [He' Hrest]]]. split; [assumption|].
           exists e'. rewrite in_app_iff. tauto.
        -- intros [Hv [e' [He' [Hfrom Hver]]]]. split; [assumption|].
           apply in_app_iff in He'. destruct He' as [He'|[<-|[]]]; [eauto|].
           congruence.
    + injection Hbody as <-. rewrite Hm. split.
      * intros [Hv [e' [He' Hrest]]]. split; [assumption|].
        exists e'. rewrite in_app_iff. tauto.
      * intros [Hv [e' [He' [Hfrom Hver]]]]. split; [assumption|].
        apply in_app_iff in He'. destruct He' as [He'|[<-|[]]]; [eauto|].
        exfalso. destruct Hv as [vs' [Hvs' Hne]]. subst n.
        rewrite Hvs in Hvs'. injection Hvs' as <-.
        apply nonempty_length in Hne. congruence.
  - intros n v. simpl. split; [intros [] | intros [_ [e [[] _]]]].
Qed.

(** X20: vkNodes lists under a version key exactly the nodes that
    carry a vulnerability and have that version. *)
Theorem inPlaceVulnsNodes_vkNodes
        (nodeVulns : list (list models.Vulnerability)) (res : inPlaceVulnsNodesResult) :
  FindVulns cl graph = inr nodeVulns ->
  inPlaceVulnsNodes cl graph = Ok res ->
  forall vk n,
    In n (mapSlice VersionKey_eqb (vkNodes res) vk)
    <-> vulnerable nodeVulns n /\ nodeVersion graph n = Ok vk.
Proof.
  intros Hfind Hrun.
  destruct (inPlaceVulnsNodes_Ok Hfind Hrun) as [nodeChains [vv [_ [_ [Hvv [_ Hn]]]]]].
  rewrite Hn. clear Hn. intros vk n.
  rewrite <- In_vulnerableNodeIDs.
  assert (Hinv : In n (mapSlice VersionKey_eqb (snd vv) vk)
                 <-> (exists i, In (i, n) (enumerate (vulnerableNodeIDs nodeVulns)))
                     /\ nodeVersion graph n = Ok vk).
  { revert vk n. revert Hvv.
    apply (@foldM_prefix _ _
             (fun pre (acc : list (VersionKey * list ResolutionVuln)
                             * list (VersionKey * list NodeID)) =>
                forall vk n,
                  In n (mapSlice VersionKey_eqb (snd acc) vk)
                  <-> (exists i, In (i, n) pre) /\ nodeVersion graph n = Ok vk)).
    - intros pre [i nID] [vkv vkn] acc' Hacc Hbody _ vk n.
      destruct (index nodeChains i) as [chains| |]; simpl in Hbody; try discriminate.
      destruct (nodeVersion graph nID) as [vk0| |] eqn:Hvk0; simpl in Hbody;
        try discriminate.
      destruct (index nodeVulns nID) as [vulns| |]; simpl in Hbody; try discriminate.
      injection Hbody as <-. simpl in *.
      rewrite (mapSlice_mapAppend VersionKey_eqb VersionKey_eqb_eq).
      destruct (VersionKey_eqb vk vk0) eqn:Hk.
      + apply VersionKey_eqb_eq in Hk. subst vk0. rewrite in_app_iff, Hacc. split.
        * intros [[[j Hj] Hv]|[<-|[]]].
          -- split; [exists j; rewrite in_app_iff; tauto | assumption].
          -- split; [exists i; rewrite in_app_iff; simpl; auto | assumption].
        * intros [[j Hj] Hv]. apply in_app_iff in Hj.
          destruct Hj as [Hj|[[= <- <-]|[]]]; [left; eauto | right; left; reflexivity].
      + rewrite Hacc. split.
        * intros [[j Hj] Hv]. split; [exists j; rewrite in_app_iff; tauto | assumption].
        * intros [[j Hj] Hv]. split; [|assumption]. apply in_app_iff in Hj.
          destruct Hj as [Hj|[[= <- <-]|[]]]; [eauto|].
          exfalso. rewrite Hv in Hvk0. injection Hvk0 as <-.
          assert (VersionKey_eqb vk vk = true) by now apply VersionKey_eqb_eq.
          congruence.
    - intros vk n. simpl. split; [intros [] | intros [[i []] _]]. }
  rewrite Hinv. split.
  - intros [[i Hi] Hv]. split; [|assumption].
    apply In_enumerate in Hi. eapply nth_error_In; eassumption.
  - intros [Hin Hv]. split; [|assumption].
    apply In_nth_error in Hin. destruct Hin as [i Hi]. exists i.
    now apply In_enumerate.
Qed.

(** X21: when every edge joins two nodes of the graph and FindVulns
    reports one list of vulnerabilities per node, inPlaceVulnsNodes
    returns its aggregates: it neither fails nor panics. *)
Theorem inPlaceVulnsNodes_returns (nodeVulns : list (list models.Vulnerability)) :
  edgesWithinNodes graph ->
  FindVulns cl graph = inr nodeVulns ->
  List.length nodeVulns = List.length (Nodes graph) ->
  exists res, inPlaceVulnsNodes cl graph = Ok res.
Proof.
  intros Hedges Hfind Hlen. unfold inPlaceVulnsNodes. rewrite Hfind. simpl.
  match goal with
  | |- context [foldM ?body (Edges graph) ?init] =>
      destruct (@foldM_total _ _ body (Edges graph)) with (acc := init)
        as [deps Hdeps]
  end.
  { intros m e He. destruct (Hedges e He) as [Hfrom Hto].
    destruct (@index_in_range _ nodeVulns (From e)) as [vs ->]; [lia|]. simpl.
    destruct (0 <? List.length vs)%nat; [|eauto].
    destruct (nodeVersion_in_range graph Hto) as [v ->]. simpl. eauto. }
  rewrite Hdeps. simpl.
  destruct (ComputeChains_emitted graph (vulnerableNodeIDs nodeVulns))
    as [nodeChains [-> Hall]]. simpl.
  apply Forall2_length in Hall.
  match goal with
  | |- context [foldM ?body (enumerate (vulnerableNodeIDs nodeVulns)) ?init] =>
      destruct (@foldM_total _ _ body (enumerate (vulnerableNodeIDs nodeVulns)))
        with (acc := init) as [vv Hvv]
  end.
  { intros [vkv vkn] [i nID] Hin. apply In_enumerate in Hin.
    assert (Hi : (i < List.length nodeChains)%nat).
    { rewrite <- Hall. apply nth_error_Some. congruence. }
    destruct (index_in_range _ Hi) as [chains ->]. simpl.
    apply nth_error_In in Hin. apply In_vulnerableNodeIDs in Hin.
    destruct Hin as [vs [Hvs _]].
    assert (Hn : (nID < List.length (Nodes graph))%nat).
    { rewrite <- Hlen. apply nth_error_Some. congruence. }
    destruct (nodeVersion_in_range graph Hn) as [vk ->]. simpl.
    apply index_Ok in Hvs. rewrite Hvs. simpl. eauto. }
  rewrite Hvv. simpl. eauto.
Qed.

(** The aggregation fails only when FindVulns does. *)
Lemma inPlaceVulnsNodes_Err (e : error) :
  inPlaceVulnsNodes cl graph = Err e ->
  exists msg, FindVulns cl graph = inl msg /\ e = errExternal msg.
Proof.
  unfold inPlaceVulnsNodes. destruct (FindVulns cl graph) as [msg|nodeVulns]; simpl.
  - intros [= <-]. eauto.
  - intros H. exfalso. revert H.
    apply bind_neverErr.
    { apply foldM_neverErr. intros m x _.
      apply bind_neverErr; [apply index_neverErr|]. intros vs _.
      destruct (0 <? List.length vs)%nat; [|discriminate].
      apply bind_neverErr; [apply nodeVersion_neverErr|]. discriminate. }
    intros deps _.
    destruct (ComputeChains_emitted graph (vulnerableNodeIDs nodeVulns))
      as [nodeChains [-> _]]. simpl.
    apply bind_neverErr; [|discriminate].
    apply foldM_neverErr. intros [vkv vkn] [i nID] _.
    apply bind_neverErr; [apply index_neverErr|]. intros chains _.
    apply bind_neverErr; [apply nodeVersion_neverErr|]. intros vk _.
    apply bind_neverErr; [apply index_neverErr|]. discriminate.
Qed.

End Aggregate.

Section Provenance.

Variable sv : semver.Lib.
Variable cl : ResolutionClient.
Variable IsAffected : models.Vulnerability -> VersionKey -> bool.
Variable rangeOrder : forall A : Type, list A -> list A.
Variable graph : Graph.
Variable opts : RemediationOptions.

Lemma collectRequirements_neverErr (vulns : list ResolutionVuln) :
  neverErr (collectRequirements vulns).
Proof.
  unfold collectRequirements. apply foldM_neverErr. intros reqVers vuln _.
  apply foldM_neverErr. intros reqs c _.
  apply bind_neverErr; [apply EndDependency_neverErr|]. discriminate.
Qed.

(** A constraint set that cannot be built is skipped. *)
Lemma dependentConstraints_neverErr (res : inPlaceVulnsNodesResult) :
  neverErr (dependentConstraints sv rangeOrder res).
Proof.
  unfold dependentConstraints. apply foldM_neverErr. intros m [vk vulns] _.
  apply bind_neverErr; [apply collectRequirements_neverErr|]. intros reqVers _.
  destruct (buildConstraintSet sv (vkSystem vk) (rangeOrder reqVers)); discriminate.
Qed.

(** X17: an error returned by ComputeInPlacePatches is always the error
    of a collaborator, passed on as it is: that of FindVulns, or that of
    the version listing of some package.  The impossible outcome of a
    search, a failed requirements fetch and an unparsable constraint are
    never returned. *)
Theorem ComputeInPlacePatches_error_provenance (e : error) :
  ComputeInPlacePatches sv cl IsAffected rangeOrder graph opts = Err e ->
  exists msg,
    e = errExternal msg
    /\ (FindVulns cl graph = inl msg \/ exists pk, Versions cl pk = inl msg).
Proof.
  unfold ComputeInPlacePatches.
  destruct (inPlaceVulnsNodes cl graph) as [res|e0|] eqn:Hres; simpl; try discriminate.
  - destruct (dependentConstraints sv rangeOrder res) as [cons|e1|] eqn:Hcons; simpl;
      try discriminate.
    + destruct (searchPatches sv cl IsAffected rangeOrder opts res cons)
        as [found|e2|] eqn:Hs; simpl; try discriminate.
      intros [= <-]. unfold searchPatches in Hs.
      destruct (foldM_Err _ _ _ Hs) as [[vk vulns] [acc [_ Hinner]]].
      simpl in Hinner.
      destruct (foldM_Err _ _ _ Hinner) as [rv [acc' [_ Hstep]]].
      destruct (processVuln_Err _ _ _ _ _ _ _ _ _ Hstep) as [_ [_ [msg [Hv ->]]]].
      exists msg. split; [reflexivity|]. right. eauto.
    + intros _. exfalso. exact (@dependentConstraints_neverErr res e1 Hcons).
  - intros [= <-]. destruct (@inPlaceVulnsNodes_Err _ _ _ Hres) as [msg [Hf ->]].
    exists msg. auto.
Qed.

End Provenance.

(** ** The aggregate of the vulnerabilities *)

Lemma In_mapGet {K V : Type} (eqb : K -> K -> bool)
      (eqb_eq : forall a b, eqb a b = true <-> a = b)
      (m : list (K * V)) (k : K) (v : V) :
  NoDup (map fst m) -> In (k, v) m -> mapGet eqb m k = Some v.
Proof.
  induction m as [|[k0 v0] m IH]; simpl; intros Hnd Hin; [contradiction|].
  inversion Hnd as [|? ? Hnotin Hnd']; subst.
  destruct Hin as [[= -> ->]|Hin].
  - assert (H : eqb k k = true) by now apply eqb_eq. now rewrite H.
  - destruct (eqb k k0) eqn:Hk; [|auto].
    apply eqb_eq in Hk. subst k0. exfalso. apply Hnotin.
    apply in_map_iff. exists (k, v). auto.
Qed.

Lemma In_mapSlice (m : list (VersionKey * list ResolutionVuln)) (vk : VersionKey)
      (vulns : list ResolutionVuln) :
  NoDup (map fst m) -> In (vk, vulns) m -> mapSlice VersionKey_eqb m vk = vulns.
Proof.
  intros Hnd Hin. unfold mapSlice.
  now rewrite (In_mapGet VersionKey_eqb VersionKey_eqb_eq _ _ _ Hnd Hin).
Qed.

Lemma updateAt_nth {A : Type} (f : A -> A) (s : list A) :
  forall i x, nth_error s i = Some x -> In (f x) (updateAt i f s).
Proof.
  induction s as [|y s IH]; intros [|i] x; simpl; try discriminate.
  - intros [= ->]. now left.
  - intros H. right. eauto.
Qed.

Lemma updateAt_nil {A : Type} (f : A -> A) (s : list A) (i : nat) :
  updateAt i f s = [] -> s = [].
Proof. destruct s, i; simpl; intros H; try discriminate; reflexivity. Qed.

Lemma In_updateAt_pos {A : Type} (f : A -> A) (s : list A) (y : A) :
  forall i,
    In y (updateAt i f s) ->
    (exists j, j <> i /\ nth_error s j = Some y)
    \/ exists x, nth_error s i = Some x /\ y = f x.
Proof.
  induction s as [|x s IH]; intros [|i]; simpl; intros H; try contradiction.
  - destruct H as [<-|H]; [right; eauto|].
    left. apply In_nth_error in H. destruct H as [j Hj]. exists (S j). auto.
  - destruct H as [<-|H]; [left; exists 0%nat; auto|].
    destruct (IH i H) as [[j [Hne Hj]]|Hx]; [left | right; assumption].
    exists (S j). split; [lia | assumption].
Qed.

Lemma recordID_unique (cur : list ResolutionVuln) (i j : nat) (x y : ResolutionVuln) :
  NoDup (map recordID cur) ->
  nth_error cur i = Some x -> nth_error cur j = Some y ->
  recordID x = recordID y -> i = j.
Proof.
  intros Hnd Hi Hj Hid.
  apply (proj1 (NoDup_nth_error (map recordID cur)) Hnd).
  - rewrite length_map. apply nth_error_Some. congruence.
  - rewrite !nth_error_map, Hi, Hj. simpl. congruence.
Qed.

Lemma mapSlice_mergeVuln_other (vk vk' : VersionKey) (chains : list DependencyChain)
      (m : list (VersionKey * list ResolutionVuln)) (v : models.Vulnerability) :
  vk' <> vk ->
  mapSlice VersionKey_eqb (mergeVuln vk chains m v) vk' = mapSlice VersionKey_eqb m vk'.
Proof.
  intros Hne.
  assert (Hk : VersionKey_eqb vk' vk = false).
  { destruct (VersionKey_eqb vk' vk) eqn:H; [|reflexivity].
    apply VersionKey_eqb_eq in H. contradiction. }
  unfold mergeVuln. destruct (0 <=? IndexFunc _ _).
  - unfold mapSlice at 1. rewrite (mapGet_mapSet VersionKey_eqb VersionKey_eqb_eq).
    now rewrite Hk.
  - rewrite (mapSlice_mapAppend VersionKey_eqb VersionKey_eqb_eq). now rewrite Hk.
Qed.

(** What a merge does to the slice of its own key. *)
Lemma mapSlice_mergeVuln_same (vk : VersionKey) (chains : list DependencyChain)
      (m : list (VersionKey * list ResolutionVuln)) (v : models.Vulnerability) :
  let cur := mapSlice VersionKey_eqb m vk in
  (exists i x,
      nth_error cur i = Some x /\ recordID x = models.ID v
      /\ mapSlice VersionKey_eqb (mergeVuln vk chains m v) vk
         = updateAt i (fun rv => mkResolutionVuln (Vulnerability rv)
                                   (ProblemChains rv ++ chains)
                                   (DevOnly rv && false))
                    cur)
  \/ ((forall x, In x cur -> recordID x <> models.ID v)
      /\ mapSlice VersionKey_eqb (mergeVuln vk chains m v) vk
         = cur ++ [mkResolutionVuln v chains false]).
Proof.
  intros cur.
  assert (Hk : VersionKey_eqb vk vk = true) by now apply VersionKey_eqb_eq.
  unfold mergeVuln. fold cur.
  destruct (0 <=? IndexFunc cur _) eqn:Hidx.
  - left. apply Z.leb_le in Hidx.
    destruct (IndexFunc_found _ _ Hidx) as [x [Hnth Hx]]. simpl in Hx.
    apply String.eqb_eq in Hx.
    eexists. exists x. split; [exact Hnth|]. split; [exact Hx|].
    unfold mapSlice at 1. rewrite (mapGet_mapSet VersionKey_eqb VersionKey_eqb_eq).
    rewrite Hk. reflexivity.
  - right. apply Z.leb_gt in Hidx. split.
    + intros x Hin Hid. pose proof (IndexFunc_none _ _ Hidx x Hin) as Hne.
      simpl in Hne. unfold recordID in Hid. rewrite Hid, String.eqb_refl in Hne.
      discriminate.
    + rewrite (mapSlice_mapAppend VersionKey_eqb VersionKey_eqb_eq). now rewrite Hk.
Qed.

Lemma mergeVuln_nonempty (vk : VersionKey) (chains : list DependencyChain)
      (m : list (VersionKey * list ResolutionVuln)) (v : models.Vulnerability) :
  (forall k vulns, In (k, vulns) m -> vulns <> []) ->
  forall k vulns, In (k, vulns) (mergeVuln vk chains m v) -> vulns <> [].
Proof.
  intros Hm k vulns Hin. unfold mergeVuln in Hin.
  destruct (0 <=? IndexFunc _ _) eqn:Hidx.
  - apply (@In_mapSet _ _ VersionKey_eqb VersionKey_eqb_eq) in Hin.
    destruct Hin as [Hin|[= -> ->]]; [eauto|].
    apply Z.leb_le in Hidx. destruct (IndexFunc_found _ _ Hidx) as [x [Hnth _]].
    intros Hnil. apply updateAt_nil in Hnil. rewrite Hnil in Hnth.
    destruct (Z.to_nat _); discriminate.
  - unfold mapAppend in Hin.
    apply (@In_mapSet _ _ VersionKey_eqb VersionKey_eqb_eq) in Hin.
    destruct Hin as [Hin|[= -> ->]]; [eauto|].
    intros Hnil. apply app_eq_nil in Hnil. destruct Hnil as [_ Hnil]. discriminate.
Qed.

Lemma mergeVuln_keys (vk : VersionKey) (chains : list DependencyChain)
      (m : list (VersionKey * list ResolutionVuln)) (v : models.Vulnerability) :
  NoDup (map fst m) -> NoDup (map fst (mergeVuln vk chains m v)).
Proof.
  intros Hnd. unfold mergeVuln, mapAppend.
  destruct (0 <=? IndexFunc _ _);
    apply (mapSet_keys_NoDup VersionKey_eqb VersionKey_eqb_eq); assumption.
Qed.

Lemma aggregates_ext (m : list (VersionKey * list ResolutionVuln))
      (found found' : VersionKey -> list DependencyChain -> models.Vulnerability -> Prop) :
  (forall vk chains v, found vk chains v <-> found' vk chains v) ->
  aggregates m found -> aggregates m found'.
Proof.
  intros Hext [HK [HE [HA [HB [HC HD]]]]]. repeat split; try assumption.
  - intros Hc. apply (HB vk rv H c) in Hc. destruct Hc as [chains [v [Ho Hrest]]].
    exists chains, v. split; [now apply Hext | assumption].
  - intros [chains [v [Ho Hrest]]]. apply (HB vk rv H c).
    exists chains, v. split; [now apply Hext | assumption].
  - intros vk chains v Ho. apply HC with (chains := chains). now apply Hext.
  - intros vk rv Hin. destruct (HD vk rv Hin) as [chains [v [Ho Hid]]].
    exists chains, v. split; [now apply Hext | assumption].
Qed.

Lemma mergeVuln_aggregates (vk : VersionKey) (chains : list DependencyChain)
      (m : list (VersionKey * list ResolutionVuln)) (v : models.Vulnerability)
      (found : VersionKey -> list DependencyChain -> models.Vulnerability -> Prop) :
  aggregates m found ->
  aggregates (mergeVuln vk chains m v)
             (fun vk' chains' v' =>
                found vk' chains' v' \/ (vk' = vk /\ chains' = chains /\ v' = v)).
Proof.
  intros [HK [HE [HA [HB [HC HD]]]]].
  assert (Hdec : forall vk', vk' = vk \/ vk' <> vk).
  { intros vk'. destruct (VersionKey_eqb vk' vk) eqn:H.
    - left. now apply VersionKey_eqb_eq.
    - right. intros Heq. apply VersionKey_eqb_eq in Heq. congruence. }
  split; [now apply mergeVuln_keys|].
  split; [now apply mergeVuln_nonempty|].
  pose proof (mapSlice_mergeVuln_same vk chains m v) as Hsame. simpl in Hsame.
  set (f := fun rv => mkResolutionVuln (Vulnerability rv)
                        (ProblemChains rv ++ chains) (DevOnly rv && false)) in *.
  assert (Hfid : forall x, recordID (f x) = recordID x) by reflexivity.
  repeat split.
  - (* one record per identifier *)
    intros vk'. destruct (Hdec vk') as [->|Hne];
      [|rewrite mapSlice_mergeVuln_other by assumption; apply HA].
    destruct Hsame as [[i [x [Hnth [Hid ->]]]]|[Hnone ->]].
    + rewrite updateAt_map by exact Hfid. apply HA.
    + rewrite map_app. simpl. apply NoDup_snoc; [apply HA|].
      intros Hin. apply in_map_iff in Hin. destruct Hin as [x [Hid Hx]].
      exact (Hnone x Hx Hid).
  - (* the chains of a record: only those of its occurrences *)
    intros Hc. destruct (Hdec vk0) as [->|Hne].
    + destruct Hsame as [[i [x [Hnth [Hid Heq]]]]|[Hnone Heq]]; rewrite Heq in H.
      * apply In_updateAt_pos in H. destruct H as [[j [Hj Hrv]]|[x' [Hx' ->]]].
        -- apply nth_error_In in Hrv. apply (HB vk rv Hrv c) in Hc.
           destruct Hc as [ch [w [Ho Hrest]]]. exists ch, w. auto.
        -- simpl in Hc. apply in_app_iff in Hc. destruct Hc as [Hc|Hc].
           ++ apply nth_error_In in Hx'. apply (HB vk x' Hx' c) in Hc.
              destruct Hc as [ch [w [Ho Hrest]]]. exists ch, w. auto.
           ++ exists chains, v. rewrite Hfid. rewrite Hnth in Hx'.
              injection Hx' as <-. auto.
      * apply in_app_iff in H. destruct H as [H|[<-|[]]].
        -- apply (HB vk rv H c) in Hc. destruct Hc as [ch [w [Ho Hrest]]].
           exists ch, w. auto.
        -- exists chains, v. simpl in *. auto.
    + rewrite mapSlice_mergeVuln_other in H by assumption.
      apply (HB vk0 rv H c) in Hc. destruct Hc as [ch [w [Ho Hrest]]].
      exists ch, w. auto.
  - (* the chains of a record: all those of its occurrences *)
    intros [ch [w [Ho [Hid Hc]]]]. destruct (Hdec vk0) as [->|Hne].
    + destruct Hsame as [[i [x [Hnth [Hidx Heq]]]]|[Hnone Heq]]; rewrite Heq in H.
      * apply In_updateAt_pos in H. destruct H as [[j [Hj Hrv]]|[x' [Hx' ->]]].
        -- destruct Ho as [Ho|[_ [-> ->]]].
           ++ apply nth_error_In in Hrv. apply (HB vk rv Hrv c). eauto.
           ++ exfalso. apply Hj.
              eapply recordID_unique; [apply HA | exact Hrv | exact Hnth |].
              transitivity (models.ID v); [symmetry; exact Hid | symmetry; exact Hidx].
        -- rewrite Hfid in Hid. simpl. apply in_app_iff.
           destruct Ho as [Ho|[_ [-> ->]]]; [left | now right].
           apply nth_error_In in Hx'. apply (HB vk x' Hx' c). eauto.
      * apply in_app_iff in H. destruct H as [H|[<-|[]]].
        -- destruct Ho as [Ho|[_ [-> ->]]]; [apply (HB vk rv H c); eauto|].
           exfalso. exact (Hnone rv H (eq_sym Hid)).
        -- simpl in *. destruct Ho as [Ho|[_ [-> ->]]]; [|assumption].
           exfalso. destruct (HC vk ch w Ho) as [x [Hx Hxid]].
           apply (Hnone x Hx). unfold recordID in *. simpl in *. congruence.
    + rewrite mapSlice_mergeVuln_other in H by assumption.
      destruct Ho as [Ho|[-> _]]; [|contradiction].
      apply (HB vk0 rv H c). eauto.
  - (* every occurrence has its record *)
    intros vk' ch w [Ho|[-> [-> ->]]].
    + destruct (HC vk' ch w Ho) as [x [Hx Hxid]].
      destruct (Hdec vk') as [->|Hne];
        [|rewrite mapSlice_mergeVuln_other by assumption; eauto].
      destruct Hsame as [[i [y [Hnth [Hid ->]]]]|[Hnone ->]].
      * destruct (updateAt_In_old i f _ _ Hx) as [Hin|Hin]; [eauto|].
        exists (f x). auto.
      * exists x. rewrite in_app_iff. auto.
    + destruct Hsame as [[i [y [Hnth [Hid ->]]]]|[Hnone ->]].
      * exists (f y). split; [now apply updateAt_nth | assumption].
      * eexists. rewrite in_app_iff. split; [right; left; reflexivity | reflexivity].
  - (* every record has an occurrence *)
    intros vk' rv Hin. destruct (Hdec vk') as [->|Hne].
    + destruct Hsame as [[i [x [Hnth [Hid Heq]]]]|[Hnone Heq]]; rewrite Heq in Hin.
      * apply In_updateAt in Hin. destruct Hin as [Hin|[x' [Hx' ->]]].
        -- destruct (HD vk rv Hin) as [ch [w [Ho Hw]]]. exists ch, w. auto.
        -- apply nth_error_In in Hx'. destruct (HD vk x' Hx') as [ch [w [Ho Hw]]].
           exists ch, w. auto.
      * apply in_app_iff in Hin. destruct Hin as [Hin|[<-|[]]].
        -- destruct (HD vk rv Hin) as [ch [w [Ho Hw]]]. exists ch, w. auto.
        -- exists chains, v. auto.
    + rewrite mapSlice_mergeVuln_other in Hin by assumption.
      destruct (HD vk' rv Hin) as [ch [w [Ho Hw]]]. exists ch, w. auto.
Qed.

Lemma mergeVulns_aggregates (vk : VersionKey) (chains : list DependencyChain)
      (vs : list models.Vulnerability) :
  forall m found,
    aggregates m found ->
    aggregates (fold_left (mergeVuln vk chains) vs m)
               (fun vk' chains' v' =>
                  found vk' chains' v' \/ (vk' = vk /\ chains' = chains /\ In v' vs)).
Proof.
  induction vs as [|v vs IH]; intros m found Hm; simpl.
  - eapply aggregates_ext; [|exact Hm]. intros vk' ch w. tauto.
  - eapply aggregates_ext; [|apply IH; apply mergeVuln_aggregates; exact Hm].
    intros vk' ch w. simpl. split.
    + intros [[H|[H1 [H2 H3]]]|[H1 [H2 H3]]]; auto.
    + intros [H|[H1 [H2 [H3|H3]]]]; auto.
Qed.

Lemma Forall2_nth {A B : Type} (R : A -> B -> Prop) (l : list A) (l' : list B) :
  Forall2 R l l' ->
  forall i a b, nth_error l i = Some a -> nth_error l' i = Some b -> R a b.
Proof.
  induction 1 as [|x y l l' Hxy _ IH]; intros [|i] a b; simpl; try discriminate.
  - intros [= <-] [= <-]. assumption.
  - apply IH.
Qed.

(** The chains computed for a node other than the root are the simple
    paths from it to the root. *)
Lemma ComputeChains_paths (g : Graph) (nodes : list NodeID)
      (all : list (list DependencyChain)) (i : nat) (t : NodeID)
      (chains : list DependencyChain) :
  ComputeChains g nodes = Ok all ->
  nth_error nodes i = Some t -> nth_error all i = Some chains ->
  t <> 0%nat ->
  forall c, In c chains <-> ChainGraph c = g /\ simplePathToRoot g t (ChainEdges c).
Proof.
  intros Hall Ht Hchains Hroot.
  destruct (ComputeChains_each g nodes) as [all' [Hall' Heach]].
  rewrite Hall in Hall'. injection Hall' as <-.
  destruct (Forall2_nth Heach _ Ht Hchains) as [Hrun Hem].
  intros c. split.
  - intros Hin. rewrite Forall_forall in Hem. specialize (Hem c Hin).
    pose proof (emitted_simple_path Hem Hroot) as Hnd.
    destruct (emitted_wellFormed Hem) as [Hg [Hedges [Hl [Hlast _]]]].
    repeat split; assumption.
  - intros [Hg Hpath].
    pose proof (@chainsOfNode_complete _ _ _ _ _ Hrun Hpath) as Hin.
    destruct c as [cg ces]. simpl in *. now rewrite Hg.
Qed.

Section Records.

Variable cl : ResolutionClient.
Variable graph : Graph.

(** The aggregate of [inPlaceVulnsNodes] and the occurrences it is built
    from. *)
Lemma inPlaceVulnsNodes_aggregates (nodeVulns : list (list models.Vulnerability))
      (res : inPlaceVulnsNodesResult) :
  FindVulns cl graph = inr nodeVulns ->
  inPlaceVulnsNodes cl graph = Ok res ->
  exists nodeChains,
    ComputeChains graph (vulnerableNodeIDs nodeVulns) = Ok nodeChains
    /\ aggregates (vkVulns res)
                  (occurrence graph nodeVulns nodeChains
                              (enumerate (vulnerableNodeIDs nodeVulns)))
    /\ forall i n, In (i, n) (enumerate (vulnerableNodeIDs nodeVulns)) ->
                   exists chains vk,
                     nth_error nodeChains i = Some chains
                     /\ nodeVersion graph n = Ok vk.
Proof.
  intros Hfind Hrun.
  destruct (@inPlaceVulnsNodes_Ok _ _ _ _ Hfind Hrun)
    as [nodeChains [vv [_ [Hch [Hvv [Hkv _]]]]]].
  exists nodeChains. split; [assumption|]. rewrite Hkv. clear Hkv.
  revert Hvv.
  apply (@foldM_prefix _ _
           (fun pre (acc : list (VersionKey * list ResolutionVuln)
                           * list (VersionKey * list NodeID)) =>
              aggregates (fst acc) (occurrence graph nodeVulns nodeChains pre)
              /\ forall i n, In (i, n) pre ->
                             exists chains vk,
                               nth_error nodeChains i = Some chains
                               /\ nodeVersion graph n = Ok vk)).
  - intros pre [i nID] [vkv vkn] acc' [Hagg Hok] Hbody _.
    destruct (index nodeChains i) as [chains| |] eqn:Hi; simpl in Hbody;
      try discriminate.
    destruct (nodeVersion graph nID) as [vk| |] eqn:Hvk; simpl in Hbody;
      try discriminate.
    destruct (index nodeVulns nID) as [vs| |] eqn:Hvs; simpl in Hbody;
      try discriminate.
    injection Hbody as <-. simpl in *.
    apply index_Ok in Hi. apply index_Ok in Hvs. split.
    + eapply aggregates_ext; [|apply mergeVulns_aggregates; exact Hagg].
      intros vk' ch w. simpl. unfold occurrence. split.
      * intros [[j [n [ws [Hin Hrest]]]]|[-> [-> Hw]]].
        -- exists j, n, ws. rewrite in_app_iff. tauto.
        -- exists i, nID, vs. rewrite in_app_iff. simpl. auto 10.
      * intros [j [n [ws [Hin [Hj [Hn [Hws Hw]]]]]]]. apply in_app_iff in Hin.
        destruct Hin as [Hin|[[= <- <-]|[]]].
        -- left. exists j, n, ws. auto.
        -- right. rewrite Hi in Hj. rewrite Hvk in Hn. rewrite Hvs in Hws.
           injection Hj as <-. injection Hn as <-. injection Hws as <-. auto.
    + intros j n Hin. apply in_app_iff in Hin.
      destruct Hin as [Hin|[[= <- <-]|[]]]; [eauto|].
      exists chains, vk. auto.
  - split.
    + simpl. split; [constructor|]. split; [intros vk vulns []|].
      split; [intros vk; constructor|]. split; [intros vk rv []|].
      split; [|intros vk rv []].
      intros vk ch w [j [n [ws [[] _]]]].
    + intros i n [].
Qed.

(** X18: the aggregate vkVulns holds one entry per version key, none
    empty, and under each key one record per vulnerability identifier:
    a vulnerability found on several nodes of the same package version
    is merged into one record.  Every vulnerability of a node has its
    record under the version of the node, and every record is that of a
    vulnerability of some node of its version key. *)
Theorem inPlaceVulnsNodes_one_record_per_ID
        (nodeVulns : list (list models.Vulnerability)) (res : inPlaceVulnsNodesResult) :
  FindVulns cl graph = inr nodeVulns ->
  inPlaceVulnsNodes cl graph = Ok res ->
  NoDup (map fst (vkVulns res))
  /\ (forall vk vulns,
         In (vk, vulns) (vkVulns res) -> vulns <> [] /\ NoDup (map recordID vulns))
  /\ (forall n vs v,
         nth_error nodeVulns n = Some vs -> In v vs ->
         exists vk vulns rv,
           nodeVersion graph n = Ok vk
           /\ In (vk, vulns) (vkVulns res) /\ In rv vulns
           /\ recordID rv = models.ID v)
  /\ (forall vk vulns rv,
         In (vk, vulns) (vkVulns res) -> In rv vulns ->
         exists n vs v,
           nth_error nodeVulns n = Some vs /\ In v vs
           /\ nodeVersion graph n = Ok vk /\ models.ID v = recordID rv).
Proof.
  intros Hfind Hrun.
  destruct (inPlaceVulnsNodes_aggregates Hfind Hrun)
    as [nodeChains [_ [[HK [HE [HA [_ [HC HD]]]]] Hok]]].
  split; [assumption|]. split; [|split].
  - intros vk vulns Hin. split; [eauto|].
    rewrite <- (@In_mapSlice _ _ _ HK Hin). apply HA.
  - intros n vs v Hvs Hv.
    assert (Hn : In n (vulnerableNodeIDs nodeVulns)).
    { apply In_vulnerableNodeIDs. exists vs. split; [assumption|].
      intros ->. contradiction. }
    apply In_nth_error in Hn. destruct Hn as [i Hi]. apply In_enumerate in Hi.
    destruct (Hok i n Hi) as [chains [vk [Hchains Hvk]]].
    destruct (HC vk chains v) as [rv [Hrv Hid]].
    { exists i, n, vs. auto. }
    destruct (mapSlice_In _ _ _ Hrv) as [vulns [Hkv Hin]].
    exists vk, vulns, rv. auto.
  - intros vk vulns rv Hkv Hrv.
    rewrite <- (@In_mapSlice _ _ _ HK Hkv) in Hrv.
    destruct (HD vk rv Hrv) as [chains [v [[i [n [vs [_ [_ [Hvk [Hvs Hv]]]]]]] Hid]]].
    exists n, vs, v. auto.
Qed.

(** X22: when the root carries no vulnerability, the problem chains of
    a record of the aggregate are exactly the simple paths to the root
    from the nodes of its version key that carry a vulnerability with
    its identifier. *)
Theorem inPlaceVulnsNodes_problem_chains
        (nodeVulns : list (list models.Vulnerability)) (res : inPlaceVulnsNodesResult) :
  FindVulns cl graph = inr nodeVulns ->
  inPlaceVulnsNodes cl graph = Ok res ->
  ~ vulnerable nodeVulns 0%nat ->
  forall vk vulns rv,
    In (vk, vulns) (vkVulns res) -> In rv vulns ->
    forall c,
      In c (ProblemChains rv)
      <-> ChainGraph c = graph
          /\ exists n vs v,
              nth_error nodeVulns n = Some vs /\ In v vs
              /\ models.ID v = recordID rv
              /\ nodeVersion graph n = Ok vk
              /\ simplePathToRoot graph n (ChainEdges c).
Proof.
  intros Hfind Hrun Hroot vk vulns rv Hkv Hrv c.
  destruct (inPlaceVulnsNodes_aggregates Hfind Hrun)
    as [nodeChains [Hch [[HK [_ [_ [HB _]]]] Hok]]].
  rewrite <- (@In_mapSlice _ _ _ HK Hkv) in Hrv. rewrite (HB vk rv Hrv c).
  assert (Hne : forall i n, In (i, n) (enumerate (vulnerableNodeIDs nodeVulns)) ->
                            n <> 0%nat).
  { intros i n Hin ->. apply Hroot. apply In_vulnerableNodeIDs.
    apply In_enumerate in Hin. eapply nth_error_In; eassumption. }
  split.
  - intros [chains [v [[i [n [vs [Hin [Hi [Hvk [Hvs Hv]]]]]]] [Hid Hc]]]].
    pose proof Hin as Hnth. apply In_enumerate in Hnth.
    apply (@ComputeChains_paths _ _ _ _ _ _ Hch Hnth Hi (Hne i n Hin)) in Hc.
    destruct Hc as [Hg Hpath]. split; [assumption|].
    exists n, vs, v. auto.
  - intros [Hg [n [vs [v [Hvs [Hv [Hid [Hvk Hpath]]]]]]]].
    assert (Hn : In n (vulnerableNodeIDs nodeVulns)).
    { apply In_vulnerableNodeIDs. exists vs. split; [assumption|].
      intros ->. contradiction. }
    apply In_nth_error in Hn. destruct Hn as [i Hi].
    pose proof Hi as Hin. apply In_enumerate in Hin.
    destruct (Hok i n Hin) as [chains [vk' [Hchains _]]].
    exists chains, v. split; [exists i, n, vs; auto|]. split; [assumption|].
    apply (@ComputeChains_paths _ _ _ _ _ _ Hch Hi Hchains (Hne i n Hin)). auto.
Qed.

End Records.

Lemma foldM_unchanged {A B} (body : B -> A -> result B) (s : list A) (acc : B) :
  (forall x, In x s -> body acc x = Ok acc) -> foldM body s acc = Ok acc.
Proof.
  induction s as [|x s IH]; intros H; simpl; [reflexivity|].
  rewrite (H x (or_introl eq_refl)). simpl. apply IH. intros y Hy. apply H. now right.
Qed.

Lemma vulnerableNodeIDs_none (nodeVulns : list (list models.Vulnerability)) :
  Forall (fun vs => vs = []) nodeVulns -> vulnerableNodeIDs nodeVulns = [].
Proof.
  intros Hall.
  destruct (vulnerableNodeIDs nodeVulns) as [|n l] eqn:Hl; [reflexivity|].
  exfalso.
  assert (Hn : In n (vulnerableNodeIDs nodeVulns)) by (rewrite Hl; now left).
  apply In_vulnerableNodeIDs in Hn. destruct Hn as [vs [Hvs Hne]].
  apply nth_error_In in Hvs. rewrite Forall_forall in Hall. auto.
Qed.

Section NothingToFix.

Variable sv : semver.Lib.
Variable cl : ResolutionClient.
Variable IsAffected : models.Vulnerability -> VersionKey -> bool.
Variable rangeOrder : forall A : Type, list A -> list A.
Variable graph : Graph.
Variable opts : RemediationOptions.

Hypothesis rangeOrder_visits_all : forall (A : Type) (l : list A), Permutation (rangeOrder l) l.

(** X23: when FindVulns reports no vulnerability on any node, and a
    list for the source of every edge, ComputeInPlacePatches returns the
    empty result, whatever the options: no patch and nothing unfixable,
    without listing a version or fetching a requirement. *)
Theorem ComputeInPlacePatches_nothing_to_fix
        (nodeVulns : list (list models.Vulnerability)) :
  FindVulns cl graph = inr nodeVulns ->
  Forall (fun vs => vs = []) nodeVulns ->
  (forall e, In e (Edges graph) -> (From e < List.length nodeVulns)%nat) ->
  ComputeInPlacePatches sv cl IsAffected rangeOrder graph opts
  = Ok (mkInPlaceResult [] []).
Proof.
  intros Hfind Hnone Hedges.
  assert (Hres : inPlaceVulnsNodes cl graph = Ok (mkInPlaceVulnsNodesResult [] [] [])).
  { unfold inPlaceVulnsNodes. rewrite Hfind. simpl.
    rewrite foldM_unchanged.
    - simpl. rewrite (vulnerableNodeIDs_none Hnone). reflexivity.
    - intros e He.
      destruct (@index_in_range _ nodeVulns (From e) (Hedges e He)) as [vs Hvs].
      rewrite Hvs. simpl. apply index_Ok in Hvs. apply nth_error_In in Hvs.
      rewrite Forall_forall in Hnone. rewrite (Hnone vs Hvs). reflexivity. }
  unfold ComputeInPlacePatches. rewrite Hres. simpl.
  unfold dependentConstraints, searchPatches. simpl.
  assert (Hnil : rangeOrder (@nil (VersionKey * list ResolutionVuln)) = []).
  { apply Permutation_nil. symmetry. apply rangeOrder_visits_all. }
  rewrite Hnil. reflexivity.
Qed.

End NothingToFix.

(** ** The requirement strings of the dependents *)

Lemma In_setAdd (s : list string) (v x : string) :
  In x (setAdd s v) <-> In x s \/ x = v.
Proof.
  unfold setAdd. destruct (existsb (String.eqb v) s) eqn:He.
  - apply existsb_exists in He. destruct He as [y [Hy Heq]].
    apply String.eqb_eq in Heq. subst y. split; [auto | intros [H| ->]; assumption].
  - rewrite in_app_iff. simpl. split; [intros [H|[<-|[]]]; auto | intros [H| ->]; auto].
Qed.

Lemma setAdd_NoDup (s : list string) (v : string) : NoDup s -> NoDup (setAdd s v).
Proof.
  intros Hnd. unfold setAdd. destruct (existsb (String.eqb v) s) eqn:He; [assumption|].
  apply NoDup_snoc; [assumption|]. intros Hin.
  assert (Ht : existsb (String.eqb v) s = true).
  { apply existsb_exists. exists v. split; [assumption | apply String.eqb_refl]. }
  congruence.
Qed.

Lemma collectChains_spec (chains : list DependencyChain) :
  forall acc reqs,
    foldM (fun reqVers c => vr <- EndDependency c ;; Ok (setAdd reqVers (snd vr)))
          chains acc = Ok reqs ->
    (NoDup acc -> NoDup reqs)
    /\ forall s, In s reqs
                 <-> In s acc
                     \/ exists c vr, In c chains /\ EndDependency c = Ok vr /\ snd vr = s.
Proof.
  induction chains as [|c chains IH]; intros acc reqs; simpl.
  - intros [= <-]. split; [auto|]. intros s. split; [auto|].
    intros [H|[c [vr [[] _]]]]. assumption.
  - destruct (EndDependency c) as [vr| |] eqn:Hc; simpl; try discriminate.
    intros H. destruct (IH _ _ H) as [Hnd Hin]. split.
    + intros Hacc. apply Hnd. now apply setAdd_NoDup.
    + intros s. rewrite Hin, In_setAdd. split.
      * intros [[Hs| ->]|[c' [vr' [Hc' Hrest]]]]; auto.
        -- right. exists c, vr. auto.
        -- right. exists c', vr'. auto.
      * intros [Hs|[c' [vr' [[<-|Hc'] [Hend Hsnd]]]]]; auto.
        -- left. right. congruence.
        -- right. exists c', vr'. auto.
Qed.

Lemma collectRequirements_spec (vulns : list ResolutionVuln) (reqs : list string) :
  collectRequirements vulns = Ok reqs ->
  NoDup reqs
  /\ forall s, In s reqs
               <-> exists rv c vr, In rv vulns /\ In c (ProblemChains rv)
                                   /\ EndDependency c = Ok vr /\ snd vr = s.
Proof.
  unfold collectRequirements.
  assert (Hgen : forall acc reqs,
             foldM (fun reqVers vuln =>
                      foldM (fun reqVers c =>
                               vr <- EndDependency c ;; Ok (setAdd reqVers (snd vr)))
                            (ProblemChains vuln) reqVers)
                   vulns acc = Ok reqs ->
             (NoDup acc -> NoDup reqs)
             /\ forall s, In s reqs
                          <-> In s acc
                              \/ exists rv c vr, In rv vulns /\ In c (ProblemChains rv)
                                                 /\ EndDependency c = Ok vr
                                                 /\ snd vr = s).
  { clear reqs. induction vulns as [|rv vulns IH]; intros acc reqs; simpl.
    - intros [= <-]. split; [auto|]. intros s. split; [auto|].
      intros [H|[rv [c [vr [[] _]]]]]. assumption.
    - destruct (foldM _ (ProblemChains rv) acc) as [acc1| |] eqn:H1; simpl;
        try discriminate.
      intros H. destruct (collectChains_spec _ _ H1) as [Hnd1 Hin1].
      destruct (IH _ _ H) as [Hnd Hin]. split; [auto|].
      intros s. rewrite Hin, Hin1. split.
      + intros [[Hs|[c [vr [Hc Hrest]]]]|[rv' [c [vr [Hrv' Hrest]]]]]; auto.
        * right. exists rv, c, vr. auto.
        * right. exists rv', c, vr. auto.
      + intros [Hs|[rv' [c [vr [[<-|Hrv'] [Hc Hrest]]]]]]; auto.
        * left. right. exists c, vr. auto.
        * right. exists rv', c, vr. auto. }
  intros H. destruct (Hgen _ _ H) as [Hnd Hin]. split; [apply Hnd; constructor|].
  intros s. rewrite Hin. split; [intros [[]|H']; exact H' | auto].
Qed.

Section Constraints.

Variable sv : semver.Lib.
Variable rangeOrder : forall A : Type, list A -> list A.
Hypothesis rangeOrder_visits_all : forall (A : Type) (l : list A), Permutation (rangeOrder l) l.

(** X24: every constraint set the candidate search reads was built
    from the requirement strings that end the problem chains of the
    vulnerabilities of its version key, each string taken once: the
    requirements the direct dependents put on the vulnerable package. *)
Theorem dependentConstraints_built_from_chains (res : inPlaceVulnsNodesResult)
        (cons : list (VersionKey * semver.Set_ sv)) :
  dependentConstraints sv rangeOrder res = Ok cons ->
  forall vk set,
    mapGet VersionKey_eqb cons vk = Some set ->
    exists vulns reqVers,
      In (vk, vulns) (vkVulns res)
      /\ buildConstraintSet sv (vkSystem vk) (rangeOrder reqVers) = Ok set
      /\ NoDup reqVers
      /\ forall s, In s reqVers
                   <-> exists rv c vr, In rv vulns /\ In c (ProblemChains rv)
                                       /\ EndDependency c = Ok vr /\ snd vr = s.
Proof.
  intros Hrun vk set Hget.
  apply (@mapGet_In _ _ VersionKey_eqb VersionKey_eqb_eq) in Hget.
  revert vk set Hget. revert Hrun. unfold dependentConstraints.
  apply (@foldM_inv _ _
           (fun m : list (VersionKey * semver.Set_ sv) =>
              forall vk set,
                In (vk, set) m ->
                exists vulns reqVers,
                  In (vk, vulns) (vkVulns res)
                  /\ buildConstraintSet sv (vkSystem vk) (rangeOrder reqVers) = Ok set
                  /\ NoDup reqVers
                  /\ forall s, In s reqVers
                               <-> exists rv c vr,
                                     In rv vulns /\ In c (ProblemChains rv)
                                     /\ EndDependency c = Ok vr /\ snd vr = s)).
  - intros m [vk0 vulns] m' Hkv Hm Hbody vk set Hin.
    destruct (collectRequirements vulns) as [reqVers| |] eqn:Hreqs; simpl in Hbody;
      try discriminate.
    destruct (buildConstraintSet sv (vkSystem vk0) (rangeOrder reqVers))
      as [set0| |] eqn:Hset; try discriminate; injection Hbody as <-; [|auto].
    apply (@In_mapSet _ _ VersionKey_eqb VersionKey_eqb_eq) in Hin.
    destruct Hin as [Hin|[= -> ->]]; [auto|].
    destruct (collectRequirements_spec _ Hreqs) as [Hnd Hspec].
    exists vulns, reqVers. split; [|auto].
    eapply Permutation_in; [apply rangeOrder_visits_all | exact Hkv].
  - intros vk set [].
Qed.

End Constraints.

(** ** The further properties at work *)

Lemma resultA_computed :
  ComputeInPlacePatches toySemver clientA affected declarationOrder graphA optsMinor
  = Ok resultA.
Proof. vm_compute. reflexivity. Qed.

Lemma vulnsA_found : FindVulns clientA graphA = inr [[]; []; [vulnB]].
Proof. reflexivity. Qed.

(** *** X6 *)

(** The listing of E holds a requirement, on which the first predicate
    panics: it is never asked. *)
Lemma findFixedVersion_concrete_only_witness :
  concreteOrPanic (required "E" "11.0.0") = Panic IndexOutOfRange
  /\ findFixedVersion toySemver clientA (pkg "E") concreteOrPanic
     = findFixedVersion toySemver clientA (pkg "E") (fun _ => Ok true).
Proof.
  split; [reflexivity|].
  apply (@findFixedVersion_concrete_only toySemver clientA (pkg "E")
           concreteOrPanic (fun _ => Ok true)).
  intros vers v _ _ Hc. unfold concreteOrPanic. rewrite Hc. reflexivity.
Defined.

(** *** X7 *)

Lemma findFixedVersion_listing_order_witness :
  Versions clientA (pkg "B")
  = inr [released "B" "2.0.0"; released "B" "1.0.0"; released "B" "1.1.0"]
  /\ Versions clientShuffled (pkg "B")
     = inr [released "B" "1.1.0"; released "B" "1.0.0"; released "B" "2.0.0"]
  /\ findFixedVersion toySemver clientA (pkg "B")
       (fun vk => Ok (negb (String.eqb (Version vk) "2.0.0")))
     = findFixedVersion toySemver clientShuffled (pkg "B")
         (fun vk => Ok (negb (String.eqb (Version vk) "2.0.0"))).
Proof.
  split; [reflexivity|]. split; [reflexivity|].
  apply (@findFixedVersion_listing_order toySemver clientA clientShuffled (pkg "B")
           (fun vk => negb (String.eqb (Version vk) "2.0.0"))
           [released "B" "2.0.0"; released "B" "1.0.0"; released "B" "1.1.0"]
           (rev [released "B" "2.0.0"; released "B" "1.0.0"; released "B" "1.1.0"])).
  - apply toyCompare_consistent.
  - apply toyCompare_transitive.
  - reflexivity.
  - reflexivity.
  - apply Permutation_rev.
  - intros v [<-|[<-|[<-|[]]]]; reflexivity.
  - intros v w [<-|[<-|[<-|[]]]] [<-|[<-|[<-|[]]]] H1 H2;
      try reflexivity; vm_compute in H1; vm_compute in H2;
      exfalso; try (apply H1; reflexivity); apply H2; reflexivity.
Defined.

(** *** X9 *)

Lemma buildConstraintSet_outcome_witness :
  buildConstraintSet toySemver NPM ["^1.0.0"; "latest"] = Ok [Caret 1 1000000; Any]
  /\ Forall (fun r => exists c,
                 semver.ParseConstraint toySemver NPM (latestAsWildcard r) = inr c)
            ["^1.0.0"; "latest"].
Proof.
  assert (Hrun : buildConstraintSet toySemver NPM ["^1.0.0"; "latest"]
                 = Ok [Caret 1 1000000; Any]) by (vm_compute; reflexivity).
  split; [exact Hrun|].
  assert (Hne : ["^1.0.0"; "latest"] <> @nil string) by discriminate.
  pose proof (@buildConstraintSet_outcome toySemver NPM ["^1.0.0"; "latest"] Hne) as H.
  rewrite Hrun in H. exact H.
Defined.

(** *** X10, X11, X12 and X13 *)

Lemma dependenciesSatisfied_latest_witness :
  map wildcardRequirement requirementsOfB
  = [mkRequirementVersion (required "C" "*") regular;
     mkRequirementVersion (required "X" "^1.0.0") regular;
     mkRequirementVersion (required "X" "^1.0.0") optional;
     mkRequirementVersion (required "T" "^1.0.0") development]
  /\ dependenciesSatisfied toySemver
       (clientRequiring (map wildcardRequirement requirementsOfB))
       (concrete "B" "1.1.0") [concrete "C" "1.2.0"]
     = dependenciesSatisfied toySemver (clientRequiring requirementsOfB)
         (concrete "B" "1.1.0") [concrete "C" "1.2.0"].
Proof.
  split; [reflexivity|].
  apply (@dependenciesSatisfied_latest toySemver (clientRequiring requirementsOfB)
           (clientRequiring (map wildcardRequirement requirementsOfB))
           (concrete "B" "1.1.0") [concrete "C" "1.2.0"] requirementsOfB);
    reflexivity.
Defined.

(** C is installed at a version the tag latest admits; X is not
    installed and is also listed as optional. *)
Lemma dependenciesSatisfied_true_sound_witness :
  dependenciesSatisfied toySemver (clientRequiring requirementsOfB)
                        (concrete "B" "1.1.0") [concrete "C" "1.2.0"] = Ok true
  /\ metBy toySemver NPM [concrete "C" "1.2.0"] (required "C" "latest")
  /\ ~ installed [concrete "C" "1.2.0"] "X".
Proof.
  assert (Hrun : dependenciesSatisfied toySemver (clientRequiring requirementsOfB)
                   (concrete "B" "1.1.0") [concrete "C" "1.2.0"] = Ok true)
    by (vm_compute; reflexivity).
  split; [exact Hrun|].
  pose proof (@dependenciesSatisfied_true_sound toySemver
                (clientRequiring requirementsOfB) (concrete "B" "1.1.0")
                [concrete "C" "1.2.0"] requirementsOfB eq_refl Hrun) as H.
  split.
  - destruct (H (mkRequirementVersion (required "C" "latest") regular)
                (or_introl eq_refl) eq_refl) as [Hmet|[Hni _]]; [exact Hmet|].
    exfalso. apply Hni. exists (concrete "C" "1.2.0"). split; [now left | reflexivity].
  - destruct (H (mkRequirementVersion (required "X" "^1.0.0") regular)
                (or_intror (or_introl eq_refl)) eq_refl) as [Hmet|[Hni _]];
      [|exact Hni].
    exfalso. destruct Hmet as [constr [_ [child [[<-|[]] [Hn _]]]]]. discriminate.
Defined.

Lemma dependenciesSatisfied_reads_regular_and_optional_witness :
  filter isRead requirementsOfB
  = [mkRequirementVersion (required "C" "latest") regular;
     mkRequirementVersion (required "X" "^1.0.0") regular;
     mkRequirementVersion (required "X" "^1.0.0") optional]
  /\ dependenciesSatisfied toySemver
       (clientRequiring (filter isRead requirementsOfB))
       (concrete "B" "1.1.0") [concrete "C" "1.2.0"]
     = dependenciesSatisfied toySemver (clientRequiring requirementsOfB)
         (concrete "B" "1.1.0") [concrete "C" "1.2.0"].
Proof.
  split; [reflexivity|].
  apply (@dependenciesSatisfied_reads_regular_and_optional toySemver
           (clientRequiring requirementsOfB)
           (clientRequiring (filter isRead requirementsOfB))
           (concrete "B" "1.1.0") [concrete "C" "1.2.0"] requirementsOfB);
    reflexivity.
Defined.

(** Nothing is installed: the requirement on C is not met. *)
Lemma dependenciesSatisfied_false_sound_witness :
  dependenciesSatisfied toySemver (clientRequiring requirementsOfB)
                        (concrete "B" "1.1.0") [] = Ok false
  /\ exists r constr,
      In r requirementsOfB /\ dep.IsRegular (ReqType r) = true
      /\ semver.ParseConstraint toySemver NPM
           (latestAsWildcard (Version (ReqVersionKey r))) = inr constr.
Proof.
  assert (Hrun : dependenciesSatisfied toySemver (clientRequiring requirementsOfB)
                   (concrete "B" "1.1.0") [] = Ok false)
    by (vm_compute; reflexivity).
  split; [exact Hrun|].
  destruct (@dependenciesSatisfied_false_sound toySemver
              (clientRequiring requirementsOfB) (concrete "B" "1.1.0")
              [] requirementsOfB eq_refl Hrun) as [r [constr [Hr [Hreg [Hp _]]]]].
  exists r, constr. auto.
Defined.

(** *** X14, X15, X16 and X17 *)


Lemma ComputeInPlacePatches_unfixable_justified_witness :
  (forall (A : Type) (l : list A), Permutation (declarationOrder l) l)
  /\ ComputeInPlacePatches toySemver clientA affected declarationOrder graphA optsAvoidB
     = Ok resultAvoidB
  /\ exists vk vulns,
      In rvB vulns /\ MatchVuln optsAvoidB rvB = true
      /\ (In (vkName vk) (AvoidPkgs optsAvoidB)
          \/ exists vers, Versions clientA (PackageKey_ vk) = inr vers).
Proof.
  assert (Hrun : ComputeInPlacePatches toySemver clientA affected declarationOrder
                                       graphA optsAvoidB = Ok resultAvoidB)
    by (vm_compute; reflexivity).
  split; [exact declarationOrder_visits_all|]. split; [exact Hrun|].
  destruct (@ComputeInPlacePatches_unfixable_justified
              toySemver clientA affected declarationOrder graphA optsAvoidB
              declarationOrder_visits_all resultAvoidB Hrun)
    as [res [cons [_ [_ H]]]].
  destruct (H rvB (or_introl eq_refl)) as [vk [vulns [_ [Hrv [Hm Hwhy]]]]].
  exists vk, vulns. split; [exact Hrv|]. split; [exact Hm|].
  destruct Hwhy as [Ha|[vers [Hv _]]]; [now left | right; eauto].
Defined.

Lemma ComputeInPlacePatches_accounts_for_all_witness :
  (forall (A : Type) (l : list A), Permutation (declarationOrder l) l)
  /\ inPlaceVulnsNodes clientA graphA = Ok resA
  /\ ComputeInPlacePatches toySemver clientA affected declarationOrder graphA optsMinor
     = Ok resultA
  /\ Permutation (accounted resultA) (considered optsMinor resA).
Proof.
  split; [exact declarationOrder_visits_all|]. split; [exact resA_aggregate|].
  split; [exact resultA_computed|].
  exact (@ComputeInPlacePatches_accounts_for_all
           toySemver clientA affected declarationOrder graphA optsMinor
           declarationOrder_visits_all resA resultA resA_aggregate resultA_computed).
Defined.

Lemma ComputeInPlacePatches_error_provenance_witness :
  ComputeInPlacePatches toySemver clientVersionsDown affected declarationOrder
                        graphA optsMinor
  = Err (errExternal "versions: connection refused")
  /\ exists msg,
      errExternal "versions: connection refused" = errExternal msg
      /\ (FindVulns clientVersionsDown graphA = inl msg
          \/ exists pk, Versions clientVersionsDown pk = inl msg).
Proof.
  assert (Hrun : ComputeInPlacePatches toySemver clientVersionsDown affected
                   declarationOrder graphA optsMinor
                 = Err (errExternal "versions: connection refused"))
    by (vm_compute; reflexivity).
  split; [exact Hrun|].
  exact (@ComputeInPlacePatches_error_provenance
           toySemver clientVersionsDown affected declarationOrder graphA optsMinor
           (errExternal "versions: connection refused") Hrun).
Defined.

(** *** X18 to X22 *)

Lemma inPlaceVulnsNodes_one_record_per_ID_witness :
  FindVulns clientA graphA = inr [[]; []; [vulnB]]
  /\ inPlaceVulnsNodes clientA graphA = Ok resA
  /\ NoDup (map fst (vkVulns resA))
  /\ exists vk vulns rv,
      nodeVersion graphA 2%nat = Ok vk
      /\ In (vk, vulns) (vkVulns resA) /\ In rv vulns
      /\ recordID rv = models.ID vulnB.
Proof.
  split; [exact vulnsA_found|]. split; [exact resA_aggregate|].
  destruct (@inPlaceVulnsNodes_one_record_per_ID clientA graphA [[]; []; [vulnB]] resA
              vulnsA_found resA_aggregate) as [HK [_ [Hall _]]].
  split; [exact HK|].
  exact (Hall 2%nat [vulnB] vulnB eq_refl (or_introl eq_refl)).
Defined.

(** A is vulnerable and depends on B: the version of B is listed for it;
    nothing is listed for the root, which is not vulnerable. *)
Lemma inPlaceVulnsNodes_nodeDependencies_witness :
  FindVulns clientMiddle graphA = inr [[]; [vulnD1]; [vulnB]]
  /\ exists res,
      inPlaceVulnsNodes clientMiddle graphA = Ok res
      /\ In (concrete "B" "1.0.0") (mapSlice Nat.eqb (nodeDependencies res) 1%nat)
      /\ forall v, ~ In v (mapSlice Nat.eqb (nodeDependencies res) 0%nat).
Proof.
  split; [reflexivity|].
  destruct (inPlaceVulnsNodes clientMiddle graphA) as [res| |] eqn:Hres;
    [|vm_compute in Hres; discriminate|vm_compute in Hres; discriminate].
  exists res. split; [reflexivity|].
  pose proof (@inPlaceVulnsNodes_nodeDependencies clientMiddle graphA
                [[]; [vulnD1]; [vulnB]] res eq_refl Hres) as H.
  split.
  - apply H. split.
    + exists [vulnD1]. split; [reflexivity | discriminate].
    + exists (edge 1 2 "^1.0.0"). split; [right; now left|].
      split; reflexivity.
  - intros v Hin. apply H in Hin.
    destruct Hin as [[vs [Hvs Hne]] _]. injection Hvs as <-. now apply Hne.
Defined.

Lemma inPlaceVulnsNodes_vkNodes_witness :
  FindVulns clientA graphA = inr [[]; []; [vulnB]]
  /\ inPlaceVulnsNodes clientA graphA = Ok resA
  /\ In 2%nat (mapSlice VersionKey_eqb (vkNodes resA) (concrete "B" "1.0.0")).
Proof.
  split; [exact vulnsA_found|]. split; [exact resA_aggregate|].
  apply (@inPlaceVulnsNodes_vkNodes clientA graphA [[]; []; [vulnB]] resA
           vulnsA_found resA_aggregate (concrete "B" "1.0.0") 2%nat).
  split; [|reflexivity]. exists [vulnB]. split; [reflexivity | discriminate].
Defined.

Lemma inPlaceVulnsNodes_returns_witness :
  edgesWithinNodes graphA
  /\ FindVulns clientA graphA = inr [[]; []; [vulnB]]
  /\ exists res, inPlaceVulnsNodes clientA graphA = Ok res.
Proof.
  assert (Hedges : edgesWithinNodes graphA).
  { intros e [<-|[<-|[]]]; simpl; lia. }
  split; [exact Hedges|]. split; [exact vulnsA_found|].
  exact (@inPlaceVulnsNodes_returns clientA graphA [[]; []; [vulnB]]
           Hedges vulnsA_found eq_refl).
Defined.

Lemma inPlaceVulnsNodes_problem_chains_witness :
  FindVulns clientA graphA = inr [[]; []; [vulnB]]
  /\ inPlaceVulnsNodes clientA graphA = Ok resA
  /\ ~ vulnerable [[]; []; [vulnB]] 0%nat
  /\ simplePathToRoot graphA 2%nat (ChainEdges chainA).
Proof.
  assert (Hroot : ~ vulnerable [[]; []; [vulnB]] 0%nat).
  { intros [vs [Hvs Hne]]. injection Hvs as <-. now apply Hne. }
  split; [exact vulnsA_found|]. split; [exact resA_aggregate|].
  split; [exact Hroot|].
  destruct (proj1 (@inPlaceVulnsNodes_problem_chains clientA graphA [[]; []; [vulnB]]
                     resA vulnsA_found resA_aggregate Hroot
                     (concrete "B" "1.0.0") [rvB] rvB
                     (or_introl eq_refl) (or_introl eq_refl) chainA)
                  (or_introl eq_refl))
    as [_ [n [vs [v [Hvs [Hv [_ [Hvk Hpath]]]]]]]].
  destruct n as [|[|[|n]]]; simpl in Hvs; try discriminate; try exact Hpath.
  all: destruct n; discriminate.
Defined.

(** *** X23 and X24 *)

Lemma ComputeInPlacePatches_nothing_to_fix_witness :
  FindVulns clientClean graphA = inr [[]; []; []]
  /\ ComputeInPlacePatches toySemver clientClean affected declarationOrder
                           graphA optsMajor
     = Ok (mkInPlaceResult [] []).
Proof.
  split; [reflexivity|].
  apply (@ComputeInPlacePatches_nothing_to_fix toySemver clientClean affected
           declarationOrder graphA optsMajor declarationOrder_visits_all
           [[]; []; []] eq_refl).
  - repeat constructor.
  - intros e [<-|[<-|[]]]; simpl; lia.
Defined.

Lemma dependentConstraints_built_from_chains_witness :
  (forall (A : Type) (l : list A), Permutation (declarationOrder l) l)
  /\ dependentConstraints toySemver declarationOrder resA = Ok consA
  /\ mapGet VersionKey_eqb consA (concrete "B" "1.0.0") = Some [Caret 1 1000000]
  /\ exists vulns reqVers,
      In (concrete "B" "1.0.0", vulns) (vkVulns resA)
      /\ buildConstraintSet toySemver NPM (declarationOrder reqVers)
         = Ok [Caret 1 1000000]
      /\ NoDup reqVers.
Proof.
  split; [exact declarationOrder_visits_all|]. split; [exact consA_constraints|].
  split; [reflexivity|].
  destruct (@dependentConstraints_built_from_chains toySemver declarationOrder
              declarationOrder_visits_all resA consA consA_constraints
              (concrete "B" "1.0.0") [Caret 1 1000000] eq_refl)
    as [vulns [reqVers [Hkv [Hset [Hnd _]]]]].
  exists vulns, reqVers. auto.
Defined.

